(** * Threat-intelligence correlation and risk-scoring pipeline

    A shallow embedding of the JavaScript services of the engine
    (feature extraction, rule engine, graph engine, ML scorer,
    indicator ingestion and the normalizer) together with the
    properties established about them.

    Numbers.  JavaScript has one number type, the IEEE-754 double.  It
    is rendered here by the type that fits each service:
    - [Z] for integer columns and rule point values;
    - [Q], exact rational arithmetic, for the graph metrics and the
      stored confidence (the idealisation of doubles under which
      "approximately 1" reads "equal to 1");
    - [R] for the feature extractor, whose entropy needs [log2];
    - [float], the kernel's binary64, for the ML scorer, whose
      arithmetic is only sums, products, quotients and comparisons of
      literals and is therefore reproduced bit for bit. *)

From Stdlib Require Import ZArith QArith Qround Qminmax Reals Lra Lia.
From Stdlib Require Import List Permutation Sorted.
From Stdlib Require Import Floats.PrimFloat Floats.SpecFloat Floats.FloatOps.
From Stdlib Require Floats.FloatAxioms.
From Stdlib Require Uint63.
From Stdlib Require Lqa.
From Stdlib Require Import Strings.Ascii.
From stdpp Require Import gmap strings list fin_maps pretty.

Local Open Scope Z_scope.

(** ** JavaScript conventions shared by the services *)

Module Js.

(** The outcome of a call or of an awaited promise: a value, or the
    message of the error thrown (of the rejection). *)
Inductive promise (A : Type) : Type :=
| Resolved (a : A)
| Rejected (msg : string).
Arguments Resolved {A} a.
Arguments Rejected {A} msg.

Definition bind {A B} (p : promise A) (k : A -> promise B) : promise B :=
  match p with
  | Resolved a => k a
  | Rejected msg => Rejected msg
  end.

(** [try { ... } catch (error) { return fallback }]. *)
Definition catch {A} (p : promise A) (fallback : A) : A :=
  match p with
  | Resolved a => a
  | Rejected _ => fallback
  end.

(** Truthiness of a string-valued property that may be absent. *)
Definition truthy_string (s : option string) : bool :=
  match s with
  | Some s => negb (String.eqb s "")
  | None => false
  end.

(** [Math.round] on an exact rational: the nearest integer, ties
    towards positive infinity. *)
Definition Math_round (x : Q) : Z := Qfloor (x + (1 # 2))%Q.

End Js.

(** [await] sequences promises: [x ← p; k] is stdpp's bind notation. *)
#[global] Instance promise_bind : MBind Js.promise :=
  fun A B k p => Js.bind p k.
#[global] Instance promise_ret : MRet Js.promise :=
  fun A a => Js.Resolved a.

(** ** Storage: the SQLite tables of [db.js] *)

Module Storage.

(** A confidence as an event carries it in its free-form metadata,
    which nothing checks: a number, or a text.  [NumericText q] is a
    text that SQLite reads as the number [q] when it is stored in the
    REAL column ("0.1" as 1/10).  A text that is no number would stay
    a text in the column; the table below holds numbers only, and such
    texts are left out. *)
Inductive confidence :=
| Number (q : Q)
| NumericText (q : Q).

(** Row of [indicators]. [metadata] is kept in parsed form: the two
    properties the services read back from the JSON text. *)
Record metadata := {
  md_confidence : option confidence;
  md_reputation : option Q
}.

Record indicator := {
  ind_id : string;
  ind_type : string;
  ind_value : string;
  ind_source : string;
  ind_confidence : Q;
  ind_first_seen : string;
  ind_last_seen : string;
  ind_metadata : option metadata
}.

(** Row of [events]. [timestamp_text] is the text that the column
    [timestamp] holds, by which the storage orders the rows, and
    [timestamp] the value of [new Date(e.timestamp).getTime()], in
    milliseconds, that the feature extractor computes with. *)
Record event := {
  event_type : string;
  timestamp_text : string;
  timestamp : Z;
  frequency : Z;
  port : option Z;
  geo_location : option string;
  payload_size : option Z;
  indicator_id : string
}.

(** Row of [graph_nodes]. *)
Record graph_node := {
  node_id : string;
  entity_type : string;
  entity_value : string
}.

(** Row of [graph_edges]. *)
Record graph_edge := {
  edge_id : string;
  source_node : string;
  target_node : string;
  relation_type : string;
  edge_weight : Q
}.

(** The database: its tables, and whether the storage answers.  A
    query on an unavailable database calls back with an error. *)
Record db := {
  available : bool;
  indicators : list indicator;
  events : list event;
  graph_nodes : list graph_node;
  graph_edges : list graph_edge
}.

Definition storage_error : string := "SQLITE_ERROR".

Definition set_indicators (d : db) (l : list indicator) : db :=
  {| available := available d; indicators := l; events := events d;
     graph_nodes := graph_nodes d; graph_edges := graph_edges d |}.

Definition set_graph_nodes (d : db) (l : list graph_node) : db :=
  {| available := available d; indicators := indicators d; events := events d;
     graph_nodes := l; graph_edges := graph_edges d |}.

Definition set_graph_edges (d : db) (l : list graph_edge) : db :=
  {| available := available d; indicators := indicators d; events := events d;
     graph_nodes := graph_nodes d; graph_edges := l |}.

End Storage.

(** ** Feature extraction ([services/features.js]) *)

Module Features.
Import Js Storage.
Local Open Scope R_scope.

Record features := {
  event_frequency : R;
  time_between_events : R;
  event_rate_per_minute : R;
  event_rate_per_hour : R;
  unique_event_types : R;
  event_type_diversity : R;
  port_scan_entropy : R;
  geo_risk_score : R;
  unique_geolocations : R;
  unique_ports : R;
  avg_payload_size : R;
  payload_variance : R;
  event_count_zscore : R;
  confidence_score : R;
  blacklist_score : R;
  dns_entropy : R
}.

(** [ORDER BY timestamp DESC].  The column is a TEXT column: the rows
    come in descending order of their timestamp texts, compared byte
    by byte.  For the texts that [toISOString()] writes for the years
    0000 to 9999 that is the order of time, latest first.  SQL leaves
    the order of rows with equal texts open; SQLite walks the index on
    [events(timestamp)] backwards, which lists them latest inserted
    first, and so does this sort. *)
Fixpoint insert_desc (e : event) (l : list event) : list event :=
  match l with
  | [] => [e]
  | e' :: t =>
      if negb (String.leb (timestamp_text e) (timestamp_text e'))
      then e :: e' :: t
      else e' :: insert_desc e t
  end.

Definition order_by_timestamp_desc (l : list event) : list event :=
  fold_right insert_desc [] l.

(** [SELECT * FROM events WHERE indicator_id = ? ORDER BY timestamp
    DESC LIMIT 1000]; the promise rejects when the query fails. *)
Definition getIndicatorEvents (d : db) (indicatorId : string)
  : promise (list event) :=
  if available d then
    Resolved
      (take 1000
         (order_by_timestamp_desc
            (filter (fun e => indicator_id e = indicatorId) (events d))))
  else Rejected storage_error.

(** [SELECT * FROM indicators WHERE id = ?]: the first matching row,
    or [undefined]. *)
Definition getIndicator (d : db) (indicatorId : string)
  : promise (option indicator) :=
  if available d then
    Resolved (List.find (fun i => String.eqb (ind_id i) indicatorId) (indicators d))
  else Rejected storage_error.

Definition calculateEventFrequency (evs : list event) : R :=
  INR (length evs).

(** [Array.prototype.sort()] without a comparator orders the numbers
    by their decimal text, code unit by code unit; it is stable. *)
Fixpoint insert_text (x : Z) (l : list Z) : list Z :=
  match l with
  | [] => [x]
  | y :: t =>
      if String.leb (pretty x) (pretty y) then x :: y :: t
      else y :: insert_text x t
  end.

Definition default_sort (l : list Z) : list Z := fold_right insert_text [] l.

Fixpoint differences (times : list Z) : list R :=
  match times with
  | a :: ((b :: _) as t) => (IZR (b - a) / 1000) :: differences t
  | _ => []
  end.

Definition sum (l : list R) : R := fold_left Rplus l 0.

Definition calculateTimeBetweenEvents (evs : list event) : R :=
  if (length evs <? 2)%nat then 0
  else
    let times := default_sort (map timestamp evs) in
    let diffs := differences times in
    sum diffs / INR (length diffs).

Definition calculateEventRate (now : Z) (evs : list event) (windowSeconds : Z) : R :=
  if (length evs =? 0)%nat then 0
  else
    let windowMs := (windowSeconds * 1000)%Z in
    let recentEvents :=
      List.filter (fun e => (now - timestamp e <? windowMs)%Z) evs in
    INR (length recentEvents) / IZR windowSeconds * 60.

(** [new Set(xs).size]. *)
Definition set_size {A} `{EqDecision A} (xs : list A) : R :=
  INR (length (remove_dups xs)).

Definition countUniqueEventTypes (evs : list event) : R :=
  set_size (map event_type evs).

(** A counting object: [counts[k] = (counts[k] || 0) + 1], for keys
    that are not property names of [Object.prototype] (numbers, single
    characters; for event types see [calculateEventTypeDiversity]).
    Keys are kept in first-insertion order. *)
Fixpoint bump {K} `{EqDecision K} (k : K) (counts : list (K * nat))
  : list (K * nat) :=
  match counts with
  | [] => [(k, 1%nat)]
  | (k', c) :: t =>
      if decide (k = k') then (k', S c) :: t else (k', c) :: bump k t
  end.

Definition tally {K} `{EqDecision K} (keys : list K) : list (K * nat) :=
  fold_left (fun counts k => bump k counts) keys [].

(** [Object.values(counts)]. JavaScript lists integer-like keys
    first, in ascending order; over the real numbers the order plays
    no role in [calculateEntropy] (see [calculateEntropy_Permutation]). *)
Definition Object_values {K} (counts : list (K * nat)) : list R :=
  map (fun kc => INR (snd kc)) counts.

Definition log2 (x : R) : R := ln x / ln 2.

Definition calculateEntropy (values : list R) : R :=
  let total := sum values in
  if Req_dec_T total 0 then 0
  else
    fold_left
      (fun entropy count =>
         let p := count / total in
         if Rlt_dec 0 p then entropy - p * log2 p else entropy)
      values 0.

(** The property names that a plain object inherits from
    [Object.prototype]. *)
Definition inherited : list string :=
  ["constructor"; "__defineGetter__"; "__defineSetter__"; "hasOwnProperty";
   "__lookupGetter__"; "__lookupSetter__"; "isPrototypeOf";
   "propertyIsEnumerable"; "toString"; "valueOf"; "__proto__";
   "toLocaleString"].

(** The event types that [typeCounts] files: an assignment to
    [typeCounts["__proto__"]] of a value that is no object stores
    nothing. *)
Definition filed_types (evs : list event) : list string :=
  List.filter (fun t => negb (String.eqb t "__proto__")) (map event_type evs).

(** [typeCounts] is a plain object.  Under an event type that names
    an inherited function, [(typeCounts[t] || 0) + 1] is a text, the
    text of the function followed by "1"; the total that
    [calculateEntropy] adds up is then a text as well, every quotient
    [count / total] is NaN, no term is added and the entropy is 0. *)
Definition calculateEventTypeDiversity (evs : list event) : R :=
  if (length evs =? 0)%nat then 0
  else
    let types := filed_types evs in
    if existsb (fun t => bool_decide (t ∈ inherited)) types then 0
    else calculateEntropy (Object_values (tally types)).

(** [e.port] is truthy: present and not zero. *)
Definition truthy_number (x : option Z) : option Z :=
  match x with
  | Some v => if (v =? 0)%Z then None else Some v
  | None => None
  end.

Definition ports_of (evs : list event) : list Z :=
  omap (fun e => truthy_number (port e)) evs.

Definition calculatePortEntropy (evs : list event) : R :=
  let ports := ports_of evs in
  if (length ports =? 0)%nat then 0
  else calculateEntropy (Object_values (tally ports)).

Definition geos_of (evs : list event) : list string :=
  omap (fun e =>
          if truthy_string (geo_location e) then geo_location e else None) evs.

Definition highRiskCountries : list string := ["RU"; "CN"; "KP"; "IR"].

Definition calculateGeoRiskScore (evs : list event) : R :=
  let geoEvents := geos_of evs in
  if (length geoEvents =? 0)%nat then 0
  else
    let highRiskCount :=
      length (List.filter (fun g => bool_decide (g ∈ highRiskCountries)) geoEvents) in
    INR highRiskCount / INR (length geoEvents) * 100.

Definition countUniqueGeolocations (evs : list event) : R :=
  set_size (geos_of evs).

Definition countUniquePorts (evs : list event) : R :=
  set_size (ports_of evs).

Definition payloads_of (evs : list event) : list R :=
  map IZR (omap (fun e => truthy_number (payload_size e)) evs).

Definition calculateAvgPayloadSize (evs : list event) : R :=
  let payloads := payloads_of evs in
  if (length payloads =? 0)%nat then 0
  else sum payloads / INR (length payloads).

Definition calculatePayloadVariance (evs : list event) : R :=
  let payloads := payloads_of evs in
  if (length payloads <? 2)%nat then 0
  else
    let mean := calculateAvgPayloadSize evs in
    let squaredDiffs := map (fun p => (p - mean) ^ 2) payloads in
    sum squaredDiffs / INR (length payloads).

Definition calculateZScore (value : R) : R := (value - 50) / 20.

Definition blacklistedValues : list string :=
  ["192.168.1.100"; "malicious-c2.com"; "10.0.0.50"].

(** [metadata.reputation] is used when it is truthy (present and not
    zero); a metadata text that does not parse counts as absent. *)
Definition calculateBlacklistScore (i : indicator) : R :=
  if bool_decide (ind_value i ∈ blacklistedValues) then 90
  else
    match ind_metadata i with
    | Some md =>
        match md_reputation md with
        | Some r => if Qeq_bool r 0 then 0 else 100 - Q2R r
        | None => 0
        end
    | None => 0
    end.

(** A byte [10xxxxxx] of a UTF-8 text continues the code point
    before it. *)
Definition continuation (c : Ascii.ascii) : bool :=
  (128 <=? Ascii.N_of_ascii c)%N && (Ascii.N_of_ascii c <? 192)%N.

(** The text goes on inside a code point. *)
Definition continues (t : string) : bool :=
  match t with
  | String c _ => continuation c
  | EmptyString => false
  end.

(** [for (const char of s)]: the code points of the text, each one as
    the bytes that encode it. *)
Fixpoint chars_of (s : string) : list string :=
  match s with
  | EmptyString => []
  | String c t =>
      match chars_of t with
      | g :: gs =>
          if continues t then String c g :: gs
          else String c EmptyString :: g :: gs
      | [] => [String c EmptyString]
      end
  end.

Definition calculateDNSEntropy (i : indicator) (evs : list event) : R :=
  if negb (String.eqb (ind_type i) "domain") then 0
  else
    let dnsEvents :=
      List.filter (fun e => String.eqb (event_type e) "dns_query") evs in
    if (length dnsEvents =? 0)%nat then 0
    else calculateEntropy (Object_values (tally (chars_of (ind_value i)))).

(** The body of the [try] block of [extractFeatures]: it rejects when
    a query fails, and throws a [TypeError] on [indicator.confidence]
    when no indicator row was found. *)
Definition extractFeatures_body (d : db) (now : Z) (indicatorId : string)
  : promise (option features) :=
  evs ← getIndicatorEvents d indicatorId;
  ind ← getIndicator d indicatorId;
  match ind with
  | None => Rejected "TypeError"
  | Some i =>
      Resolved (Some {|
        event_frequency := calculateEventFrequency evs;
        time_between_events := calculateTimeBetweenEvents evs;
        event_rate_per_minute := calculateEventRate now evs 60;
        event_rate_per_hour := calculateEventRate now evs 3600;
        unique_event_types := countUniqueEventTypes evs;
        event_type_diversity := calculateEventTypeDiversity evs;
        port_scan_entropy := calculatePortEntropy evs;
        geo_risk_score := calculateGeoRiskScore evs;
        unique_geolocations := countUniqueGeolocations evs;
        unique_ports := countUniquePorts evs;
        avg_payload_size := calculateAvgPayloadSize evs;
        payload_variance := calculatePayloadVariance evs;
        event_count_zscore := calculateZScore (INR (length evs));
        confidence_score := Q2R (ind_confidence i);
        blacklist_score := calculateBlacklistScore i;
        dns_entropy := calculateDNSEntropy i evs
      |})
  end.

(** [extractFeatures]: the feature record, or [null] ([None]) from the
    [catch] clause.  The promise it returns never rejects. *)
Definition extractFeatures (d : db) (now : Z) (indicatorId : string)
  : option features :=
  catch (extractFeatures_body d now indicatorId) None.

(** [createFeatureVector]: the normalised features in the order in
    which the object lists them ([Object.values] in the ML engine), or
    [null] when [extractFeatures] answered [null]. *)
Definition normalize (f : features) : list R :=
  [ Rmin (event_frequency f / 1000) 1;
    Rmin (event_rate_per_minute f / 100) 1;
    Rmin (unique_event_types f / 10) 1;
    Rmin (event_type_diversity f / 5) 1;
    Rmin (port_scan_entropy f / 10) 1;
    geo_risk_score f / 100;
    blacklist_score f / 100;
    Rmin (dns_entropy f / 5) 1;
    Rmin (payload_variance f / 1000000) 1;
    1 / (1 + time_between_events f) ].

Definition createFeatureVector (d : db) (now : Z) (indicatorId : string)
  : option (list R) :=
  normalize <$> extractFeatures d now indicatorId.

(** [a] does not come before [b] in the order of the timestamp texts. *)
Definition not_before (a b : event) : Prop :=
  String.leb (timestamp_text b) (timestamp_text a) = true.

(** In descending order of the timestamp texts. *)
Definition descending (l : list event) : Prop := StronglySorted not_before l.

(** What one count adds to the entropy. *)
Definition term (total count : R) : R :=
  if Rlt_dec 0 (count / total)
  then - (count / total * log2 (count / total)) else 0.

(** The record computed for an indicator without events. *)
Definition baseline (i : indicator) : features :=
  {| event_frequency := 0; time_between_events := 0;
     event_rate_per_minute := 0; event_rate_per_hour := 0;
     unique_event_types := 0; event_type_diversity := 0;
     port_scan_entropy := 0; geo_risk_score := 0;
     unique_geolocations := 0; unique_ports := 0;
     avg_payload_size := 0; payload_variance := 0;
     event_count_zscore := (0 - 50) / 20;
     confidence_score := Q2R (ind_confidence i);
     blacklist_score := calculateBlacklistScore i;
     dns_entropy := 0 |}.

End Features.

(** ** Rule engine ([services/rules.js]) *)

Module Rules.
Import Js Storage Features.

(** A predicate over (features, events).  [None] is a call that throws. *)
Definition predicate : Type := features -> list event -> option bool.

(** A rule object.  [id], [name] and [condition] may be missing from an
    object handed to [addRule], hence the options; [score] is a number,
    of either sign. *)
Record rule := {
  id : option string;
  name : option string;
  severity : string;
  score : Z;
  condition : option predicate
}.

Definition Rgtb (x y : R) : bool := if Rgt_dec x y then true else false.
Definition Rgeb (x y : R) : bool := if Rge_dec x y then true else false.
Definition Rltb (x y : R) : bool := if Rlt_dec x y then true else false.

Definition has_type (t : string) (e : event) : bool := String.eqb (event_type e) t.

Definition mk (i n sev : string) (points : Z) (c : features -> list event -> bool)
  : rule :=
  {| id := Some i; name := Some n; severity := sev; score := points;
     condition := Some (fun f evs => Some (c f evs)) |}.

Definition initializeRules : list rule := [
  mk "brute_force_ssh" "SSH Brute Force Detection" "high" 30
    (fun f evs =>
       let sshEvents :=
         List.filter (fun e => has_type "failed_login" e
                               && bool_decide (port e = Some 22)) evs in
       let recentAttempts := fold_left (fun s e => s + frequency e) sshEvents 0 in
       200 <? recentAttempts);
  mk "port_scan_detection" "Port Scan Detection" "medium" 25
    (fun f evs => Rgeb (unique_ports f) 20 && Rgtb (port_scan_entropy f) 3);
  mk "c2_communication" "Command and Control Communication" "critical" 40
    (fun f evs =>
       let c2Events := List.filter (has_type "c2_communication") evs in
       (0 <? length c2Events)%nat
       || (Rgtb (dns_entropy f) 4 && Rgtb (event_frequency f) 50));
  mk "multi_vector_attack" "Multi-Vector Attack" "critical" 35
    (fun f evs => Rgeb (unique_event_types f) 3);
  mk "data_exfiltration" "Data Exfiltration" "critical" 45
    (fun f evs =>
       let exfilEvents := List.filter (has_type "data_exfiltration") evs in
       (0 <? length exfilEvents)%nat || Rgtb (avg_payload_size f) 10000000);
  mk "geo_anomaly" "Geographic Anomaly" "medium" 20
    (fun f evs => Rgtb (geo_risk_score f) 70 || Rgtb (unique_geolocations f) 10);
  mk "rapid_succession" "Rapid Event Succession" "medium" 22
    (fun f evs => Rltb (time_between_events f) 2 && Rgtb (event_frequency f) 100);
  mk "blacklist_match" "Blacklist Match" "high" 35
    (fun f evs => Rgtb (blacklist_score f) 50);
  mk "privilege_escalation" "Privilege Escalation Attempt" "high" 38
    (fun f evs =>
       let privEscEvents :=
         List.filter (fun e => has_type "privilege_escalation" e
                               || has_type "script_execution" e) evs in
       (0 <? length privEscEvents)%nat);
  mk "dns_tunneling" "DNS Tunneling" "high" 33
    (fun f evs =>
       let dnsEvents := List.filter (has_type "dns_query") evs in
       (100 <? length dnsEvents)%nat && Rgtb (dns_entropy f) (45 / 10));
  mk "scanning_activity" "Network Scanning Activity" "medium" 20
    (fun f evs =>
       let scanEvents := List.filter (has_type "port_scan") evs in
       (10 <? length scanEvents)%nat);
  mk "malware_detection" "Malware Detected" "critical" 50
    (fun f evs => existsb (has_type "malware_detected") evs)
].

(** An entry of [matchedRules]. *)
Record matched := {
  m_id : option string;
  m_name : option string;
  m_severity : string;
  m_score : Z
}.

Record evaluation := {
  ev_score : Z;
  matchedRules : list matched;
  explanation : list string;
  ruleCount : option nat
}.

(** [rule.condition(features, events)] inside its own [try]: a call
    that throws, or a missing [condition], leaves the rule unmatched. *)
Definition fires (r : rule) (f : features) (evs : list event) : bool :=
  match condition r with
  | Some c => default false (c f evs)
  | None => false
  end.

Definition explain (r : rule) : string :=
  default "undefined" (name r) +:+ " (" +:+ severity r +:+ ", +"
    +:+ pretty (score r) +:+ ")".

Definition matched_of (r : rule) : matched :=
  {| m_id := id r; m_name := name r; m_severity := severity r;
     m_score := score r |}.

(** One turn of [for (const rule of this.rules)], on the accumulators
    (totalScore, matchedRules, explanation). *)
Definition step (f : features) (evs : list event)
    (acc : Z * list matched * list string) (r : rule)
  : Z * list matched * list string :=
  let '(totalScore, matchedRules, explanation) := acc in
  if fires r f evs then
    (totalScore + score r, matchedRules ++ [matched_of r],
     explanation ++ [explain r])
  else acc.

Definition no_match : evaluation :=
  {| ev_score := 0; matchedRules := []; explanation := []; ruleCount := None |}.

(** The evaluation once features and events are at hand. *)
Definition evaluate (rules : list rule) (f : features) (evs : list event)
  : evaluation :=
  let '(totalScore, matchedRules, explanation) :=
    fold_left (step f evs) rules (0, [], []) in
  let normalizedScore := Z.min totalScore 100 in
  {| ev_score := normalizedScore; matchedRules := matchedRules;
     explanation := explanation; ruleCount := Some (length matchedRules) |}.

(** [SELECT * FROM events WHERE indicator_id = ? ...], as in the
    feature extractor. *)
Definition getIndicatorEvents := Features.getIndicatorEvents.

(** [evaluateRules(indicatorId)] for the registry [rules]. *)
Definition evaluateRules (rules : list rule) (d : db) (now : Z)
    (indicatorId : string) : evaluation :=
  catch
    (let features := extractFeatures d now indicatorId in
     evs ← getIndicatorEvents d indicatorId;
     match features with
     | None => Resolved no_match
     | Some f => Resolved (evaluate rules f evs)
     end)
    no_match.

Definition getRule (rules : list rule) (ruleId : string) : option rule :=
  List.find (fun r => bool_decide (id r = Some ruleId)) rules.

Definition getAllRules (rules : list rule) : list matched := map matched_of rules.

(** [addRule(rule)]: throws on an object lacking [id], [name] or
    [condition]; otherwise pushes it and returns it.  The result is
    the returned rule with the registry after the call. *)
Definition addRule (r : rule) (rules : list rule) : promise (rule * list rule) :=
  if negb (truthy_string (id r)) || negb (truthy_string (name r))
     || negb (bool_decide (is_Some (condition r)))
  then Rejected "Invalid rule: must have id, name, and condition"
  else Resolved (r, rules ++ [r]).

(** [findIndex] with the position; [None] is -1. *)
Fixpoint findIndex {A} (p : A -> bool) (l : list A) : option nat :=
  match l with
  | [] => None
  | x :: t => if p x then Some 0%nat else S <$> findIndex p t
  end.

(** [removeRule(ruleId)]: splices out the first rule with that id. *)
Definition removeRule (ruleId : string) (rules : list rule) : bool * list rule :=
  match findIndex (fun r => bool_decide (id r = Some ruleId)) rules with
  | Some index => (true, delete index rules)
  | None => (false, rules)
  end.

(** The rules that match, in registration order, and the total of
    the point values of a list of rules. *)
Definition fired (rules : list rule) (f : features) (evs : list event) : list rule :=
  List.filter (fun r => fires r f evs) rules.

Definition points (rules : list rule) : Z :=
  fold_right (fun r acc => score r + acc) 0 rules.

(** The total of the point values listed in [matchedRules]. *)
Definition awarded (ms : list matched) : Z :=
  fold_right (fun m acc => m_score m + acc) 0 ms.

(** The predicate of [r] throws on this input, or is missing. *)
Definition throws (r : rule) (f : features) (evs : list event) : Prop :=
  match condition r with
  | Some c => c f evs = None
  | None => True
  end.

(** A rule object that [addRule] lets through. *)
Definition well_formed (r : rule) : bool :=
  truthy_string (id r) && truthy_string (name r)
  && bool_decide (is_Some (condition r)).

End Rules.

(** ** Indicator ingestion ([services/ingestion.js]) *)

Module Ingestion.
Import Js Storage.

Record normalizedEvent := {
  ne_indicator_type : string;
  ne_indicator_value : string;
  ne_event_type : string;
  ne_timestamp : string;
  ne_source : string;
  ne_metadata : option metadata
}.

(** [normalizedEvent.metadata?.confidence || 0.5], the value bound to
    the statement: a missing confidence and the number zero are
    replaced by one half; a numeric text is not empty, hence truthy,
    and is bound as the text it is. *)
Definition bound_confidence (ev : normalizedEvent) : confidence :=
  match ne_metadata ev with
  | Some md =>
      match md_confidence md with
      | Some (Number c) => if Qeq_bool c 0 then Number (1 # 2) else Number c
      | Some (NumericText c) => NumericText c
      | None => Number (1 # 2)
      end
  | None => Number (1 # 2)
  end.

(** The number that the REAL column keeps of a value stored in it. *)
Definition number_of (c : confidence) : Q :=
  match c with
  | Number q => q
  | NumericText q => q
  end.

Definition incoming_confidence (ev : normalizedEvent) : Q :=
  number_of (bound_confidence ev).

(** [MAX(confidence, ?)]: SQLite compares the stored number with the
    bound value without converting it, and every text is greater than
    every number. *)
Definition sql_max (stored : Q) (incoming : confidence) : Q :=
  match incoming with
  | Number q => Qmax stored q
  | NumericText q => q
  end.

Definition same_indicator (ev : normalizedEvent) (i : indicator) : bool :=
  String.eqb (ind_value i) (ne_indicator_value ev)
  && String.eqb (ind_type i) (ne_indicator_type ev).

(** [UPDATE indicators SET last_seen = ?, confidence = MAX(confidence, ?),
    metadata = ? WHERE id = ?] on one row. *)
Definition update_row (rowId now : string) (ev : normalizedEvent) (i : indicator)
  : indicator :=
  if String.eqb (ind_id i) rowId then
    {| ind_id := ind_id i; ind_type := ind_type i; ind_value := ind_value i;
       ind_source := ind_source i;
       ind_confidence := sql_max (ind_confidence i) (bound_confidence ev);
       ind_first_seen := ind_first_seen i; ind_last_seen := now;
       ind_metadata := ne_metadata ev |}
  else i.

Definition new_row (indicatorId now : string) (ev : normalizedEvent) : indicator :=
  {| ind_id := indicatorId; ind_type := ne_indicator_type ev;
     ind_value := ne_indicator_value ev; ind_source := ne_source ev;
     ind_confidence := incoming_confidence ev;
     ind_first_seen := now; ind_last_seen := now;
     ind_metadata := ne_metadata ev |}.

(** [storeIndicator(normalizedEvent)], given the identifier drawn by
    [uuidv4()] and the current time.  [id] is the primary key of the
    table: an INSERT of a key already present fails. *)
Definition storeIndicator (indicatorId now : string) (ev : normalizedEvent) (d : db)
  : promise string * db :=
  if negb (available d) then (Rejected storage_error, d)
  else
    match List.find (same_indicator ev) (indicators d) with
    | Some row =>
        (Resolved (ind_id row),
         set_indicators d (map (update_row (ind_id row) now ev) (indicators d)))
    | None =>
        if existsb (fun i => String.eqb (ind_id i) indicatorId) (indicators d)
        then (Rejected "SQLITE_CONSTRAINT", d)
        else (Resolved indicatorId,
              set_indicators d (indicators d ++ [new_row indicatorId now ev]))
    end.

End Ingestion.

(** ** Graph engine ([services/graph.js]) *)

Module Graph.
Import Js Storage.

(** An entry of an adjacency list: [{ target, type, weight }]. *)
Record neighbor := {
  target : string;
  type : string;
  weight : Q
}.

(** The engine instance: [graph] maps a node id to its adjacency
    list; [nodes] is the [Map] from id to node row, in insertion order
    (each row is filed under its own [node_id]); [edges] is the array
    of edge rows. *)
Record engine := {
  graph : gmap string (list neighbor);
  nodes : list graph_node;
  edges : list graph_edge
}.

Definition empty : engine := {| graph := ∅; nodes := []; edges := [] |}.

(** [this.nodes.set(row.id, row)]: an existing key keeps its place. *)
Fixpoint nodes_set (row : graph_node) (l : list graph_node) : list graph_node :=
  match l with
  | [] => [row]
  | n :: t =>
      if String.eqb (node_id n) (node_id row) then row :: t
      else n :: nodes_set row t
  end.

(** [Array.from(this.nodes.keys())]. *)
Definition nodeIds (g : engine) : list string := map node_id (nodes g).

(** [this.graph.get(id) || []]. *)
Definition neighbors_of (gr : gmap string (list neighbor)) (i : string)
  : list neighbor :=
  default [] (gr !! i).

(** [if (!this.graph.has(id)) this.graph.set(id, [])]. *)
Definition ensure_key (i : string) (gr : gmap string (list neighbor))
  : gmap string (list neighbor) :=
  match gr !! i with
  | Some _ => gr
  | None => <[i := []]> gr
  end.

(** [this.graph.get(source).push(n)], after [ensure_key]. *)
Definition push_neighbor (source : string) (n : neighbor)
    (gr : gmap string (list neighbor)) : gmap string (list neighbor) :=
  <[source := neighbors_of gr source ++ [n]]> gr.

(** *** Metrics over the in-memory graph *)

(** [pagerank[id]] for a key that is present; the engine only reads
    ranks of node ids, which all have one.  [pagerank] is a plain
    object: the map stands for it on keys other than ["__proto__"],
    under which an assignment stores nothing. *)
Definition rank_of (pagerank : gmap string Q) (i : string) : Q :=
  default 0%Q (pagerank !! i).

Definition of_nat (n : nat) : Q := inject_Z (Z.of_nat n).

(** The inner [nodeIds.forEach(otherId => ...)] of one PageRank
    iteration: the rank flowing into [nodeId]. *)
Definition inflow (gr : gmap string (list neighbor)) (ids : list string)
    (pagerank : gmap string Q) (nodeId : string) : Q :=
  fold_left
    (fun sum otherId =>
       let neighbors := neighbors_of gr otherId in
       match List.find (fun n => String.eqb (target n) nodeId) neighbors with
       | Some _ =>
           let outDegree := length neighbors in
           if (0 <? outDegree)%nat
           then (sum + rank_of pagerank otherId / of_nat outDegree)%Q
           else sum
       | None => sum
       end)
    ids 0%Q.

(** One turn of [for (let iter = 0; ...)]: fill [newPagerank], then
    [Object.assign(pagerank, newPagerank)]. *)
Definition pagerank_iteration (gr : gmap string (list neighbor))
    (ids : list string) (dampingFactor : Q) (pagerank : gmap string Q)
  : gmap string Q :=
  let numNodes := of_nat (length ids) in
  let newPagerank :=
    fold_left
      (fun np nodeId =>
         <[nodeId := ((1 - dampingFactor) / numNodes
                      + dampingFactor * inflow gr ids pagerank nodeId)%Q]> np)
      ids (∅ : gmap string Q) in
  newPagerank ∪ pagerank.

Definition initial_pagerank (ids : list string) : gmap string Q :=
  fold_left (fun pr i => <[i := (1 / of_nat (length ids))%Q]> pr) ids
    (∅ : gmap string Q).

Definition pagerank_on (gr : gmap string (list neighbor)) (ids : list string)
    (iterations : nat) (dampingFactor : Q) : gmap string Q :=
  if (length ids =? 0)%nat then ∅
  else Nat.iter iterations (pagerank_iteration gr ids dampingFactor)
         (initial_pagerank ids).

(** What [otherId] adds to the sum computed for [nodeId]. *)
Definition contribution (gr : gmap string (list neighbor))
    (pagerank : gmap string Q) (nodeId otherId : string) : Q :=
  let neighbors := neighbors_of gr otherId in
  match List.find (fun n => String.eqb (target n) nodeId) neighbors with
  | Some _ =>
      if (0 <? length neighbors)%nat
      then (rank_of pagerank otherId / of_nat (length neighbors))%Q
      else 0%Q
  | None => 0%Q
  end.

Definition calculatePageRank (g : engine) (iterations : nat) (dampingFactor : Q)
  : gmap string Q :=
  pagerank_on (graph g) (nodeIds g) iterations dampingFactor.

Definition default_iterations : nat := 20.
Definition default_damping : Q := 85 # 100.

(** The sum of [f] over a list. *)
Definition Qsum {A} (f : A -> Q) (l : list A) : Q :=
  fold_right (fun i acc => (f i + acc)%Q) 0%Q l.

(** The total of the PageRank values of the snapshot's nodes. *)
Definition total_rank (ids : list string) (pagerank : gmap string Q) : Q :=
  Qsum (rank_of pagerank) ids.

(** Every node has an outgoing edge, no two edges of a node share
    their target, and every target is a node. *)
Definition forwards (gr : gmap string (list neighbor)) (ids : list string) : Prop :=
  Forall
    (fun u =>
       let targets := map target (neighbors_of gr u) in
       targets <> [] /\ NoDup targets /\ Forall (fun v => v ∈ ids) targets)
    ids.

Definition calculateCentrality (g : engine) : gmap string Q :=
  let ids := nodeIds g in
  let maxDegree := (Z.of_nat (length ids) - 1)%Z in
  fold_left
    (fun centrality nodeId =>
       let neighbors := neighbors_of (graph g) nodeId in
       <[nodeId := if (0 <? maxDegree)%Z
                   then (of_nat (length neighbors) / inject_Z maxDegree)%Q
                   else 0%Q]> centrality)
    ids (∅ : gmap string Q).

Definition calculateClusterDensity (g : engine) (nodeId : string) : Q :=
  let neighbors := neighbors_of (graph g) nodeId in
  if (length neighbors <? 2)%nat then 0%Q
  else
    let neighborIds := map target neighbors in
    let connections :=
      fold_left
        (fun connections n1 =>
           let n1Neighbors := neighbors_of (graph g) n1 in
           fold_left
             (fun connections n2 =>
                if negb (String.eqb n1 n2)
                   && existsb (fun n => String.eqb (target n) n2) n1Neighbors
                then S connections else connections)
             neighborIds connections)
        neighborIds 0%nat in
    let maxConnections := (length neighbors * (length neighbors - 1))%nat in
    if (0 <? maxConnections)%nat
    then (of_nat connections / of_nat maxConnections)%Q
    else 0%Q.

Record details := {
  d_pagerank : Q;
  d_centrality : Q;
  d_clusterDensity : Q;
  d_neighbors : nat
}.

(** [{ score, details }]; [None] stands for the empty object [{}]. *)
Record graph_score := {
  gs_score : Z;
  gs_details : option details
}.

Definition no_score : graph_score := {| gs_score := 0; gs_details := None |}.

(** [calculateGraphScore] once [buildGraph] has returned. *)
Definition score_snapshot (g : engine) (indicatorValue : string) : graph_score :=
  match List.find (fun n => String.eqb (entity_value n) indicatorValue) (nodes g) with
  | None => no_score
  | Some node =>
      let pagerank := calculatePageRank g default_iterations default_damping in
      let centrality := calculateCentrality g in
      let clusterDensity := calculateClusterDensity g (node_id node) in
      let pagerankWeight := (rank_of pagerank (node_id node) * 1000)%Q in
      let centralityWeight := (rank_of centrality (node_id node) * 100)%Q in
      let densityWeight := (clusterDensity * 100)%Q in
      let score :=
        ((4 # 10) * pagerankWeight + (3 # 10) * centralityWeight
         + (3 # 10) * densityWeight)%Q in
      {| gs_score := Z.min (Math_round score) 100;
         gs_details := Some {|
           d_pagerank := rank_of pagerank (node_id node);
           d_centrality := rank_of centrality (node_id node);
           d_clusterDensity := clusterDensity;
           d_neighbors := length (neighbors_of (graph g) (node_id node)) |} |}
  end.

(** *** Community detection *)

Definition heavy (n : neighbor) : bool := negb (Qle_bool (weight n) (1 # 2)).

(** The [while (queue.length > 0)] loop.  [fuel] bounds the number of
    turns; [None] is a loop cut short. *)
Fixpoint bfs (fuel : nat) (gr : gmap string (list neighbor))
    (queue : list string) (visited community : gset string)
  : option (gset string * gset string) :=
  match fuel with
  | O => None
  | S fuel =>
      match queue with
      | [] => Some (visited, community)
      | node :: queue =>
          if decide (node ∈ visited) then bfs fuel gr queue visited community
          else
            let visited := {[node]} ∪ visited in
            let community := {[node]} ∪ community in
            let pushed :=
              List.filter
                (fun n => negb (bool_decide (target n ∈ visited)) && heavy n)
                (neighbors_of gr node) in
            bfs fuel gr (queue ++ map target pushed) visited community
      end
  end.

(** One turn of [nodeIds.forEach(startNode => ...)], on the pair
    (visited, communities). *)
Definition community_step (fuel : nat) (gr : gmap string (list neighbor))
    (acc : option (gset string * list (gset string))) (startNode : string)
  : option (gset string * list (gset string)) :=
  '(visited, communities) ← acc;
  if decide (startNode ∈ visited) then Some (visited, communities)
  else
    '(visited', community) ← bfs fuel gr [startNode] visited ∅;
    Some (visited',
          if (0 <? size community)%nat then communities ++ [community]
          else communities).

Definition communities_on (fuel : nat) (gr : gmap string (list neighbor))
    (ids : list string) : option (list (gset string)) :=
  snd <$> fold_left (community_step fuel gr) ids (Some (∅, [])).

Definition detectCommunities (fuel : nat) (g : engine) : option (list (gset string)) :=
  communities_on fuel (graph g) (nodeIds g).

(** There is an edge of weight above 0.5 from [u] to [v]. *)
Definition heavy_edge (gr : gmap string (list neighbor)) (u v : string) : Prop :=
  exists n, n ∈ neighbors_of gr u /\ target n = v /\ heavy n = true.

(** [v] is reached from [s] along such edges without entering [avoid]. *)
Definition reaches (gr : gmap string (list neighbor)) (avoid : gset string)
    (s v : string) : Prop :=
  s ∉ avoid /\ rtc (fun x y => heavy_edge gr x y /\ y ∉ avoid) s v.

(** The number of adjacency entries filed under keys outside [visited]. *)
Definition pending (visited : gset string) (l : list (string * list neighbor)) : nat :=
  sum_list (map (fun kv => if bool_decide (kv.1 ∈ visited) then 0%nat
                           else length kv.2) l).

(** The number of adjacency entries of the graph; two more turns than
    this is fuel enough for every traversal. *)
Definition edge_total (gr : gmap string (list neighbor)) : nat :=
  pending ∅ (map_to_list gr).

(** [cs] lists the communities found so far and [visited] is what
    they cover: they are pairwise disjoint, and each is what its start
    node, a node of [ids], reaches without entering the earlier ones. *)
Definition charted (gr : gmap string (list neighbor)) (ids : list string)
    (visited : gset string) (cs : list (gset string)) : Prop :=
  visited = ⋃ cs
  /\ (forall i j c1 c2,
        i <> j -> cs !! i = Some c1 -> cs !! j = Some c2 -> c1 ## c2)
  /\ (forall i c,
        cs !! i = Some c ->
        exists s, s ∈ ids /\ s ∈ c
                  /\ forall v, v ∈ c <-> reaches gr (⋃ (take i cs)) s v).

(** *** Loading and updating the graph *)

(** The engine with its database, the position in the sequences of
    values that [uuidv4()] and [Math.random()] return, and the number
    of statements that have reached the storage. *)
Record world := {
  w_db : db;
  w_engine : engine;
  w_uuid : nat;
  w_random : nat;
  w_calls : nat
}.

Definition with_engine (w : world) (g : engine) : world :=
  {| w_db := w_db w; w_engine := g; w_uuid := w_uuid w; w_random := w_random w;
     w_calls := w_calls w |}.

Definition with_db (w : world) (d : db) : world :=
  {| w_db := d; w_engine := w_engine w; w_uuid := w_uuid w; w_random := w_random w;
     w_calls := w_calls w |}.

(** How an awaited call of the engine ends: its promise is settled,
    resolved or rejected, or it stays pending for ever. *)
Inductive outcome (A : Type) : Type :=
| Settled (p : promise A)
| Pending.
Arguments Settled {A} p.
Arguments Pending {A}.

(** An asynchronous method of the engine. *)
Definition action (A : Type) : Type := world -> outcome A * world.

(** [const a = await m; k a]: a rejection is thrown on, and nothing
    follows a promise that stays pending. *)
Definition andThen {A B} (m : action A) (k : A -> action B) : action B :=
  fun w =>
    match m w with
    | (Settled (Resolved a), w') => k a w'
    | (Settled (Rejected msg), w') => (Settled (Rejected msg), w')
    | (Pending, w') => (Pending, w')
    end.

Definition resolve {A} (a : A) : action A := fun w => (Settled (Resolved a), w).

(** [for (const x of xs) { await body(x) }]. *)
Fixpoint forEach {A} (xs : list A) (body : A -> action unit) : action unit :=
  match xs with
  | [] => resolve tt
  | x :: t => andThen (body x) (fun _ => forEach t body)
  end.

(** An [await] inside the [async] callback that [db.all] calls: when
    the awaited promise rejects, the callback throws, and the promise
    of the callback is dropped.  Neither [resolve] nor [reject] of the
    enclosing [new Promise] is called: it stays pending. *)
Definition dropped {A} (m : action A) : action A :=
  fun w =>
    match m w with
    | (Settled (Rejected _), w') => (Pending, w')
    | r => r
    end.

Section Engine.

(** The values returned by successive calls of [uuidv4()] and of
    [Math.random()], and for every statement that reaches the storage
    whether it comes back with an error.  A statement fails on its
    own, whatever became of the ones before it; an INSERT under a key
    that is present already is among the statements that fail. *)
Variable uuid_of : nat -> string.
Variable random_of : nat -> Q.
Variable fails : nat -> bool.

Definition uuidv4 : action string :=
  fun w =>
    (Settled (Resolved (uuid_of (w_uuid w))),
     {| w_db := w_db w; w_engine := w_engine w;
        w_uuid := S (w_uuid w); w_random := w_random w; w_calls := w_calls w |}).

Definition Math_random : action Q :=
  fun w =>
    (Settled (Resolved (random_of (w_random w))),
     {| w_db := w_db w; w_engine := w_engine w;
        w_uuid := w_uuid w; w_random := S (w_random w); w_calls := w_calls w |}).

(** The world once one more statement has reached the storage. *)
Definition counted (w : world) : world :=
  {| w_db := w_db w; w_engine := w_engine w;
     w_uuid := w_uuid w; w_random := w_random w; w_calls := S (w_calls w) |}.

(** A statement handed to the storage, with its callback
    [(err, result) => err ? reject(err) : ...].  A storage that is not
    there answers every statement with an error; one that is there
    carries the statement out unless this statement fails. *)
Definition statement {A} (f : db -> A * db) : action A :=
  fun w =>
    if negb (available (w_db w)) then (Settled (Rejected storage_error), w)
    else if fails (w_calls w) then (Settled (Rejected storage_error), counted w)
    else (Settled (Resolved (fst (f (w_db w)))),
          with_db (counted w) (snd (f (w_db w)))).

(** A SELECT and an INSERT. *)
Definition query {A} (f : db -> A) : action A := statement (fun d => (f d, d)).

Definition run (f : db -> db) : action unit := statement (fun d => (tt, f d)).

Definition loadNodesFromDB : action unit :=
  andThen (query graph_nodes) (fun rows w =>
    let g := w_engine w in
    let g' :=
      fold_left
        (fun g row =>
           {| graph := ensure_key (node_id row) (graph g);
              nodes := nodes_set row (nodes g);
              edges := edges g |})
        rows g in
    (Settled (Resolved tt), with_engine w g')).

Definition neighbor_of_edge (e : graph_edge) : neighbor :=
  {| target := target_node e; type := relation_type e; weight := edge_weight e |}.

Definition loadEdgesFromDB : action unit :=
  andThen (query graph_edges) (fun rows w =>
    let g := w_engine w in
    let gr :=
      fold_left
        (fun gr e =>
           push_neighbor (source_node e) (neighbor_of_edge e)
             (ensure_key (source_node e) gr))
        rows (graph g) in
    (Settled (Resolved tt),
     with_engine w {| graph := gr; nodes := nodes g; edges := rows |})).

Definition same_entity (value ty : string) (n : graph_node) : bool :=
  String.eqb (entity_value n) value && String.eqb (entity_type n) ty.

(** [addNode(value, type)]: the identifier is drawn first; the SELECT
    answers the first row filed for the pair, if there is one; the
    engine is updated only when the INSERT has gone through. *)
Definition addNode (value ty : string) : action string :=
  andThen uuidv4 (fun nodeId =>
  andThen (query (fun d => List.find (same_entity value ty) (graph_nodes d)))
    (fun row =>
       match row with
       | Some r => resolve (node_id r)
       | None =>
           let n := {| node_id := nodeId; entity_type := ty;
                       entity_value := value |} in
           andThen (run (fun d => set_graph_nodes d (graph_nodes d ++ [n])))
             (fun _ w =>
                let g := w_engine w in
                (Settled (Resolved nodeId),
                 with_engine w {| graph := <[nodeId := []]> (graph g);
                                  nodes := nodes_set n (nodes g);
                                  edges := edges g |}))
       end)).

(** [addEdge(sourceId, targetId, relationType, weight)]. *)
Definition addEdge (sourceId targetId relationType : string) (w8 : Q)
  : action string :=
  andThen uuidv4 (fun edgeId =>
    let e := {| edge_id := edgeId; source_node := sourceId;
                target_node := targetId; relation_type := relationType;
                edge_weight := w8 |} in
    andThen (run (fun d => set_graph_edges d (graph_edges d ++ [e])))
      (fun _ w =>
         let g := w_engine w in
         (Settled (Resolved edgeId),
          with_engine w
            {| graph := push_neighbor sourceId
                          {| target := targetId; type := relationType;
                             weight := w8 |}
                          (ensure_key sourceId (graph g));
               nodes := nodes g;
               edges := edges g ++ [e] |}))).

(** [SELECT DISTINCT i.value, i.type, e.event_type, e.timestamp FROM
    indicators i JOIN events e ON i.id = e.indicator_id ORDER BY
    e.timestamp DESC LIMIT 1000].  The rows of the join in the order
    of [ORDER BY]: the events in descending order of their timestamp
    texts (see [Features.insert_desc]), each with the indicator that
    its [indicator_id] names. *)
Definition joined (d : db) : list (string * string * string * string) :=
  flat_map
    (fun e =>
       map (fun i => (ind_value i, ind_type i, event_type e, timestamp_text e))
         (List.filter (fun i => String.eqb (ind_id i) (indicator_id e))
            (indicators d)))
    (Features.order_by_timestamp_desc (events d)).

(** DISTINCT: of equal rows the first one stays. *)
Definition distinct {A} `{EqDecision A} (l : list A) : list A :=
  fold_left (fun seen x => if decide (x ∈ seen) then seen else seen ++ [x]) l [].

Definition recent_rows (d : db) : list (string * string * string * string) :=
  take 1000 (distinct (joined d)).

(** All pairs (l[i], l[j]) with i < j, in loop order. *)
Fixpoint pairs {A} (l : list A) : list (A * A) :=
  match l with
  | [] => []
  | x :: t => map (pair x) t ++ pairs t
  end.

Definition maybe_edge (threshold : Q) (relationType : string) (w8 : Q)
    (p : graph_node * graph_node) : action unit :=
  andThen Math_random (fun r =>
    if negb (Qle_bool r threshold)
    then andThen (addEdge (node_id (fst p)) (node_id (snd p)) relationType w8)
           (fun _ => resolve tt)
    else resolve tt).

(** [createRelationshipsFromEvents()].  An error of the query is
    handed to [reject]; what follows runs inside the [async] callback,
    where a rejection of [addNode] or [addEdge] leaves the promise
    pending. *)
Definition createRelationshipsFromEvents : action unit :=
  andThen (query recent_rows) (fun rows =>
  dropped
    (andThen (forEach rows (fun row =>
                andThen (addNode (fst (fst (fst row))) (snd (fst (fst row))))
                  (fun _ => resolve tt))) (fun _ w =>
       let ipNodes :=
         List.filter (fun n => String.eqb (entity_type n) "IP") (nodes (w_engine w)) in
       let domainNodes :=
         List.filter (fun n => String.eqb (entity_type n) "domain")
           (nodes (w_engine w)) in
       andThen (forEach (pairs ipNodes)
                  (maybe_edge (7 # 10) "communicates_with" (6 # 10)))
         (fun _ =>
            forEach (list_prod (take 10 ipNodes) (take 5 domainNodes))
              (maybe_edge (6 # 10) "resolves_to" (7 # 10)))
         w))).

(** [buildGraph()]: the counts of nodes and edges; an error is
    caught and answered by zero counts. *)
Definition buildGraph : action (nat * nat) :=
  fun w =>
    match andThen loadNodesFromDB (fun _ =>
          andThen loadEdgesFromDB (fun _ =>
          createRelationshipsFromEvents)) w with
    | (Settled (Resolved _), w') =>
        (Settled
           (Resolved (length (nodes (w_engine w')), length (edges (w_engine w')))),
         w')
    | (Settled (Rejected _), w') => (Settled (Resolved (0%nat, 0%nat)), w')
    | (Pending, w') => (Pending, w')
    end.

(** [calculateGraphScore(indicatorValue)]: the score on the snapshot
    that [buildGraph] leaves; an error is caught and answered by the
    zero score. *)
Definition calculateGraphScore (indicatorValue : string) : action graph_score :=
  fun w =>
    match buildGraph w with
    | (Settled (Resolved _), w') =>
        (Settled (Resolved (score_snapshot (w_engine w') indicatorValue)), w')
    | (Settled (Rejected _), w') => (Settled (Resolved no_score), w')
    | (Pending, w') => (Pending, w')
    end.

(** From [w] on the storage answers: it is there, and no statement
    that reaches it fails. *)
Definition answering (w : world) : Prop :=
  available (w_db w) = true
  /\ forall n, (w_calls w <= n)%nat -> fails n = false.

(** [w] is a state reached from [w0] with the storage answering: the
    [edges] array holds the rows of [graph_edges], and the two graph
    tables have only gained rows at their end. *)
Definition in_step (w0 w : world) : Prop :=
  answering w
  /\ edges (w_engine w) = graph_edges (w_db w)
  /\ graph_edges (w_db w0) `prefix_of` graph_edges (w_db w)
  /\ graph_nodes (w_db w0) `prefix_of` graph_nodes (w_db w)
  /\ indicators (w_db w) = indicators (w_db w0)
  /\ events (w_db w) = events (w_db w0).

End Engine.

(** How many rows of [graph_nodes] carry the pair (type, value). *)
Definition entity_count (value ty : string) (d : db) : nat :=
  length (List.filter (same_entity value ty) (graph_nodes d)).

End Graph.

(** ** ML scorer ([engines/mlEngine.js]) *)

Module ML.
Local Open Scope float_scope.
#[local] Set Warnings "-inexact-float".

(** [features[i] > t]; a missing entry is [undefined], and every
    comparison with [undefined] is false. *)
Definition gt (features : list float) (i : nat) (t : float) : bool :=
  match features !! i with
  | Some v => PrimFloat.ltb t v
  | None => false
  end.

Definition ge (features : list float) (i : nat) (t : float) : bool :=
  match features !! i with
  | Some v => PrimFloat.leb t v
  | None => false
  end.

(** [Math.min] of two numbers. *)
Definition Math_min (a b : float) : float :=
  if PrimFloat.is_nan a || PrimFloat.is_nan b then nan
  else if PrimFloat.ltb a b then a else b.

(** [Math.round]: the nearest integer, ties towards positive
    infinity, computed exactly on the binary expansion. *)
Definition Math_round (x : float) : float :=
  match Prim2SF x with
  | S754_finite s m e =>
      if (0 <=? e)%Z then x
      else
        let twice := if s then Z.neg (2 * m) else Z.pos (2 * m) in
        let n := Z.shiftr (twice + 2 ^ (- e))%Z (1 - e) in
        if (n <? 0)%Z then - PrimFloat.of_uint63 (Uint63.of_Z (- n))
        else if s then - PrimFloat.of_uint63 (Uint63.of_Z n)
        else PrimFloat.of_uint63 (Uint63.of_Z n)
  | _ => x
  end.

(** [x += w] under [if (c)]. *)
Definition add_if (c : bool) (w x : float) : float := if c then x + w else x.

(** [IsolationForest.predict]: the value of [anomalyScore] when the
    nine tests are through, and what is returned, [Math.min] of it
    and 1. *)
Definition anomalyScore (features : list float) : float :=
  let anomalyScore := 0 in
  let anomalyScore := add_if (gt features 0 0.7) 0.3 anomalyScore in
  let anomalyScore := add_if (gt features 1 0.6) 0.25 anomalyScore in
  let anomalyScore := add_if (gt features 2 0.5) 0.2 anomalyScore in
  let anomalyScore :=
    add_if (gt features 3 0.6 || gt features 4 0.6) 0.25 anomalyScore in
  let anomalyScore := add_if (gt features 5 0.7) 0.3 anomalyScore in
  let anomalyScore := add_if (gt features 6 0.5) 0.4 anomalyScore in
  let anomalyScore := add_if (gt features 7 0.7) 0.3 anomalyScore in
  let anomalyScore := add_if (gt features 8 0.6) 0.2 anomalyScore in
  let anomalyScore := add_if (gt features 9 0.8) 0.25 anomalyScore in
  anomalyScore.

Definition predict (features : list float) : float :=
  Math_min (anomalyScore features) 1.

(** One tree of the forest: [if (c) { maliciousScore += v; weight += 1 }]. *)
Definition tree (c : bool) (v : float) (acc : float * float) : float * float :=
  if c then (fst acc + v, snd acc + 1) else acc.

(** [RandomForestClassifier.predictProba]. *)
Definition predictProba (features : list float) : float :=
  let acc := (0, 0) in
  let acc := tree (gt features 6 0.4) 0.8 acc in
  let acc := tree (gt features 0 0.5 && gt features 1 0.5) 0.7 acc in
  let acc := tree (gt features 5 0.6 && ge features 2 0.3) 0.75 acc in
  let acc := tree (gt features 4 0.5 || gt features 7 0.6) 0.65 acc in
  let acc := tree (gt features 3 0.4 && gt features 1 0.4) 0.7 acc in
  let acc := tree (gt features 9 0.7) 0.6 acc in
  let acc := tree (gt features 8 0.5) 0.55 acc in
  let acc := tree (gt features 6 0.3 && gt features 5 0.5) 0.85 acc in
  let acc :=
    tree (gt features 0 0.6 && (gt features 3 0.5 || gt features 4 0.5)) 0.75 acc in
  let '(maliciousScore, weight) := acc in
  if PrimFloat.eqb weight 0 then 0
  else Math_min (maliciousScore / weight) 1.

Record anomaly := {
  a_score : float;
  isAnomaly : bool;
  a_confidence : option float
}.

Record classification := {
  malicious_probability : float;
  label : string;
  c_confidence : option float
}.

(** [detectAnomaly], given what [createFeatureVector] returned
    ([None] for [null]). *)
Definition detectAnomaly (featureVector : option (list float)) : anomaly :=
  match featureVector with
  | None => {| a_score := 0; isAnomaly := false; a_confidence := None |}
  | Some features =>
      let anomalyScore := predict features in
      {| a_score := anomalyScore;
         isAnomaly := PrimFloat.ltb 0.6 anomalyScore;
         a_confidence := Some anomalyScore |}
  end.

(** [classifyThreat], likewise. *)
Definition classifyThreat (featureVector : option (list float)) : classification :=
  match featureVector with
  | None =>
      {| malicious_probability := 0; label := "benign"; c_confidence := None |}
  | Some features =>
      let probability := predictProba features in
      {| malicious_probability := probability;
         label := if PrimFloat.ltb 0.5 probability then "malicious" else "benign";
         c_confidence := Some (PrimFloat.abs (probability - 0.5) * 2) |}
  end.

Record ml_score := {
  ml_value : float;
  ml_anomaly : anomaly;
  ml_classification : classification
}.

(** [calculateMLScore].  The two estimators each fetch the feature
    vector for themselves, hence the two arguments. *)
Definition calculateMLScore (forAnomaly forClassification : option (list float))
  : ml_score :=
  let anomalyResult := detectAnomaly forAnomaly in
  let classificationResult := classifyThreat forClassification in
  let combinedScore :=
    (malicious_probability classificationResult * 0.6
     + a_score anomalyResult * 0.4) * 100 in
  {| ml_value := Math_round combinedScore;
     ml_anomaly := anomalyResult;
     ml_classification := classificationResult |}.

(** *** Exhaustive checks *)

(** A test holds for both outcomes of a comparison, and for all the
    outcomes of nine of them. *)
Definition both (F : bool -> bool) : bool := F true && F false.

Definition all9
    (F : bool -> bool -> bool -> bool -> bool -> bool -> bool -> bool -> bool -> bool)
  : bool :=
  both (fun b1 => both (fun b2 => both (fun b3 => both (fun b4 => both (fun b5 =>
  both (fun b6 => both (fun b7 => both (fun b8 => both (fun b9 =>
    F b1 b2 b3 b4 b5 b6 b7 b8 b9))))))))).

(** The integer that a non-negative double holds, when it holds one. *)
Definition integer_of (v : float) : Z :=
  match Prim2SF v with
  | S754_finite false m e =>
      if (0 <=? e)%Z then (Z.pos m * 2 ^ e)%Z else Z.shiftr (Z.pos m) (- e)
  | _ => 0%Z
  end.

(** [v] is one of the integers from [lo] to [hi]. *)
Definition integer_in (lo hi : Z) (v : float) : bool :=
  let n := integer_of v in
  (lo <=? n)%Z && (n <=? hi)%Z
  && PrimFloat.Leibniz.eqb v (PrimFloat.of_uint63 (Uint63.of_Z n)).

End ML.

(** ** Normalizer ([services/normalizer.js])

    Strings are sequences of bytes (UTF-8).  Every character that the
    normalizer tests for is an ASCII character, so a character outside
    ASCII fails each test here as it does in JavaScript. *)
Module Normalizer.
Import Js.

(** *** Regular expressions *)

(** The expressions of the three classifiers use character classes,
    sequence, alternation and bounded or unbounded repetition, and are
    anchored at both ends: [test] asks whether the whole string belongs
    to the language. *)
Inductive regex :=
| Never
| Empty
| Class (p : ascii -> bool)
| Seq (r s : regex)
| Alt (r s : regex)
| Star (r : regex).

(** [r{n}], [r{0,n}], [r{n,m}], [r{n,}] and [r?]. *)
Fixpoint times (n : nat) (r : regex) : regex :=
  match n with
  | O => Empty
  | S n => Seq r (times n r)
  end.

Fixpoint upto (n : nat) (r : regex) : regex :=
  match n with
  | O => Empty
  | S n => Alt Empty (Seq r (upto n r))
  end.

Definition between (n m : nat) (r : regex) : regex :=
  Seq (times n r) (upto (m - n) r).

Definition atleast (n : nat) (r : regex) : regex := Seq (times n r) (Star r).

Definition optional (r : regex) : regex := Alt Empty r.

(** Matching by derivatives. *)
Fixpoint nullable (r : regex) : bool :=
  match r with
  | Never => false
  | Empty => true
  | Class _ => false
  | Seq r s => nullable r && nullable s
  | Alt r s => nullable r || nullable s
  | Star _ => true
  end.

Fixpoint derive (c : ascii) (r : regex) : regex :=
  match r with
  | Never => Never
  | Empty => Never
  | Class p => if p c then Empty else Never
  | Seq r s =>
      if nullable r then Alt (Seq (derive c r) s) (derive c s)
      else Seq (derive c r) s
  | Alt r s => Alt (derive c r) (derive c s)
  | Star r => Seq (derive c r) (Star r)
  end.

Fixpoint accepts (r : regex) (l : list ascii) : bool :=
  match l with
  | [] => nullable r
  | c :: l => accepts (derive c r) l
  end.

(** The language of an expression. *)
Inductive matches : regex -> list ascii -> Prop :=
| matches_empty : matches Empty []
| matches_class p c : p c = true -> matches (Class p) [c]
| matches_seq r s x y : matches r x -> matches s y -> matches (Seq r s) (x ++ y)
| matches_alt_l r s x : matches r x -> matches (Alt r s) x
| matches_alt_r r s x : matches s x -> matches (Alt r s) x
| matches_star_nil r : matches (Star r) []
| matches_star_cons r x y :
    matches r x -> matches (Star r) y -> matches (Star r) (x ++ y).

(** [regex.test(value)]: an absent value is tested as the text
    "undefined". *)
Definition test (r : regex) (value : option string) : bool :=
  accepts r (String.list_ascii_of_string (default "undefined" value)).

(** [[a-b]] *)
Definition range (a b : ascii) (c : ascii) : bool := Ascii.leb a c && Ascii.leb c b.

Definition exactly (a : ascii) (c : ascii) : bool := Ascii.eqb a c.

(** [\d], [[0-9a-fA-F]], [[a-zA-Z]], [[a-zA-Z0-9]], [[a-zA-Z0-9-]]. *)
Definition digit : ascii -> bool := range "0" "9".

Definition hex (c : ascii) : bool :=
  range "0" "9" c || range "a" "f" c || range "A" "F" c.

Definition letter (c : ascii) : bool := range "a" "z" c || range "A" "Z" c.

Definition alnum (c : ascii) : bool := letter c || range "0" "9" c.

Definition alnum_hyphen (c : ascii) : bool := alnum c || exactly "-" c.

(** [/^(\d{1,3}\.){3}\d{1,3}$/] *)
Definition ipv4Regex : regex :=
  Seq (times 3 (Seq (between 1 3 (Class digit)) (Class (exactly "."))))
    (between 1 3 (Class digit)).

(** [/^([0-9a-fA-F]{1,4}:){7}[0-9a-fA-F]{1,4}$/] *)
Definition ipv6Regex : regex :=
  Seq (times 7 (Seq (between 1 4 (Class hex)) (Class (exactly ":"))))
    (between 1 4 (Class hex)).

(** [/^[a-zA-Z0-9][a-zA-Z0-9-]{0,61}[a-zA-Z0-9]?\.[a-zA-Z]{2,}$/] *)
Definition domainRegex : regex :=
  Seq (Class alnum)
    (Seq (between 0 61 (Class alnum_hyphen))
       (Seq (optional (Class alnum))
          (Seq (Class (exactly ".")) (atleast 2 (Class letter))))).

(** [/^[a-fA-F0-9]{32}$|^[a-fA-F0-9]{40}$|^[a-fA-F0-9]{64}$/] *)
Definition hashRegex : regex :=
  Alt (times 32 (Class hex)) (Alt (times 40 (Class hex)) (times 64 (Class hex))).

Definition isIPAddress (value : option string) : bool :=
  test ipv4Regex value || test ipv6Regex value.

Definition isDomain (value : option string) : bool := test domainRegex value.

Definition isHash (value : option string) : bool := test hashRegex value.

(** *** The indicator of a raw event *)

(** A raw event, as far as the indicator is read from it.  A property
    holds a string or is absent. *)
Record rawEvent := {
  raw_indicator_type : option string;
  raw_indicator_value : option string;
  raw_value : option string;
  raw_ip : option string;
  raw_domain : option string;
  raw_hash : option string;
  raw_user : option string;
  raw_username : option string;
  raw_file : option string
}.

Definition detectIndicatorType (event : rawEvent) : string :=
  if truthy_string (raw_indicator_type event)
  then default "" (raw_indicator_type event)
  else if truthy_string (raw_ip event) || isIPAddress (raw_value event) then "IP"
  else if truthy_string (raw_domain event) || isDomain (raw_value event) then "domain"
  else if truthy_string (raw_hash event) || isHash (raw_value event) then "hash"
  else if truthy_string (raw_user event) || truthy_string (raw_username event)
  then "user"
  else if truthy_string (raw_file event) then "file"
  else "unknown".

(** [x || rest] for a string-valued property [x]. *)
Definition or_else (x : option string) (rest : string) : string :=
  if truthy_string x then default "" x else rest.

Definition extractIndicatorValue (event : rawEvent) : string :=
  or_else (raw_indicator_value event)
    (or_else (raw_value event)
       (or_else (raw_ip event)
          (or_else (raw_domain event)
             (or_else (raw_hash event)
                (or_else (raw_user event)
                   (or_else (raw_username event)
                      (or_else (raw_file event) "unknown"))))))).

(** *** Event types *)

Definition eventTypeMap : list (string * string) :=
  [("failed_login", "failed_login");
   ("login_failure", "failed_login");
   ("authentication_failure", "failed_login");
   ("successful_login", "successful_login");
   ("login_success", "successful_login");
   ("port_scan", "port_scan");
   ("scan", "port_scan");
   ("dns_query", "dns_query");
   ("dns", "dns_query");
   ("http_request", "http_request");
   ("web_request", "http_request");
   ("file_download", "file_download");
   ("download", "file_download");
   ("malware_detected", "malware_detected");
   ("virus", "malware_detected");
   ("data_exfiltration", "data_exfiltration");
   ("exfil", "data_exfiltration");
   ("c2_communication", "c2_communication");
   ("command_control", "c2_communication");
   ("privilege_escalation", "privilege_escalation");
   ("script_execution", "script_execution")].

(** What a property access on [eventTypeMap] can yield: the text
    stored under an own key, or what the object literal inherits from
    [Object.prototype]. *)
Inductive property :=
| Text (s : string)
| ObjectConstructor
| ObjectPrototype.

Fixpoint own (key : string) (entries : list (string * string)) : option string :=
  match entries with
  | [] => None
  | (k, v) :: entries => if String.eqb k key then Some v else own key entries
  end.

(** [eventTypeMap[key]] for a lower-case key: [None] is [undefined].
    Of the names that [Object.prototype] defines, only "constructor"
    and "__proto__" are in lower case. *)
Definition get_property (key : string) : option property :=
  match own key eventTypeMap with
  | Some v => Some (Text v)
  | None =>
      if String.eqb key "constructor" then Some ObjectConstructor
      else if String.eqb key "__proto__" then Some ObjectPrototype
      else None
  end.

(** [toLowerCase] on the letters A to Z.  JavaScript also maps
    letters outside ASCII; the only one that it maps to an ASCII letter
    is the Kelvin sign, to "k", which occurs in no key of the map. *)
Definition lower (c : ascii) : ascii :=
  if range "A" "Z" c then ascii_of_nat (nat_of_ascii c + 32) else c.

Fixpoint toLowerCase (s : string) : string :=
  match s with
  | EmptyString => EmptyString
  | String c s => String (lower c) (toLowerCase s)
  end.

(** [normalizeEventType(type)] for a type that is a string or absent:
    [eventTypeMap[type?.toLowerCase()] || type || 'unknown']. *)
Definition normalizeEventType (type : option string) : property :=
  match type with
  | None => Text "unknown"
  | Some t =>
      match get_property (toLowerCase t) with
      | Some (Text v) => if truthy_string (Some v) then Text v
                         else if truthy_string (Some t) then Text t
                         else Text "unknown"
      | Some inherited => inherited
      | None => if truthy_string (Some t) then Text t else Text "unknown"
      end
  end.

(** *** Counting the characters of a matched string *)

Definition occurrences (q : ascii -> bool) (l : list ascii) : nat :=
  length (List.filter q l).

Definition dots : list ascii -> nat := occurrences (exactly ".").

Definition colons : list ascii -> nat := occurrences (exactly ":").

Definition all_chars : list ascii := map ascii_of_nat (seq 0 256).

(** No character of the class [p] is counted by [q]; every one is. *)
Definition never_in (p q : ascii -> bool) : bool :=
  forallb (fun c => negb (p c && q c)) all_chars.

Definition always_in (p q : ascii -> bool) : bool :=
  forallb (fun c => implb (p c) (q c)) all_chars.

(** Bounds on the number of characters counted by [q] in a string
    of the language of [r]; [None] is no upper bound. *)
Fixpoint least (q : ascii -> bool) (r : regex) : nat :=
  match r with
  | Never => 0
  | Empty => 0
  | Class p => if always_in p q then 1 else 0
  | Seq r s => least q r + least q s
  | Alt r s => Nat.min (least q r) (least q s)
  | Star _ => 0
  end.

Fixpoint most (q : ascii -> bool) (r : regex) : option nat :=
  match r with
  | Never => Some 0%nat
  | Empty => Some 0%nat
  | Class p => if never_in p q then Some 0%nat else Some 1%nat
  | Seq r s =>
      match most q r, most q s with
      | Some a, Some b => Some (a + b)%nat
      | _, _ => None
      end
  | Alt r s =>
      match most q r, most q s with
      | Some a, Some b => Some (Nat.max a b)
      | _, _ => None
      end
  | Star r =>
      match most q r with
      | Some O => Some 0%nat
      | _ => None
      end
  end.

End Normalizer.

(** ** Sample inputs *)

Module Samples.
Import Js Storage Features Rules.

(** The features of an indicator without events (see
    [Features.extractFeatures]). *)
Definition quiet_features : features :=
  {| event_frequency := 0; time_between_events := 0;
     event_rate_per_minute := 0; event_rate_per_hour := 0;
     unique_event_types := 0; event_type_diversity := 0;
     port_scan_entropy := 0; geo_risk_score := 0;
     unique_geolocations := 0; unique_ports := 0;
     avg_payload_size := 0; payload_variance := 0;
     event_count_zscore := (0 - 50) / 20; confidence_score := Q2R (8 # 10);
     blacklist_score := 0; dns_entropy := 0 |}%R.

(** A custom rule that lowers the score of trusted sources. *)
Definition trusted_source : rule :=
  {| id := Some "trusted_source"; name := Some "Trusted Source Discount";
     severity := "low"; score := -10;
     condition := Some (fun _ _ => Some true) |}.

(** A second rule filed under the identifier of a default rule. *)
Definition second_brute_force : rule :=
  {| id := Some "brute_force_ssh"; name := Some "SSH Brute Force (strict)";
     severity := "high"; score := 60;
     condition := Some (fun _ evs => Some (0 <? length evs)%nat) |}.

(** A rule whose predicate always throws. *)
Definition broken_rule : rule :=
  {| id := Some "broken"; name := Some "Broken"; severity := "low"; score := 99;
     condition := Some (fun _ _ => None) |}.

Definition malware_event : event :=
  {| event_type := "malware_detected";
     timestamp_text := "2024-01-01T00:00:00.000Z"; timestamp := 1704067200000;
     frequency := 1;
     port := None; geo_location := None; payload_size := None;
     indicator_id := "i-1" |}.

Definition uuid_of (n : nat) : string := "uuid-" +:+ pretty n.

(** A database that answers, with one indicator and no event. *)
Definition lone_indicator : indicator :=
  {| ind_id := "i-1"; ind_type := "IP"; ind_value := "203.0.113.9";
     ind_source := "feed"; ind_confidence := 8 # 10;
     ind_first_seen := "2024-01-01T00:00:00.000Z";
     ind_last_seen := "2024-01-01T00:00:00.000Z";
     ind_metadata := None |}.

Definition quiet_db : db :=
  {| available := true; indicators := [lone_indicator]; events := [];
     graph_nodes := []; graph_edges := [] |}.

(** The same database when the storage does not answer. *)
Definition down_db : db :=
  {| available := false; indicators := [lone_indicator]; events := [];
     graph_nodes := []; graph_edges := [] |}.

(** A second sighting of the indicator, reported with confidence 0.3. *)
Definition second_sighting : Ingestion.normalizedEvent :=
  {| Ingestion.ne_indicator_type := "IP";
     Ingestion.ne_indicator_value := "203.0.113.9";
     Ingestion.ne_event_type := "port_scan";
     Ingestion.ne_timestamp := "2024-01-02T00:00:00.000Z";
     Ingestion.ne_source := "sensor";
     Ingestion.ne_metadata :=
       Some {| md_confidence := Some (Number (3 # 10)); md_reputation := None |} |}.

(** The same sighting reporting its confidence as the text "0.1". *)
Definition text_sighting : Ingestion.normalizedEvent :=
  {| Ingestion.ne_indicator_type := "IP";
     Ingestion.ne_indicator_value := "203.0.113.9";
     Ingestion.ne_event_type := "port_scan";
     Ingestion.ne_timestamp := "2024-01-02T00:00:00.000Z";
     Ingestion.ne_source := "sensor";
     Ingestion.ne_metadata :=
       Some {| md_confidence := Some (NumericText (1 # 10));
               md_reputation := None |} |}.

Definition node (i v : string) : graph_node :=
  {| node_id := i; entity_type := "IP"; entity_value := v |}.

Definition link (i s t : string) (w8 : Q) : graph_edge :=
  {| edge_id := i; source_node := s; target_node := t;
     relation_type := "communicates_with"; edge_weight := w8 |}.

Definition adjacent (e : graph_edge) : Graph.neighbor := Graph.neighbor_of_edge e.

(** Two IP nodes and the single edge between them: the engine after
    two [addNode] and one [addEdge] (see [one_edge_built]). *)
Definition one_edge : Graph.engine :=
  {| Graph.graph :=
       {[ "uuid-0" := [adjacent (link "uuid-2" "uuid-0" "uuid-1" (6 # 10))];
          "uuid-1" := [] ]};
     Graph.nodes := [node "uuid-0" "198.51.100.1"; node "uuid-1" "198.51.100.2"];
     Graph.edges := [link "uuid-2" "uuid-0" "uuid-1" (6 # 10)] |}.

(** Three nodes on the cycle a -> b -> c -> a. *)
Definition triangle : Graph.engine :=
  {| Graph.graph := {[ "a" := [adjacent (link "e1" "a" "b" (6 # 10))];
                       "b" := [adjacent (link "e2" "b" "c" (6 # 10))];
                       "c" := [adjacent (link "e3" "c" "a" (4 # 10))] ]};
     Graph.nodes := [node "a" "198.51.100.1"; node "b" "198.51.100.2";
                     node "c" "198.51.100.3"];
     Graph.edges := [link "e1" "a" "b" (6 # 10); link "e2" "b" "c" (6 # 10);
                     link "e3" "c" "a" (4 # 10)] |}.

(** The database behind [one_edge]: the two indicators, one event
    each, the two node rows and the edge row. *)
Definition sighting (i text : string) (t : Z) : event :=
  {| event_type := "port_scan"; timestamp_text := text; timestamp := t;
     frequency := 1; port := Some 443;
     geo_location := None; payload_size := None; indicator_id := i |}.

Definition ip_indicator (i v : string) : indicator :=
  {| ind_id := i; ind_type := "IP"; ind_value := v; ind_source := "feed";
     ind_confidence := 1 # 2;
     ind_first_seen := "2024-01-01T00:00:00.000Z";
     ind_last_seen := "2024-01-01T00:00:00.000Z";
     ind_metadata := None |}.

Definition linked_db : db :=
  {| available := true;
     indicators := [ip_indicator "i-1" "198.51.100.1"; ip_indicator "i-2" "198.51.100.2"];
     events := [sighting "i-1" "2024-01-01T00:00:00.000Z" 1704067200000;
                sighting "i-2" "2024-01-01T00:01:00.000Z" 1704067260000];
     graph_nodes := [node "uuid-0" "198.51.100.1"; node "uuid-1" "198.51.100.2"];
     graph_edges := [link "uuid-2" "uuid-0" "uuid-1" (6 # 10)] |}.

(** A database whose first indicator has three events: two with the
    same timestamp text, and one of the year 10000, whose text starts
    with "+" and is the smallest of the three. *)
Definition archive_db : db :=
  {| available := true;
     indicators := [ip_indicator "i-1" "198.51.100.1"; ip_indicator "i-2" "198.51.100.2"];
     events := [sighting "i-1" "2024-01-01T00:00:00.000Z" 1704067200000;
                sighting "i-1" "+010000-01-01T00:00:00.000Z" 253402300800000;
                sighting "i-2" "2024-01-01T00:01:00.000Z" 1704067260000;
                malware_event];
     graph_nodes := []; graph_edges := [] |}.

(** Two indicators whose events carry the same timestamp text, and
    no graph row yet. *)
Definition unbuilt_db : db :=
  {| available := true;
     indicators := [ip_indicator "i-1" "198.51.100.1"; ip_indicator "i-2" "198.51.100.2"];
     events := [sighting "i-1" "2024-01-01T00:00:00.000Z" 1704067200000;
                sighting "i-2" "2024-01-01T00:00:00.000Z" 1704067200000];
     graph_nodes := []; graph_edges := [] |}.

Definition unbuilt_world : Graph.world :=
  {| Graph.w_db := unbuilt_db; Graph.w_engine := Graph.empty;
     Graph.w_uuid := 0; Graph.w_random := 0; Graph.w_calls := 0 |}.

(** A storage that answers every statement. *)
Definition no_failure : nat -> bool := fun _ => false.

Definition restarted_world : Graph.world :=
  {| Graph.w_db := linked_db; Graph.w_engine := Graph.empty;
     Graph.w_uuid := 3; Graph.w_random := 0; Graph.w_calls := 0 |}.

Definition fresh_world : Graph.world :=
  {| Graph.w_db := quiet_db; Graph.w_engine := Graph.empty;
     Graph.w_uuid := 0; Graph.w_random := 0; Graph.w_calls := 0 |}.

(** The engine that has already loaded [linked_db] once. *)
Definition warm_world : Graph.world :=
  {| Graph.w_db := linked_db; Graph.w_engine := one_edge;
     Graph.w_uuid := 3; Graph.w_random := 0; Graph.w_calls := 0 |}.

(** The same engine when the storage has stopped answering. *)
Definition cut_off_world : Graph.world :=
  {| Graph.w_db := down_db; Graph.w_engine := one_edge;
     Graph.w_uuid := 3; Graph.w_random := 0; Graph.w_calls := 0 |}.

(** The first two events of [simulateThreatFeed], as far as the
    indicator is read from them. *)
Definition no_indicator : Normalizer.rawEvent :=
  {| Normalizer.raw_indicator_type := None; Normalizer.raw_indicator_value := None;
     Normalizer.raw_value := None; Normalizer.raw_ip := None;
     Normalizer.raw_domain := None; Normalizer.raw_hash := None;
     Normalizer.raw_user := None; Normalizer.raw_username := None;
     Normalizer.raw_file := None |}.

Definition failed_login_event : Normalizer.rawEvent :=
  {| Normalizer.raw_indicator_type := None; Normalizer.raw_indicator_value := None;
     Normalizer.raw_value := None; Normalizer.raw_ip := Some "192.168.1.100";
     Normalizer.raw_domain := None; Normalizer.raw_hash := None;
     Normalizer.raw_user := None; Normalizer.raw_username := None;
     Normalizer.raw_file := None |}.

End Samples.

(** * Properties *)

(** ** Rule engine *)

Section RuleEngine.
Import Js Storage Features Rules.

Lemma evaluation_loop rules f evs total ms ex :
  fold_left (step f evs) rules (total, ms, ex)
  = (total + points (fired rules f evs),
     ms ++ map matched_of (fired rules f evs),
     ex ++ map explain (fired rules f evs)).
Proof.
  revert total ms ex.
  induction rules as [|r rules IH]; intros total ms ex; simpl.
  - by rewrite Z.add_0_r, !app_nil_r.
  - unfold fired in *. simpl. destruct (fires r f evs); simpl.
    + rewrite IH, <- !app_assoc, Z.add_assoc. done.
    + apply IH.
Qed.

(** The score is the total of the matched rules' points, capped at
    100, and the matched rules come in registration order. *)
Lemma evaluate_spec rules f evs :
  ev_score (evaluate rules f evs) = Z.min (points (fired rules f evs)) 100
  /\ matchedRules (evaluate rules f evs) = map matched_of (fired rules f evs)
  /\ explanation (evaluate rules f evs) = map explain (fired rules f evs).
Proof.
  unfold evaluate. rewrite evaluation_loop. simpl. done.
Qed.

Lemma points_nonneg rules :
  Forall (fun r => 0 <= score r) rules -> 0 <= points rules.
Proof.
  induction 1 as [|r rules Hr _ IH]; simpl; lia.
Qed.

Lemma evaluate_range rules f evs :
  Forall (fun r => 0 <= score r) rules ->
  0 <= ev_score (evaluate rules f evs) <= 100.
Proof.
  intros Hpos. destruct (evaluate_spec rules f evs) as [-> _].
  assert (0 <= points (fired rules f evs)); [|lia].
  apply points_nonneg. unfold fired.
  rewrite Forall_forall in *. intros r Hr.
  apply Hpos. rewrite list_elem_of_In in *. apply filter_In in Hr. tauto.
Qed.

Ltac decide_reals :=
  unfold Rgeb, Rgtb, Rltb;
  repeat match goal with
    | |- context [Rge_dec ?a ?b] => destruct (Rge_dec a b); [try lra|]
    | |- context [Rgt_dec ?a ?b] => destruct (Rgt_dec a b); [try lra|]
    | |- context [Rlt_dec ?a ?b] => destruct (Rlt_dec a b); [|try lra]
    end.

(** 250 failed logins on port 22 match the first default rule,
    whatever the features. *)
Example brute_force_ssh_fires (f : features) :
  fires (hd Samples.trusted_source initializeRules) f
    [{| event_type := "failed_login";
        timestamp_text := "1970-01-01T00:00:00.000Z"; timestamp := 0;
        frequency := 250;
        port := Some 22; geo_location := None; payload_size := None;
        indicator_id := "i-1" |}]
  = true.
Proof. reflexivity. Qed.

Lemma quiet_fires_nothing :
  fired initializeRules Samples.quiet_features [] = [].
Proof.
  unfold fired, initializeRules, mk, fires, Samples.quiet_features. cbn.
  decide_reals. reflexivity.
Qed.

(** C1, on the code: a registry that holds a rule with a negative
    point value yields a score below 0.  The rule is registered through
    [addRule]; on an indicator without events none of the twelve default
    rules matches, the discount rule does, and [Math.min(totalScore, 100)]
    returns the total -10. *)
Theorem evaluate_discount_rule_negative :
  exists registry,
    addRule Samples.trusted_source initializeRules
    = Resolved (Samples.trusted_source, registry)
    /\ ev_score (evaluate registry Samples.quiet_features []) = -10
    /\ map m_id (matchedRules (evaluate registry Samples.quiet_features []))
       = [Some "trusted_source"].
Proof.
  eexists. split; [reflexivity|].
  destruct (evaluate_spec (initializeRules ++ [Samples.trusted_source])
              Samples.quiet_features []) as (-> & -> & _).
  unfold fired. rewrite List.filter_app. fold (fired initializeRules Samples.quiet_features []).
  rewrite quiet_fires_nothing. split; reflexivity.
Qed.

End RuleEngine.

Section RuleRegistry.
Import Js Storage Features Rules.

Lemma addRule_well_formed r rules :
  addRule r rules
  = if well_formed r then Resolved (r, rules ++ [r])
    else Rejected "Invalid rule: must have id, name, and condition".
Proof.
  unfold addRule, well_formed.
  destruct (truthy_string (id r)), (truthy_string (name r)),
    (bool_decide (is_Some (condition r))); reflexivity.
Qed.

Lemma findIndex_split {A} (p : A -> bool) (l : list A) n :
  findIndex p l = Some n ->
  exists l1 x l2,
    l = l1 ++ x :: l2 /\ length l1 = n /\ p x = true
    /\ Forall (fun y => p y = false) l1.
Proof.
  revert n. induction l as [|a l IH]; intros n; simpl; [done|].
  destruct (p a) eqn:Hpa.
  - intros [= <-]. exists [], a, l. auto.
  - destruct (findIndex p l) as [m|]; simpl; [|done].
    intros [= <-]. destruct (IH m eq_refl) as (l1 & x & l2 & -> & <- & Hx & Hl1).
    exists (a :: l1), x, l2. repeat split; auto.
Qed.

Lemma findIndex_none {A} (p : A -> bool) (l : list A) :
  findIndex p l = None <-> Forall (fun y => p y = false) l.
Proof.
  induction l as [|a l IH]; simpl.
  - split; auto.
  - destruct (p a) eqn:Hpa.
    + split; [done|]. intros H. apply Forall_cons in H as [H _]. congruence.
    + destruct (findIndex p l); simpl.
      * split; [done|]. intros H. apply Forall_cons in H as [_ H].
        apply IH in H. done.
      * split; [|done]. intros _. constructor; [done|]. by apply IH.
Qed.

Lemma delete_middle {A} (l1 : list A) x l2 :
  delete (length l1) (l1 ++ x :: l2) = l1 ++ l2.
Proof. induction l1; simpl; [done|]. by f_equal. Qed.

Lemma removeRule_found i rules :
  Some i ∈ map id rules ->
  exists l1 x l2,
    rules = l1 ++ x :: l2 /\ id x = Some i /\ Some i ∉ map id l1
    /\ removeRule i rules = (true, l1 ++ l2).
Proof.
  intros Hin. unfold removeRule.
  destruct (findIndex (fun r => bool_decide (id r = Some i)) rules) as [n|] eqn:Hfi.
  - apply findIndex_split in Hfi as (l1 & x & l2 & -> & <- & Hx & Hl1).
    exists l1, x, l2. repeat split.
    + by apply bool_decide_eq_true in Hx.
    + intros Hmem. apply list_elem_of_fmap in Hmem as (y & Hy & Hyl).
      rewrite Forall_forall in Hl1. specialize (Hl1 y Hyl).
      apply bool_decide_eq_false in Hl1. congruence.
    + by rewrite delete_middle.
  - apply findIndex_none in Hfi.
    apply list_elem_of_fmap in Hin as (y & Hy & Hyl).
    rewrite Forall_forall in Hfi. specialize (Hfi y Hyl).
    apply bool_decide_eq_false in Hfi. congruence.
Qed.

Lemma removeRule_absent i rules :
  Some i ∉ map id rules -> removeRule i rules = (false, rules).
Proof.
  intros Hnot. unfold removeRule.
  destruct (findIndex (fun r => bool_decide (id r = Some i)) rules) as [n|] eqn:Hfi;
    [|done].
  apply findIndex_split in Hfi as (l1 & x & l2 & -> & _ & Hx & _).
  apply bool_decide_eq_true in Hx. exfalso. apply Hnot.
  rewrite map_app. simpl. rewrite <- Hx. set_solver.
Qed.

(** C9, as the code has it: [addRule] appends every rule object that
    has a non-empty id, a non-empty name and a condition, also when its
    identifier is registered already, and rejects the others;
    [removeRule] takes out the first rule with the identifier and
    answers true, or answers false and leaves the registry as it is. *)
Theorem addRule_appends_removeRule_first (r : rule) (rules : list rule) :
  (well_formed r = true -> addRule r rules = Resolved (r, rules ++ [r]))
  /\ (well_formed r = false -> exists msg, addRule r rules = Rejected msg)
  /\ (forall i,
        (Some i ∈ map id rules ->
         exists l1 x l2,
           rules = l1 ++ x :: l2 /\ id x = Some i /\ Some i ∉ map id l1
           /\ removeRule i rules = (true, l1 ++ l2))
        /\ (Some i ∉ map id rules -> removeRule i rules = (false, rules))).
Proof.
  rewrite addRule_well_formed. repeat split.
  - by intros ->.
  - intros ->. eauto.
  - apply removeRule_found.
  - apply removeRule_absent.
Qed.

(** C9, as stated, fails: a rule filed under ["brute_force_ssh"], the
    identifier of the first default rule, is accepted, and the registry
    then holds two rules with that identifier. *)
Lemma addRule_accepts_registered_identifier :
  exists registry,
    id Samples.second_brute_force ∈ map id initializeRules
    /\ addRule Samples.second_brute_force initializeRules
       = Resolved (Samples.second_brute_force, registry)
    /\ length (List.filter (fun r => bool_decide (id r = Some "brute_force_ssh")) registry)
       = 2%nat
    /\ ~ NoDup (map id registry).
Proof.
  eexists. split; [|split; [reflexivity|split]].
  - simpl. set_solver.
  - reflexivity.
  - intros Hnd. simpl in Hnd. apply NoDup_cons in Hnd as [Hnotin _].
    apply Hnotin. set_solver.
Qed.

End RuleRegistry.

(** ** Indicator ingestion *)

Section IndicatorStore.
Import Js Storage Ingestion.

Lemma update_row_keeps rowId now ev i :
  ind_id (update_row rowId now ev i) = ind_id i
  /\ ind_type (update_row rowId now ev i) = ind_type i
  /\ ind_value (update_row rowId now ev i) = ind_value i.
Proof.
  unfold update_row. by destruct (String.eqb (ind_id i) rowId).
Qed.

(** A number that comes in never lowers the stored one. *)
Lemma update_row_number rowId now ev i c :
  bound_confidence ev = Number c ->
  (ind_confidence i <= ind_confidence (update_row rowId now ev i))%Q.
Proof.
  intros Hc. unfold update_row. destruct (String.eqb (ind_id i) rowId); simpl.
  - rewrite Hc. apply Q.le_max_l.
  - apply Qle_refl.
Qed.

Lemma find_in {A} (p : A -> bool) (l : list A) x :
  List.find p l = Some x -> exists k, l !! k = Some x /\ p x = true.
Proof.
  induction l as [|a l IH]; simpl; [done|].
  destruct (p a) eqn:Hpa.
  - intros [= <-]. by exists 0%nat.
  - intros H. destruct (IH H) as (k & Hk & Hp). by exists (S k).
Qed.

(** [storeIndicator] keeps every indicator row in its place with its
    identity.  When the confidence that comes in is a number, no stored
    confidence is lowered, and on a re-observation the confidence of
    the row found becomes the maximum of the stored and the incoming
    number. *)
Lemma storeIndicator_max_merge_numbers (indicatorId now : string)
    (ev : normalizedEvent) (d : db) (c : Q) :
  bound_confidence ev = Number c ->
  let d' := snd (storeIndicator indicatorId now ev d) in
  (forall k i, indicators d !! k = Some i ->
     exists i', indicators d' !! k = Some i'
       /\ ind_id i' = ind_id i /\ ind_type i' = ind_type i
       /\ ind_value i' = ind_value i
       /\ (ind_confidence i <= ind_confidence i')%Q)
  /\ (forall row,
        available d = true ->
        List.find (same_indicator ev) (indicators d) = Some row ->
        fst (storeIndicator indicatorId now ev d) = Resolved (ind_id row)
        /\ length (indicators d') = length (indicators d)
        /\ exists k row',
             indicators d !! k = Some row /\ indicators d' !! k = Some row'
             /\ ind_confidence row' = Qmax (ind_confidence row) c).
Proof.
  intros Hc. unfold storeIndicator. split.
  - intros k i Hk. destruct (available d); simpl.
    2: { exists i. repeat split; [done|apply Qle_refl]. }
    destruct (List.find (same_indicator ev) (indicators d)) as [row|]; simpl.
    + exists (update_row (ind_id row) now ev i).
      split; [by rewrite list_lookup_fmap, Hk|].
      destruct (update_row_keeps (ind_id row) now ev i) as (H1 & H2 & H3).
      split_and!; try done. by eapply update_row_number.
    + destruct (existsb _ _); simpl.
      * exists i. repeat split; [done|apply Qle_refl].
      * exists i. repeat split; [|apply Qle_refl].
        by apply lookup_app_l_Some.
  - intros row -> Hfind. rewrite Hfind. simpl.
    split; [done|]. split; [by rewrite length_map|].
    destruct (find_in _ _ _ Hfind) as (k & Hk & _).
    exists k, (update_row (ind_id row) now ev row).
    split; [done|]. split; [by rewrite list_lookup_fmap, Hk|].
    unfold update_row. rewrite String.eqb_refl. simpl. by rewrite Hc.
Qed.

(** A second sighting with confidence 0.3 of an indicator stored with
    confidence 0.8 leaves 0.8 in place. *)
Example storeIndicator_second_sighting :
  map ind_confidence
    (indicators (snd (storeIndicator "uuid-9" "2024-01-02T00:00:01.000Z"
                        Samples.second_sighting Samples.quiet_db)))
  = [8 # 10].
Proof. reflexivity. Qed.

(** C8: a sighting that reports its confidence as the text "0.1" does
    not merge by maximum.  The indicator stored with confidence 0.8 is
    found and keeps its row and its identity, but [MAX(confidence, ?)]
    answers the text, and the stored confidence goes down to 0.1. *)
Theorem storeIndicator_text_confidence_lowers :
  let d := Samples.quiet_db in
  let stored := storeIndicator "uuid-9" "2024-01-02T00:00:01.000Z"
                  Samples.text_sighting d in
  map ind_confidence (indicators d) = [8 # 10]
  /\ fst stored = Resolved "i-1"
  /\ map ind_id (indicators (snd stored)) = map ind_id (indicators d)
  /\ map ind_confidence (indicators (snd stored)) = [1 # 10]
  /\ (1 # 10 < 8 # 10)%Q
  /\ (Qmax (8 # 10) (incoming_confidence Samples.text_sighting) == 8 # 10)%Q.
Proof. vm_compute. split_and!; reflexivity. Qed.

End IndicatorStore.

(** ** Graph engine: node upsert *)

Section NodeUpsert.
Import Js Storage Graph.
Variable uuid_of : nat -> string.
Variable fails : nat -> bool.

Lemma find_app_last {A} (p : A -> bool) (l : list A) x :
  List.find p (l ++ [x])
  = match List.find p l with
    | Some y => Some y
    | None => if p x then Some x else None
    end.
Proof.
  induction l as [|a l IH]; simpl; [done|]. destruct (p a); done.
Qed.

Lemma find_none_filter {A} (p : A -> bool) (l : list A) :
  List.find p l = None -> List.filter p l = [].
Proof.
  induction l as [|a l IH]; simpl; [done|]. destruct (p a); [done|]. auto.
Qed.

Lemma same_entity_refl value ty n :
  same_entity value ty {| node_id := n; entity_type := ty; entity_value := value |}
  = true.
Proof. unfold same_entity. simpl. by rewrite !String.eqb_refl. Qed.

Lemma same_entity_eq value ty n :
  same_entity value ty n = true <-> entity_value n = value /\ entity_type n = ty.
Proof.
  unfold same_entity. rewrite andb_true_iff, !String.eqb_eq. done.
Qed.

(** C7: the identifier that [addNode] answers is the one of the row
    that the table holds for (value, type), the first one if there are
    several.  A second [addNode] with the same pair answers the same
    identifier when its SELECT is answered, and is rejected otherwise;
    in both cases it changes neither the table nor the engine.  A pair
    that had at most one row keeps at most one, and the pair just
    added has exactly one. *)
Theorem addNode_idempotent (value ty : string) (w w1 : world) (r : string) :
  addNode uuid_of fails value ty w = (Settled (Resolved r), w1) ->
  (exists n,
     List.find (same_entity value ty) (graph_nodes (w_db w1)) = Some n
     /\ node_id n = r /\ entity_value n = value /\ entity_type n = ty)
  /\ exists p w2,
       addNode uuid_of fails value ty w1 = (Settled p, w2)
       /\ (fails (w_calls w1) = false -> p = Resolved r)
       /\ (fails (w_calls w1) = true -> p = Rejected storage_error)
       /\ w_db w2 = w_db w1 /\ w_engine w2 = w_engine w1
       /\ (forall v t, (entity_count v t (w_db w) <= 1)%nat ->
                       (entity_count v t (w_db w2) <= 1)%nat)
       /\ ((entity_count value ty (w_db w) <= 1)%nat ->
           entity_count value ty (w_db w2) = 1%nat).
Proof.
  unfold addNode, andThen, uuidv4, query, run, statement, resolve, entity_count.
  cbn [w_db w_calls w_engine counted with_db with_engine fst snd negb].
  destruct (available (w_db w)) eqn:Hav; [|done]. cbn [negb].
  destruct (fails (w_calls w)) eqn:Hf1; [done|].
  destruct (List.find (same_entity value ty) (graph_nodes (w_db w)))
    as [row|] eqn:Hfind.
  - intros [= <- <-]. cbn [w_db w_calls w_engine counted with_db]. rewrite Hav. cbn [negb].
    pose proof (find_some _ _ Hfind) as [_ Hrow].
    apply same_entity_eq in Hrow as [Hv Ht].
    split; [by exists row|].
    destruct (fails (S (w_calls w))) eqn:Hf2.
    + eexists _, _. split; [reflexivity|]. cbn [w_db w_engine].
      split_and!; try done.
      intros Hle. apply find_in in Hfind as (k & Hk & Hp).
      assert (row ∈ List.filter (same_entity value ty) (graph_nodes (w_db w)))
        as Hin.
      { rewrite list_elem_of_In. apply filter_In. split; [|done].
        rewrite <- list_elem_of_In. by eapply list_elem_of_lookup_2. }
      destruct (List.filter _ _) as [|x [|y l]]; simpl in *; [set_solver|done|lia].
    + rewrite Hfind. eexists _, _. split; [reflexivity|]. cbn [w_db w_engine].
      split_and!; try done.
      intros Hle. apply find_in in Hfind as (k & Hk & Hp).
      assert (row ∈ List.filter (same_entity value ty) (graph_nodes (w_db w)))
        as Hin.
      { rewrite list_elem_of_In. apply filter_In. split; [|done].
        rewrite <- list_elem_of_In. by eapply list_elem_of_lookup_2. }
      destruct (List.filter _ _) as [|x [|y l]]; simpl in *; [set_solver|done|lia].
  - cbn [w_db w_calls w_engine counted with_db]. rewrite Hav. cbn [negb].
    destruct (fails (S (w_calls w))) eqn:Hf2; [done|].
    intros [= <- <-].
    cbn [w_db w_calls w_engine counted with_db with_engine set_graph_nodes
           graph_nodes available].
    rewrite Hav. cbn [negb]. rewrite find_app_last, Hfind, same_entity_refl.
    split; [eexists; split_and!; [reflexivity|done..]|].
    assert (forall v t : string,
              (length (List.filter (same_entity v t) (graph_nodes (w_db w))) <= 1)%nat ->
              (length
                 (List.filter (same_entity v t)
                    (graph_nodes (w_db w)
                     ++ [{| node_id := uuid_of (w_uuid w); entity_type := ty;
                            entity_value := value |}])) <= 1)%nat) as Hkeep.
    { intros v t. rewrite List.filter_app, length_app. simpl.
      destruct (same_entity v t _) eqn:Hvt; simpl; [|lia].
      apply same_entity_eq in Hvt as [<- <-]. simpl.
      rewrite (find_none_filter _ _ Hfind). simpl. lia. }
    assert (length
              (List.filter (same_entity value ty)
                 (graph_nodes (w_db w)
                  ++ [{| node_id := uuid_of (w_uuid w); entity_type := ty;
                         entity_value := value |}])) = 1%nat) as Hone.
    { rewrite List.filter_app, length_app, (find_none_filter _ _ Hfind).
      simpl. by rewrite same_entity_refl. }
    destruct (fails (S (S (w_calls w)))) eqn:Hf3.
    + eexists _, _. split; [reflexivity|].
      cbn [w_db w_engine graph_nodes]. split_and!; done.
    + eexists _, _. split; [reflexivity|].
      cbn [w_db w_engine graph_nodes]. split_and!; done.
Qed.

End NodeUpsert.

(** [Samples.one_edge] is what two [addNode] and one [addEdge] build. *)
Example one_edge_built :
  Graph.w_engine
    (snd (Graph.addEdge Samples.uuid_of Samples.no_failure
            "uuid-0" "uuid-1" "communicates_with" (6 # 10)
            (snd (Graph.addNode Samples.uuid_of Samples.no_failure "198.51.100.2" "IP"
                    (snd (Graph.addNode Samples.uuid_of Samples.no_failure
                            "198.51.100.1" "IP" Samples.fresh_world))))))
  = Samples.one_edge.
Proof. vm_compute. reflexivity. Qed.

(** A failed INSERT rejects [addNode] and files nothing. *)
Example addNode_insert_fails :
  let r := Graph.addNode Samples.uuid_of (fun n => Nat.eqb n 1) "203.0.113.9" "IP"
             Samples.fresh_world in
  fst r = Graph.Settled (Js.Rejected Storage.storage_error)
  /\ Graph.w_db (snd r) = Graph.w_db Samples.fresh_world
  /\ Graph.w_engine (snd r) = Graph.w_engine Samples.fresh_world.
Proof. vm_compute. split_and!; reflexivity. Qed.

Lemma addNode_idempotent_witness :
  let w1 := snd (Graph.addNode Samples.uuid_of Samples.no_failure "203.0.113.9" "IP"
                   Samples.fresh_world) in
  (exists n,
     List.find (Graph.same_entity "203.0.113.9" "IP")
       (Storage.graph_nodes (Graph.w_db w1)) = Some n
     /\ Storage.node_id n = "uuid-0"
     /\ Storage.entity_value n = "203.0.113.9" /\ Storage.entity_type n = "IP")
  /\ exists p w2,
       Graph.addNode Samples.uuid_of Samples.no_failure "203.0.113.9" "IP" w1
       = (Graph.Settled p, w2)
       /\ (Samples.no_failure (Graph.w_calls w1) = false -> p = Js.Resolved "uuid-0")
       /\ (Samples.no_failure (Graph.w_calls w1) = true ->
           p = Js.Rejected Storage.storage_error)
       /\ Graph.w_db w2 = Graph.w_db w1
       /\ Graph.w_engine w2 = Graph.w_engine w1
       /\ (forall v t,
             (Graph.entity_count v t (Graph.w_db Samples.fresh_world) <= 1)%nat ->
             (Graph.entity_count v t (Graph.w_db w2) <= 1)%nat)
       /\ ((Graph.entity_count "203.0.113.9" "IP" (Graph.w_db Samples.fresh_world)
            <= 1)%nat ->
           Graph.entity_count "203.0.113.9" "IP" (Graph.w_db w2) = 1%nat).
Proof.
  apply (addNode_idempotent Samples.uuid_of Samples.no_failure "203.0.113.9" "IP"
           Samples.fresh_world).
  reflexivity.
Defined.

(** ** ML scorer *)

Section MLScore.
Import ML.
Local Open Scope float_scope.
#[local] Set Warnings "-inexact-float".

(** The anomaly score lies between 0 and 1 whatever the vector: one
    case per combination of the nine tests. *)
Lemma predict_range (features : list float) :
  PrimFloat.leb 0 (predict features) = true
  /\ PrimFloat.leb (predict features) 1 = true.
Proof.
  unfold predict, anomalyScore.
  destruct (gt features 0 0.7), (gt features 1 0.6), (gt features 2 0.5),
    (gt features 3 0.6 || gt features 4 0.6), (gt features 5 0.7),
    (gt features 6 0.5), (gt features 7 0.7), (gt features 8 0.6),
    (gt features 9 0.8);
    vm_compute; split; reflexivity.
Qed.

(** The sum that [predict] clamps is not negative. *)
Lemma anomalyScore_nonneg (features : list float) :
  PrimFloat.leb 0 (anomalyScore features) = true.
Proof.
  unfold anomalyScore.
  destruct (gt features 0 0.7), (gt features 1 0.6), (gt features 2 0.5),
    (gt features 3 0.6 || gt features 4 0.6), (gt features 5 0.7),
    (gt features 6 0.5), (gt features 7 0.7), (gt features 8 0.6),
    (gt features 9 0.8);
    vm_compute; reflexivity.
Qed.

Lemma SFmul_comm prec emax x y :
  SFmul prec emax x y = SFmul prec emax y x.
Proof.
  destruct x as [sx|sx| |sx mx ex], y as [sy|sy| |sy my ey]; simpl;
    rewrite ?(xorb_comm sx sy), ?(Pos.mul_comm mx my), ?(Z.add_comm ex ey);
    reflexivity.
Qed.

(** The product of two doubles does not depend on the order of the
    factors. *)
Lemma mul_comm (x y : float) : x * y = y * x.
Proof.
  rewrite <- (FloatAxioms.SF2Prim_Prim2SF (x * y)),
    <- (FloatAxioms.SF2Prim_Prim2SF (y * x)).
  rewrite !FloatAxioms.mul_spec. unfold FloatAxioms.SF64mul. by rewrite SFmul_comm.
Qed.

(** C5: for the vector [fa] seen by the anomaly estimator and the
    vector [fc] seen by the classifier, the combined score is
    [round(100 * (0.6 * p + 0.4 * a))] for the classifier probability
    [p = predictProba fc] and the anomaly score [a = predict fa], which
    are the values reported in the result ([0] for a missing vector);
    [a] is the sum of the weights of the tests passed, which is not
    negative, clamped to 1, so that it lies in [0, 1]; and the anomaly
    flag says whether [a] exceeds 0.6. *)
Theorem calculateMLScore_combined (forAnomaly forClassification : option (list float)) :
  let r := calculateMLScore forAnomaly forClassification in
  let p := match forClassification with Some fc => predictProba fc | None => 0 end in
  let a := match forAnomaly with Some fa => predict fa | None => 0 end in
  ml_value r = Math_round (100 * (0.6 * p + 0.4 * a))
  /\ malicious_probability (ml_classification r) = p
  /\ a_score (ml_anomaly r) = a
  /\ (forall fa, forAnomaly = Some fa ->
        a = Math_min (anomalyScore fa) 1
        /\ PrimFloat.leb 0 (anomalyScore fa) = true)
  /\ PrimFloat.leb 0 a = true /\ PrimFloat.leb a 1 = true
  /\ isAnomaly (ml_anomaly r) = PrimFloat.ltb 0.6 a.
Proof.
  cbv zeta.
  assert (malicious_probability
            (ml_classification (calculateMLScore forAnomaly forClassification))
          = match forClassification with
            | Some fc => predictProba fc
            | None => 0
            end) as Hp by (by destruct forClassification).
  assert (a_score (ml_anomaly (calculateMLScore forAnomaly forClassification))
          = match forAnomaly with Some fa => predict fa | None => 0 end) as Ha
    by (by destruct forAnomaly).
  split; [|split; [done|split; [done|split; [|split; [|split]]]]].
  - rewrite <- Hp, <- Ha. unfold calculateMLScore. cbn [ml_value]. f_equal.
    rewrite (mul_comm 100), (mul_comm 0.6), (mul_comm 0.4). reflexivity.
  - intros fa ->. split; [reflexivity|apply anomalyScore_nonneg].
  - destruct forAnomaly; [apply predict_range|reflexivity].
  - destruct forAnomaly; [apply predict_range|reflexivity].
  - by destruct forAnomaly.
Qed.

(** [Math_round] at ties, at the double below one half, and away
    from the integers. *)
Example Math_round_values :
  map Math_round [2.5; 43.5; 2.4; 0.49999999999999994; -2.5; -1.5; 85.00000000000001; 7]
  = [3; 44; 2; 0; -2; -1; 85; 7].
Proof. vm_compute. reflexivity. Qed.

(** On the vector that passes only the tests on features 2 and 6 the
    double 0.2 + 0.4 exceeds the double 0.6, and the flag is set. *)
Example isAnomaly_at_threshold :
  let r := detectAnomaly (Some [0; 0; 0.6; 0; 0; 0; 0.6; 0; 0; 0]) in
  isAnomaly r = true /\ PrimFloat.ltb 0.6 (a_score r) = true.
Proof. vm_compute. split; reflexivity. Qed.

Example calculateMLScore_sample :
  let v := Some [0.9; 0.7; 0.6; 0; 0; 0; 0.6; 0; 0; 0] in
  ml_value (calculateMLScore v v) = 85.
Proof. vm_compute. reflexivity. Qed.

End MLScore.

(** ** Graph engine: a build while the storage answers *)

Section GraphRun.
Import Js Storage Graph.
Variable uuid_of : nat -> string.
Variable random_of : nat -> Q.
Variable fails : nat -> bool.

Lemma andThen_resolved {A B} (m : action A) (k : A -> action B) w a w' :
  m w = (Settled (Resolved a), w') -> andThen m k w = k a w'.
Proof. intros Hm. unfold andThen. by rewrite Hm. Qed.

Lemma dropped_resolved {A} (m : action A) w a w' :
  m w = (Settled (Resolved a), w') -> dropped m w = (Settled (Resolved a), w').
Proof. intros Hm. unfold dropped. by rewrite Hm. Qed.

Lemma answering_later w w' :
  answering fails w -> available (w_db w') = available (w_db w) ->
  (w_calls w <= w_calls w')%nat -> answering fails w'.
Proof.
  intros [Hup Hok] Hav Hle. split; [congruence|].
  intros n Hn. apply Hok. lia.
Qed.

Lemma statement_answered {A} (f : db -> A * db) w :
  answering fails w ->
  statement fails f w
  = (Settled (Resolved (fst (f (w_db w)))), with_db (counted w) (snd (f (w_db w)))).
Proof.
  intros [Hup Hok]. unfold statement. rewrite Hup. cbn [negb].
  by rewrite (Hok (w_calls w)).
Qed.

Lemma in_step_start w0 w : in_step fails w0 w -> in_step fails w w.
Proof. intros (Hup & He & _). by unfold in_step. Qed.

Lemma in_step_trans w0 w1 w2 :
  in_step fails w0 w1 -> in_step fails w1 w2 -> in_step fails w0 w2.
Proof.
  intros (_ & _ & Hpe & Hpn & Hi & Hev) (Hup & He & Hpe' & Hpn' & Hi' & Hev').
  unfold in_step. split_and!; try done.
  - by etransitivity.
  - by etransitivity.
  - congruence.
  - congruence.
Qed.

(** With the storage answering, [addNode] resolves, and a row for
    the pair is in the table afterwards. *)
Lemma addNode_files_entity w0 value ty w :
  in_step fails w0 w ->
  exists r w',
    addNode uuid_of fails value ty w = (Settled (Resolved r), w')
    /\ in_step fails w w'
    /\ exists n, n ∈ graph_nodes (w_db w') /\ same_entity value ty n = true.
Proof.
  intros Hw. pose proof (in_step_start _ _ Hw) as (Hans & He & _).
  unfold addNode, andThen at 1, uuidv4.
  set (w1 := {| w_db := w_db w; w_engine := w_engine w; w_uuid := S (w_uuid w);
                w_random := w_random w; w_calls := w_calls w |}).
  assert (answering fails w1) as Hans1 by exact Hans.
  unfold query. rewrite (andThen_resolved _ _ _ _ _ (statement_answered _ w1 Hans1)).
  cbn [fst snd w_db w1].
  assert (answering fails (with_db (counted w1) (w_db w))) as Hans2.
  { apply (answering_later w); [done|done|]. simpl. lia. }
  destruct (List.find _ _) as [r|] eqn:Hfind.
  - eexists _, _. split; [reflexivity|]. split.
    + unfold in_step. by split_and!.
    + apply List.find_some in Hfind as [Hin Hsame].
      exists r. split; [by apply list_elem_of_In|done].
  - unfold run.
    rewrite (andThen_resolved _ _ _ _ _ (statement_answered _ _ Hans2)).
    eexists _, _. split; [reflexivity|]. split.
    + unfold in_step. simpl. split_and!; try done.
      * apply (answering_later w); [done|done|]. simpl. lia.
      * by apply prefix_app_r.
    + eexists. split; [simpl; apply elem_of_app; right; by left|].
      unfold same_entity. simpl. by rewrite !String.eqb_refl.
Qed.

Lemma addNode_in_step w0 value ty w :
  in_step fails w0 w ->
  exists r w',
    addNode uuid_of fails value ty w = (Settled (Resolved r), w')
    /\ in_step fails w0 w'.
Proof.
  intros Hw. destruct (addNode_files_entity w0 value ty w Hw) as (r & w' & Hr & Hw' & _).
  exists r, w'. split; [done|]. by eapply in_step_trans.
Qed.

Lemma addEdge_in_step w0 s t rt w8 w :
  in_step fails w0 w ->
  exists r w',
    addEdge uuid_of fails s t rt w8 w = (Settled (Resolved r), w')
    /\ in_step fails w0 w'.
Proof.
  intros (Hans & He & Hpe & Hpn & Hi & Hev).
  unfold addEdge, andThen at 1, uuidv4.
  set (w1 := {| w_db := w_db w; w_engine := w_engine w; w_uuid := S (w_uuid w);
                w_random := w_random w; w_calls := w_calls w |}).
  assert (answering fails w1) as Hans1 by exact Hans.
  unfold run. rewrite (andThen_resolved _ _ _ _ _ (statement_answered _ w1 Hans1)).
  eexists _, _. split; [reflexivity|]. unfold in_step. simpl.
  split_and!; try done.
  - apply (answering_later w); [done|done|]. simpl. lia.
  - by rewrite He.
  - by apply prefix_app_r.
Qed.

Lemma maybe_edge_in_step w0 threshold rt w8 p w :
  in_step fails w0 w ->
  exists w',
    maybe_edge uuid_of random_of fails threshold rt w8 p w
    = (Settled (Resolved tt), w')
    /\ in_step fails w0 w'.
Proof.
  intros Hw. unfold maybe_edge, andThen at 1, Math_random.
  assert (in_step fails w0
            {| w_db := w_db w; w_engine := w_engine w;
               w_uuid := w_uuid w; w_random := S (w_random w);
               w_calls := w_calls w |})
    as Hw' by exact Hw.
  destruct (negb _).
  - destruct (addEdge_in_step w0 (node_id p.1) (node_id p.2) rt w8 _ Hw')
      as (r & w' & Hr & Hin).
    exists w'. split; [|done]. by rewrite (andThen_resolved _ _ _ _ _ Hr).
  - eexists. split; [reflexivity|done].
Qed.

Lemma forEach_in_step {A} w0 (xs : list A) (body : A -> action unit) :
  (forall x w, in_step fails w0 w ->
     exists w', body x w = (Settled (Resolved tt), w') /\ in_step fails w0 w') ->
  forall w, in_step fails w0 w ->
    exists w', forEach xs body w = (Settled (Resolved tt), w')
               /\ in_step fails w0 w'.
Proof.
  intros Hbody. induction xs as [|x xs IH]; intros w Hw; cbn [forEach].
  - eexists. split; [reflexivity|done].
  - destruct (Hbody x w Hw) as (w1 & H1 & Hw1).
    rewrite (andThen_resolved _ _ _ _ _ H1). by apply IH.
Qed.

Lemma forEach_addNode_covers w0 (rows : list (string * string * string * string)) w :
  in_step fails w0 w ->
  exists w',
    forEach rows
      (fun row => andThen (addNode uuid_of fails row.1.1.1 row.1.1.2)
                    (fun _ => resolve tt)) w
    = (Settled (Resolved tt), w')
    /\ in_step fails w w'
    /\ forall row, row ∈ rows ->
         exists n, n ∈ graph_nodes (w_db w')
                   /\ same_entity row.1.1.1 row.1.1.2 n = true.
Proof.
  revert w. induction rows as [|row rows IH]; intros w Hw; cbn [forEach].
  - eexists. split; [reflexivity|]. split; [by eapply in_step_start|].
    intros row Hrow. by apply elem_of_nil in Hrow.
  - destruct (addNode_files_entity w0 row.1.1.1 row.1.1.2 w Hw)
      as (r & w1 & Hr & Hw1 & n & Hn & Hsame).
    rewrite (andThen_resolved _ _ _ _ _
               (andThen_resolved _ (fun _ => resolve tt) _ _ _ Hr)).
    destruct (IH w1 (in_step_trans _ _ _ Hw Hw1)) as (w' & Hrest & Hw' & Hcover).
    exists w'. split; [done|]. split; [by eapply in_step_trans|].
    intros row' Hrow'. apply elem_of_cons in Hrow' as [->|Hrow']; [|by apply Hcover].
    exists n. split; [|done].
    destruct Hw' as (_ & _ & _ & Hpn & _).
    destruct Hpn as [more ->]. apply elem_of_app. by left.
Qed.

Lemma createRelationshipsFromEvents_covers w0 w :
  in_step fails w0 w ->
  exists w',
    createRelationshipsFromEvents uuid_of random_of fails w
    = (Settled (Resolved tt), w')
    /\ in_step fails w w'
    /\ forall row, row ∈ recent_rows (w_db w) ->
         exists n, n ∈ graph_nodes (w_db w')
                   /\ same_entity row.1.1.1 row.1.1.2 n = true.
Proof.
  intros Hw. pose proof (in_step_start _ _ Hw) as Hww.
  unfold createRelationshipsFromEvents, query.
  rewrite (andThen_resolved _ _ _ _ _ (statement_answered _ w (proj1 Hw))).
  cbn [fst snd].
  set (v := with_db (counted w) (w_db w)).
  assert (in_step fails w v) as Hv.
  { destruct Hww as (Hans & He & Hpe & Hpn & Hi & Hev).
    unfold in_step. split_and!; try done.
    apply (answering_later w); [done|done|]. simpl. lia. }
  destruct (forEach_addNode_covers w (recent_rows (w_db w)) v Hv)
    as (w1 & H1 & Hw1 & Hcover).
  pose proof (in_step_trans _ _ _ Hv Hw1) as Hw01.
  destruct (forEach_in_step w1
              (pairs (List.filter (fun n => String.eqb (entity_type n) "IP")
                        (nodes (w_engine w1))))
              (maybe_edge uuid_of random_of fails (7 # 10) "communicates_with"
                 (6 # 10)))
    with (w := w1) as (w2 & H2 & Hw2); [|by eapply in_step_start|].
  { intros p u Hu. by apply maybe_edge_in_step. }
  destruct (forEach_in_step w1
              (list_prod
                 (take 10 (List.filter (fun n => String.eqb (entity_type n) "IP")
                             (nodes (w_engine w1))))
                 (take 5 (List.filter (fun n => String.eqb (entity_type n) "domain")
                            (nodes (w_engine w1)))))
              (maybe_edge uuid_of random_of fails (6 # 10) "resolves_to" (7 # 10)))
    with (w := w2) as (w3 & H3 & Hw3); [|done|].
  { intros p u Hu. by apply maybe_edge_in_step. }
  exists w3. split.
  - apply dropped_resolved.
    rewrite (andThen_resolved _ _ _ _ _ H1). cbv zeta.
    by rewrite (andThen_resolved _ _ _ _ _ H2).
  - split; [by eapply in_step_trans|].
    intros row Hrow. destruct (Hcover row Hrow) as (n & Hn & Hsame).
    exists n. split; [|done].
    destruct Hw3 as (_ & _ & _ & Hpn & _).
    destruct Hpn as [more ->]. apply elem_of_app. by left.
Qed.

Lemma load_nodes_edges (rows : list graph_node) (g : engine) :
  edges
    (fold_left
       (fun g row =>
          {| graph := ensure_key (node_id row) (graph g);
             nodes := nodes_set row (nodes g);
             edges := edges g |})
       rows g)
  = edges g.
Proof.
  revert g. induction rows as [|row rows IH]; intros g; cbn [fold_left]; [done|].
  by rewrite IH.
Qed.

Lemma loadNodesFromDB_up w :
  answering fails w ->
  exists g', loadNodesFromDB fails w
             = (Settled (Resolved tt), with_engine (with_db (counted w) (w_db w)) g')
             /\ edges g' = edges (w_engine w).
Proof.
  intros Hans. unfold loadNodesFromDB, query.
  rewrite (andThen_resolved _ _ _ _ _ (statement_answered _ w Hans)).
  eexists. split; [reflexivity|]. apply load_nodes_edges.
Qed.

Lemma loadEdgesFromDB_up w :
  answering fails w ->
  exists g', loadEdgesFromDB fails w
             = (Settled (Resolved tt), with_engine (with_db (counted w) (w_db w)) g')
             /\ edges g' = graph_edges (w_db w).
Proof.
  intros Hans. unfold loadEdgesFromDB, query.
  rewrite (andThen_resolved _ _ _ _ _ (statement_answered _ w Hans)).
  eexists. split; reflexivity.
Qed.

(** With the storage answering from [w] on, the three steps of
    [buildGraph] resolve one after the other. *)
Lemma build_steps_answered w :
  answering fails w ->
  exists w',
    andThen (loadNodesFromDB fails) (fun _ =>
    andThen (loadEdgesFromDB fails) (fun _ =>
    createRelationshipsFromEvents uuid_of random_of fails)) w
    = (Settled (Resolved tt), w')
    /\ in_step fails w w'
    /\ forall row, row ∈ recent_rows (w_db w) ->
         exists n, n ∈ graph_nodes (w_db w')
                   /\ same_entity row.1.1.1 row.1.1.2 n = true.
Proof.
  intros Hans.
  destruct (loadNodesFromDB_up w Hans) as (g1 & H1 & _).
  rewrite (andThen_resolved _ _ _ _ _ H1).
  set (w1 := with_engine (with_db (counted w) (w_db w)) g1).
  assert (answering fails w1) as Hans1.
  { apply (answering_later w); [done|done|]. simpl. lia. }
  destruct (loadEdgesFromDB_up w1 Hans1) as (g2 & H2 & He2).
  rewrite (andThen_resolved _ _ _ _ _ H2).
  set (w2 := with_engine (with_db (counted w1) (w_db w1)) g2).
  assert (in_step fails w w2) as Hw2.
  { unfold in_step. split_and!; try done.
    apply (answering_later w); [done|done|]. simpl. lia. }
  destruct (createRelationshipsFromEvents_covers w w2 Hw2)
    as (w' & H3 & Hw' & Hcover).
  exists w'. split; [done|]. split; [exact (in_step_trans _ _ _ Hw2 Hw')|].
  exact Hcover.
Qed.

Lemma buildGraph_answered w :
  answering fails w ->
  exists w',
    buildGraph uuid_of random_of fails w
    = (Settled (Resolved (length (nodes (w_engine w')),
                          length (edges (w_engine w')))), w')
    /\ in_step fails w w'
    /\ forall row, row ∈ recent_rows (w_db w) ->
         exists n, n ∈ graph_nodes (w_db w')
                   /\ same_entity row.1.1.1 row.1.1.2 n = true.
Proof.
  intros Hans. destruct (build_steps_answered w Hans) as (w' & Hs & Hw' & Hcover).
  exists w'. unfold buildGraph. rewrite Hs. by split_and!.
Qed.

(** [buildGraph] is never rejected, and [calculateGraphScore] resolves
    exactly when [buildGraph] does, in the same state. *)
Lemma buildGraph_not_rejected w msg w' :
  buildGraph uuid_of random_of fails w <> (Settled (Rejected msg), w').
Proof.
  unfold buildGraph. destruct (andThen _ _ w) as [[[?|?]|] ?]; done.
Qed.

Lemma calculateGraphScore_cases indicatorValue w :
  (exists counts w',
     buildGraph uuid_of random_of fails w = (Settled (Resolved counts), w')
     /\ calculateGraphScore uuid_of random_of fails indicatorValue w
        = (Settled (Resolved (score_snapshot (w_engine w') indicatorValue)), w'))
  \/ (exists w',
        buildGraph uuid_of random_of fails w = (Pending, w')
        /\ calculateGraphScore uuid_of random_of fails indicatorValue w
           = (Pending, w')).
Proof.
  unfold calculateGraphScore.
  destruct (buildGraph uuid_of random_of fails w) as [[[counts|msg]|] w'] eqn:Hb.
  - left. by exists counts, w'.
  - by apply buildGraph_not_rejected in Hb.
  - right. by exists w'.
Qed.

End GraphRun.

(** ** Graph engine: the graph score *)

Section GraphScore.
Import Js Storage Graph.
Local Open Scope Q_scope.


Lemma Math_round_le x y : x <= y -> (Math_round x <= Math_round y)%Z.
Proof.
  intros Hxy. unfold Math_round. apply Qfloor_resp_le.
  by apply Qplus_le_l.
Qed.




(** A restarted engine scores the first node of [linked_db]: the
    rebuilt snapshot is [one_edge] when no random draw exceeds the
    thresholds, PageRank 3/40 and centrality 1 give 0.4*75 + 0.3*100. *)
Example calculateGraphScore_linked :
  match calculateGraphScore Samples.uuid_of (fun _ => 0) Samples.no_failure
          "198.51.100.1" Samples.restarted_world with
  | (Settled (Resolved gs), w') => (gs_score gs, w_engine w')
  | (_, w') => (-1, w_engine w')%Z
  end = (60%Z, Samples.one_edge).
Proof. vm_compute. reflexivity. Qed.

Example calculateGraphScore_unknown :
  fst (calculateGraphScore Samples.uuid_of (fun _ => 0) Samples.no_failure
         "192.0.2.77" Samples.restarted_world)
  = Settled (Resolved {| gs_score := 0; gs_details := None |}).
Proof. vm_compute. reflexivity. Qed.

Lemma find_none_no_match (indicatorValue : string) (l : list graph_node) :
  List.find (fun n => String.eqb (entity_value n) indicatorValue) l = None
  <-> Forall (fun n => entity_value n <> indicatorValue) l.
Proof.
  induction l as [|n l IH]; simpl; [split; auto|].
  destruct (String.eqb_spec (entity_value n) indicatorValue) as [Heq|Hne].
  - split; [done|]. intros H. apply Forall_cons in H as [H _]. done.
  - rewrite IH. split; [by constructor|]. intros H. by apply Forall_cons in H as [_ H].
Qed.

End GraphScore.

(** ** Graph engine: PageRank *)

Section PageRank.
Import Js Storage Graph.
Local Open Scope Q_scope.

Lemma Qsum_ext {A} (f g : A -> Q) (l : list A) :
  (forall i, i ∈ l -> f i == g i) -> Qsum f l == Qsum g l.
Proof.
  induction l as [|a l IH]; simpl; intros H; [reflexivity|].
  rewrite (H a), IH; [reflexivity| |set_solver].
  intros i Hi. apply H. set_solver.
Qed.

Lemma Qsum_plus {A} (f g : A -> Q) (l : list A) :
  Qsum (fun i => f i + g i) l == Qsum f l + Qsum g l.
Proof. induction l as [|a l IH]; simpl; [ring|]. rewrite IH. ring. Qed.

Lemma Qsum_scale {A} (c : Q) (f : A -> Q) (l : list A) :
  Qsum (fun i => c * f i) l == c * Qsum f l.
Proof. induction l as [|a l IH]; simpl; [ring|]. rewrite IH. ring. Qed.

Lemma of_nat_S n : of_nat (S n) == 1 + of_nat n.
Proof.
  unfold of_nat. rewrite Nat2Z.inj_succ, <- Z.add_1_l, inject_Z_plus. reflexivity.
Qed.

Lemma of_nat_pos n : (0 < n)%nat -> ~ of_nat n == 0.
Proof.
  intros Hn Heq. unfold of_nat, Qeq in Heq. simpl in Heq. lia.
Qed.

Lemma Qsum_const {A} (c : Q) (l : list A) :
  Qsum (fun _ => c) l == of_nat (length l) * c.
Proof.
  induction l as [|a l IH]; simpl Qsum; simpl length;
    [unfold of_nat; simpl; ring|].
  rewrite IH, of_nat_S. ring.
Qed.

Lemma Qsum_swap {A B} (c : A -> B -> Q) (us : list A) (vs : list B) :
  Qsum (fun v => Qsum (fun u => c u v) us) vs
  == Qsum (fun u => Qsum (fun v => c u v) vs) us.
Proof.
  induction vs as [|v vs IH]; simpl.
  - rewrite Qsum_const. ring.
  - rewrite IH, <- Qsum_plus. reflexivity.
Qed.

(** The sum over the members of a duplicate-free list that belong to a
    duplicate-free sublist counts the sublist. *)
Lemma Qsum_indicator (c : Q) (T ids : list string) :
  NoDup ids -> NoDup T -> Forall (fun v => v ∈ ids) T ->
  Qsum (fun v => if bool_decide (v ∈ T) then c else 0) ids
  == of_nat (length T) * c.
Proof.
  intros Hids HT Hsub.
  assert (Qsum (fun v => if bool_decide (v ∈ T) then c else 0) ids
          == of_nat (length (filter (fun v => v ∈ T) ids)) * c) as ->.
  { clear. induction ids as [|a ids IH]; simpl Qsum.
    - unfold of_nat. simpl. ring.
    - rewrite filter_cons. rewrite IH. case_bool_decide as Ha.
      + rewrite decide_True by done. simpl length. rewrite of_nat_S. ring.
      + rewrite decide_False by done. ring. }
  assert (filter (fun v => v ∈ T) ids ≡ₚ T) as ->; [|reflexivity].
  apply NoDup_Permutation; [by apply NoDup_filter|done|].
  intros x. rewrite list_elem_of_filter. rewrite Forall_forall in Hsub.
  split; [tauto|]. intros Hx. split; [done|by apply Hsub].
Qed.

Lemma find_target (v : string) (ns : list neighbor) :
  (exists n, List.find (fun n => String.eqb (target n) v) ns = Some n)
  <-> v ∈ map target ns.
Proof.
  induction ns as [|a ns IH]; simpl.
  - split; [intros [n Hn]; done|set_solver].
  - destruct (String.eqb_spec (target a) v) as [Heq|Hne].
    + split; [set_solver|eauto].
    + rewrite IH. set_solver.
Qed.

Lemma contribution_indicator gr pr v u :
  contribution gr pr v u
  = if bool_decide (v ∈ map target (neighbors_of gr u))
    then (if (0 <? length (neighbors_of gr u))%nat
          then rank_of pr u / of_nat (length (neighbors_of gr u)) else 0)
    else 0.
Proof.
  unfold contribution.
  destruct (List.find _ (neighbors_of gr u)) as [n|] eqn:Hfind.
  - rewrite bool_decide_eq_true_2; [done|]. apply find_target. eauto.
  - rewrite bool_decide_eq_false_2; [done|].
    intros Hin. apply find_target in Hin as [n Hn]. congruence.
Qed.

Lemma inflow_from gr ids pr v acc :
  fold_left
    (fun sum otherId =>
       let neighbors := neighbors_of gr otherId in
       match List.find (fun n => String.eqb (target n) v) neighbors with
       | Some _ =>
           let outDegree := length neighbors in
           if (0 <? outDegree)%nat
           then sum + rank_of pr otherId / of_nat outDegree
           else sum
       | None => sum
       end)
    ids acc
  == acc + Qsum (contribution gr pr v) ids.
Proof.
  revert acc. induction ids as [|u ids IH]; intros acc; simpl; [ring|].
  rewrite IH. unfold contribution.
  destruct (List.find _ (neighbors_of gr u)); [|ring].
  destruct (0 <? length (neighbors_of gr u))%nat; ring.
Qed.

Lemma inflow_sum gr ids pr v :
  inflow gr ids pr v == Qsum (contribution gr pr v) ids.
Proof. unfold inflow. rewrite inflow_from. ring. Qed.

(** The rank that a node with well-formed edges hands out adds up to
    its own rank. *)
Lemma contribution_total gr ids pr u :
  NoDup ids ->
  map target (neighbors_of gr u) <> [] ->
  NoDup (map target (neighbors_of gr u)) ->
  Forall (fun v => v ∈ ids) (map target (neighbors_of gr u)) ->
  Qsum (fun v => contribution gr pr v u) ids == rank_of pr u.
Proof.
  intros Hids Hne Hnd Hsub.
  rewrite (Qsum_ext _ (fun v =>
             if bool_decide (v ∈ map target (neighbors_of gr u))
             then rank_of pr u / of_nat (length (neighbors_of gr u)) else 0)).
  - rewrite Qsum_indicator by done. rewrite length_map.
    field. apply of_nat_pos. destruct (neighbors_of gr u); [done|simpl; lia].
  - intros v _. rewrite contribution_indicator.
    destruct (neighbors_of gr u); [done|]. reflexivity.
Qed.

Lemma fold_insert_lookup (F : string -> Q) (ids : list string)
    (acc : gmap string Q) (v : string) :
  fold_left (fun np i => <[i := F i]> np) ids acc !! v
  = if decide (v ∈ ids) then Some (F v) else acc !! v.
Proof.
  revert acc. induction ids as [|a ids IH]; intros acc; cbn [fold_left].
  - case_decide as H; [by apply elem_of_nil in H|done].
  - rewrite IH.
    destruct (decide (v ∈ ids)) as [H1|H1], (decide (v ∈ a :: ids)) as [H2|H2].
    + done.
    + set_solver.
    + assert (v = a) as -> by set_solver. by rewrite lookup_insert_eq.
    + rewrite lookup_insert_ne; [done|set_solver].
Qed.

Lemma rank_after_iteration gr ids d pr v :
  v ∈ ids ->
  rank_of (pagerank_iteration gr ids d pr) v
  = (1 - d) / of_nat (length ids) + d * inflow gr ids pr v.
Proof.
  intros Hv. unfold rank_of, pagerank_iteration.
  erewrite lookup_union_Some_l; [reflexivity|].
  rewrite (fold_insert_lookup
             (fun nodeId => (1 - d) / of_nat (length ids) + d * inflow gr ids pr nodeId)).
  by rewrite decide_True.
Qed.

Lemma rank_initial ids v :
  v ∈ ids -> rank_of (initial_pagerank ids) v = 1 / of_nat (length ids).
Proof.
  intros Hv. unfold rank_of, initial_pagerank.
  rewrite (fold_insert_lookup (fun _ => 1 / of_nat (length ids))).
  by rewrite decide_True.
Qed.

(** One iteration keeps a fraction [d] of the total and adds [1 - d]. *)
Lemma total_rank_iteration gr ids d pr :
  NoDup ids -> ids <> [] -> forwards gr ids ->
  total_rank ids (pagerank_iteration gr ids d pr)
  == (1 - d) + d * total_rank ids pr.
Proof.
  intros Hnd Hne Hfw. unfold total_rank.
  rewrite (Qsum_ext _ (fun v => (1 - d) / of_nat (length ids)
                                + d * Qsum (contribution gr pr v) ids)).
  2: { intros v Hv. rewrite rank_after_iteration by done.
       rewrite inflow_sum. reflexivity. }
  rewrite Qsum_plus, Qsum_const, Qsum_scale, Qsum_swap.
  rewrite (Qsum_ext _ (rank_of pr)).
  - field. apply of_nat_pos. destruct ids; [done|simpl; lia].
  - intros u Hu. unfold forwards in Hfw. rewrite Forall_forall in Hfw.
    destruct (Hfw u Hu) as (H1 & H2 & H3). by apply contribution_total.
Qed.

Lemma total_rank_initial ids :
  ids <> [] -> total_rank ids (initial_pagerank ids) == 1.
Proof.
  intros Hne. unfold total_rank.
  rewrite (Qsum_ext _ (fun _ => 1 / of_nat (length ids))).
  - rewrite Qsum_const. field. apply of_nat_pos. destruct ids; [done|simpl; lia].
  - intros v Hv. by rewrite rank_initial.
Qed.

(** C2, as the code has it: when every node has an outgoing edge, no
    two edges of a node share their target and every target is a node,
    the PageRank values sum to 1 after any number of iterations (the 20
    of the default included) and for any damping factor. *)
Theorem calculatePageRank_total (g : engine) (iterations : nat) (d : Q) :
  NoDup (nodeIds g) -> nodeIds g <> [] -> forwards (graph g) (nodeIds g) ->
  total_rank (nodeIds g) (calculatePageRank g iterations d) == 1.
Proof.
  intros Hnd Hne Hfw. unfold calculatePageRank, pagerank_on.
  destruct (nodeIds g) as [|a ids] eqn:Hids; [done|].
  simpl length. simpl Nat.eqb. cbv iota.
  induction iterations as [|n IH]; simpl Nat.iter.
  - by apply total_rank_initial.
  - rewrite total_rank_iteration by done. rewrite IH. ring.
Qed.

End PageRank.

Lemma calculatePageRank_total_witness :
  (Graph.total_rank (Graph.nodeIds Samples.triangle)
     (Graph.calculatePageRank Samples.triangle 20 (85 # 100)) == 1)%Q.
Proof.
  apply (calculatePageRank_total Samples.triangle 20 (85 # 100)).
  - apply (bool_decide_unpack _). vm_compute. reflexivity.
  - discriminate.
  - unfold Graph.forwards. cbv zeta.
    apply (bool_decide_unpack _). vm_compute. reflexivity.
Defined.

(** C2, as stated, fails: on two nodes joined by the single edge
    uuid-0 -> uuid-1 (the engine of [one_edge_built]) the twenty
    iterations end with the ranks 3/40 and 111/800, whose sum 171/800 is
    far from 1. *)
Lemma calculatePageRank_leaks :
  (Graph.total_rank (Graph.nodeIds Samples.one_edge)
     (Graph.calculatePageRank Samples.one_edge 20 (85 # 100)) == 171 # 800)%Q
  /\ (Graph.total_rank (Graph.nodeIds Samples.one_edge)
        (Graph.calculatePageRank Samples.one_edge 20 (85 # 100)) < 1 # 4)%Q.
Proof. split; vm_compute; reflexivity. Qed.

(** ** Graph engine: community detection *)

Section Communities.
Import Js Storage Graph.
Variable gr : gmap string (list neighbor).

Lemma heavy_spec (n : neighbor) : heavy n = true <-> (1 # 2 < weight n)%Q.
Proof.
  unfold heavy. rewrite negb_true_iff, <- not_true_iff_false, Qle_bool_iff.
  split; [apply Qnot_le_lt|apply Qlt_not_le].
Qed.

Lemma pending_mono (V V' : gset string) l :
  V ⊆ V' -> (pending V' l <= pending V l)%nat.
Proof.
  intros Hsub. unfold pending.
  induction l as [|kv l IH]; simpl; [done|].
  repeat case_bool_decide; try lia. set_solver.
Qed.

Lemma pending_visit (V : gset string) l node ns :
  (node, ns) ∈ l -> node ∉ V ->
  (pending ({[node]} ∪ V) l + length ns <= pending V l)%nat.
Proof.
  intros Hin Hnode. unfold pending.
  induction l as [|kv l IH]; [by apply elem_of_nil in Hin|].
  apply elem_of_cons in Hin as [<-|Hin]; simpl.
  - rewrite bool_decide_eq_true_2 by set_solver.
    rewrite bool_decide_eq_false_2 by done.
    pose proof (pending_mono V ({[node]} ∪ V) l) as Hm. unfold pending in Hm.
    specialize (Hm ltac:(set_solver)). lia.
  - specialize (IH Hin). repeat case_bool_decide; try lia. set_solver.
Qed.

Lemma pushed_length (V : gset string) node :
  (length (List.filter (fun n => negb (bool_decide (target n ∈ V)) && heavy n)
             (neighbors_of gr node))
   <= length (neighbors_of gr node))%nat.
Proof. apply List.filter_length_le. Qed.

(** Enough fuel: the loop ends. *)
Lemma bfs_terminates fuel queue (V C : gset string) :
  (length queue + pending V (map_to_list gr) < fuel)%nat ->
  exists V' C', bfs fuel gr queue V C = Some (V', C').
Proof.
  revert queue V C. induction fuel as [|fuel IH]; intros queue V C Hfuel; [lia|].
  destruct queue as [|node queue]; simpl; [eauto|].
  destruct (decide (node ∈ V)) as [Hin|Hnin].
  - apply IH. simpl in Hfuel. lia.
  - apply IH. rewrite length_app, length_map.
    pose proof (pushed_length ({[node]} ∪ V) node) as Hp.
    simpl in Hfuel. unfold neighbors_of in *.
    destruct (gr !! node) as [ns|] eqn:Hlook; simpl in *.
    + pose proof (pending_visit V (map_to_list gr) node ns) as Hv.
      rewrite elem_of_map_to_list in Hv. specialize (Hv Hlook Hnin). lia.
    + pose proof (pending_mono V ({[node]} ∪ V) (map_to_list gr)) as Hm.
      specialize (Hm ltac:(set_solver)). lia.
Qed.

(** What the loop adds: the same fresh nodes to both sets. *)
Lemma bfs_adds fuel queue (V C V' C' : gset string) :
  bfs fuel gr queue V C = Some (V', C') ->
  exists D, V' = V ∪ D /\ C' = C ∪ D /\ D ## V.
Proof.
  revert queue V C. induction fuel as [|fuel IH]; intros queue V C; simpl; [done|].
  destruct queue as [|node queue].
  - intros [= <- <-]. exists ∅. set_solver.
  - destruct (decide (node ∈ V)) as [Hin|Hnin].
    + apply IH.
    + intros H. apply IH in H as (D & -> & -> & Hd).
      exists ({[node]} ∪ D). set_solver.
Qed.

(** Completeness: the loop leaves no heavy edge from the community to
    an unvisited node, and visits its whole queue. *)
Lemma bfs_closed fuel queue (V C V' C' : gset string) :
  bfs fuel gr queue V C = Some (V', C') ->
  (forall u v, u ∈ C -> heavy_edge gr u v -> v ∈ V \/ v ∈ queue) ->
  (forall x, x ∈ queue -> x ∈ V')
  /\ (forall u v, u ∈ C' -> heavy_edge gr u v -> v ∈ V').
Proof.
  revert queue V C. induction fuel as [|fuel IH]; intros queue V C; simpl; [done|].
  destruct queue as [|node queue].
  - intros [= <- <-] Hinv. split; [set_solver|].
    intros u v Hu Huv. destruct (Hinv u v Hu Huv); set_solver.
  - destruct (decide (node ∈ V)) as [Hin|Hnin]; intros Hbfs Hinv.
    + pose proof (bfs_adds _ _ _ _ _ _ Hbfs) as (D & HV' & _ & _).
      destruct (IH _ _ _ Hbfs) as [Hq Hc].
      { intros u v Hu Huv. destruct (Hinv u v Hu Huv) as [?|Hv]; [by left|].
        apply elem_of_cons in Hv as [->|?]; auto. }
      split; [|done]. intros x Hx. apply elem_of_cons in Hx as [->|?]; [|auto].
      set_solver.
    + pose proof (bfs_adds _ _ _ _ _ _ Hbfs) as (D & HV' & _ & _).
      destruct (IH _ _ _ Hbfs) as [Hq Hc].
      { intros u v Hu Huv.
        destruct (decide (v ∈ {[node]} ∪ V)) as [?|Hv]; [by left|right].
        apply elem_of_union in Hu as [Hu|Hu].
        - apply elem_of_singleton in Hu as ->.
          destruct Huv as (n & Hn & <- & Hheavy).
          apply elem_of_app. right. apply list_elem_of_fmap. exists n. split; [done|].
          rewrite list_elem_of_In. apply filter_In. rewrite <- list_elem_of_In.
          split; [done|]. rewrite Hheavy, andb_true_r.
          by rewrite bool_decide_eq_false_2.
        - destruct (Hinv u v Hu Huv) as [?|Hq']; [set_solver|].
          apply elem_of_cons in Hq' as [->|?]; [set_solver|].
          apply elem_of_app. by left. }
      split; [|done]. intros x Hx. apply elem_of_cons in Hx as [->|?].
      * set_solver.
      * apply Hq. apply elem_of_app. by left.
Qed.

(** Soundness: whatever joins the community is reached from the start
    node without entering the nodes visited before the traversal. *)
Lemma bfs_sound (V0 : gset string) (s : string) fuel queue (V C V' C' : gset string) :
  bfs fuel gr queue V C = Some (V', C') ->
  V0 ⊆ V ->
  (forall x, x ∈ C -> rtc (fun x y => heavy_edge gr x y /\ y ∉ V0) s x) ->
  (forall x, x ∈ queue -> x = s \/ exists u, u ∈ C /\ heavy_edge gr u x) ->
  forall x, x ∈ C' -> rtc (fun x y => heavy_edge gr x y /\ y ∉ V0) s x.
Proof.
  revert queue V C. induction fuel as [|fuel IH]; intros queue V C; simpl; [done|].
  destruct queue as [|node queue].
  - intros [= <- <-] _ HC _. done.
  - destruct (decide (node ∈ V)) as [Hin|Hnin]; intros Hbfs HV0 HC Hq.
    + apply (IH _ _ _ Hbfs HV0 HC). intros x Hx. apply Hq. by right.
    + assert (rtc (fun x y => heavy_edge gr x y /\ y ∉ V0) s node) as Hnode.
      { destruct (Hq node) as [->|(u & Hu & Huv)]; [by left|done|].
        eapply rtc_r; [by apply HC|]. split; [done|set_solver]. }
      apply (IH _ _ _ Hbfs); [set_solver| |].
      * intros x Hx. apply elem_of_union in Hx as [Hx|Hx]; [|by apply HC].
        by apply elem_of_singleton in Hx as ->.
      * intros x Hx. apply elem_of_app in Hx as [Hx|Hx].
        -- destruct (Hq x) as [?|(u & Hu & Hux)]; [by right|by left|].
           right. exists u. split; [set_solver|done].
        -- apply list_elem_of_fmap in Hx as (n & -> & Hn).
           rewrite list_elem_of_In in Hn. apply filter_In in Hn as [Hn Hf].
           apply andb_true_iff in Hf as [_ Hheavy].
           right. exists node. split; [set_solver|].
           exists n. by rewrite list_elem_of_In.
Qed.

(** One traversal from an unvisited start node. *)
Lemma bfs_from_start fuel (V V' C' : gset string) (s : string) :
  bfs fuel gr [s] V ∅ = Some (V', C') -> s ∉ V ->
  V' = V ∪ C' /\ C' ## V /\ s ∈ C'
  /\ forall v, v ∈ C' <-> reaches gr V s v.
Proof.
  intros Hbfs Hs.
  destruct (bfs_adds _ _ _ _ _ _ Hbfs) as (D & -> & HC & HD).
  assert (C' = D) as -> by set_solver. clear HC.
  destruct (bfs_closed _ _ _ _ _ _ Hbfs) as [Hq Hc]; [set_solver|].
  assert (s ∈ D) as HsD.
  { specialize (Hq s ltac:(set_solver)). set_solver. }
  split; [done|]. split; [done|]. split; [done|]. intros v. split.
  - intros Hv. split; [done|].
    apply (bfs_sound V s _ _ _ _ _ _ Hbfs); [done|set_solver|set_solver|done].
  - intros [_ Hrtc]. revert v Hrtc.
    apply (rtc_ind_r (fun v => v ∈ D)); [done|].
    intros y z _ [Hyz Hz] IH. specialize (Hc y z IH Hyz). set_solver.
Qed.

Lemma charted_empty ids : charted gr ids ∅ [].
Proof. repeat split; try done. Qed.

Lemma charted_member ids V cs c x :
  charted gr ids V cs -> c ∈ cs -> x ∈ c -> x ∈ V.
Proof.
  intros (-> & _ & _) Hc Hx. apply elem_of_union_list. eauto.
Qed.

Lemma charted_extend ids (V : gset string) cs (C : gset string) s :
  charted gr ids V cs -> s ∈ ids -> s ∈ C -> C ## V ->
  (forall v, v ∈ C <-> reaches gr V s v) ->
  charted gr ids (V ∪ C) (cs ++ [C]).
Proof.
  intros Hch Hs HsC Hdisj Hreach.
  pose proof Hch as (HV & Hpair & Hchar). repeat split.
  - rewrite union_list_app_L, <- HV. simpl. set_solver.
  - intros i j c1 c2 Hij Hi Hj.
    apply lookup_app_Some in Hi as [Hi|[Hil Hi]];
      apply lookup_app_Some in Hj as [Hj|[Hjl Hj]].
    + eauto.
    + apply list_lookup_singleton_Some in Hj as [_ <-].
      apply list_elem_of_lookup_2 in Hi.
      intros x Hx1 Hx2. apply (Hdisj x); [done|]. by eapply charted_member.
    + apply list_lookup_singleton_Some in Hi as [_ <-].
      apply list_elem_of_lookup_2 in Hj.
      intros x Hx1 Hx2. apply (Hdisj x); [done|]. by eapply charted_member.
    + apply list_lookup_singleton_Some in Hi as [Hi _].
      apply list_lookup_singleton_Some in Hj as [Hj _]. lia.
  - intros i c Hi. apply lookup_app_Some in Hi as [Hi|[Hil Hi]].
    + pose proof (lookup_lt_Some _ _ _ Hi) as Hlt.
      rewrite take_app_le by lia. eauto.
    + apply list_lookup_singleton_Some in Hi as [Hi <-].
      assert (i = length cs) as -> by lia.
      rewrite take_app_length, <- HV. eauto.
Qed.

(** The loop over the node identifiers, given enough fuel. *)
Lemma communities_fold fuel ids l (V : gset string) cs :
  (edge_total gr + 2 <= fuel)%nat ->
  charted gr ids V cs -> (forall n, n ∈ l -> n ∈ ids) ->
  exists V' cs',
    fold_left (community_step fuel gr) l (Some (V, cs)) = Some (V', cs')
    /\ charted gr ids V' cs' /\ V ⊆ V' /\ forall n, n ∈ l -> n ∈ V'.
Proof.
  intros Hfuel. revert V cs.
  induction l as [|a l IH]; intros V cs Hch Hl; cbn [fold_left].
  - exists V, cs. split_and!; [done|done|done|set_solver].
  - simpl. destruct (decide (a ∈ V)) as [Hin|Hnin].
    + destruct (IH V cs Hch) as (V' & cs' & Hfold & Hch' & Hsub & Hcov); [set_solver|].
      exists V', cs'. split_and!; [done|done|done|set_solver].
    + destruct (bfs_terminates fuel [a] V ∅) as (V1 & C1 & Hbfs).
      { pose proof (pending_mono ∅ V (map_to_list gr)) as Hm.
        specialize (Hm ltac:(set_solver)). unfold edge_total in Hfuel.
        simpl. lia. }
      rewrite Hbfs. simpl.
      destruct (bfs_from_start _ _ _ _ _ Hbfs Hnin) as (-> & Hdisj & Ha & Hreach).
      assert ((0 <? size C1)%nat = true) as ->.
      { apply Nat.ltb_lt. destruct (size C1) eqn:Hsize; [|lia].
        apply size_empty_inv in Hsize. set_solver. }
      destruct (IH (V ∪ C1) (cs ++ [C1])) as (V' & cs' & Hfold & Hch' & Hsub & Hcov).
      { apply charted_extend with a; [done|set_solver|done|done|done]. }
      { set_solver. }
      exists V', cs'. split_and!; [done|done|set_solver|set_solver].
Qed.

(** The loop of [detectCommunities] over any list of start nodes: with
    fuel for two more turns than the graph has adjacency entries it
    returns, and what it returns is charted. *)
Lemma communities_partition (ids : list string) (fuel : nat) :
  (edge_total gr + 2 <= fuel)%nat ->
  exists cs,
    communities_on fuel gr ids = Some cs
    /\ (forall n, n ∈ ids ->
          exists i c, cs !! i = Some c /\ n ∈ c
                      /\ forall j c', cs !! j = Some c' -> n ∈ c' -> j = i)
    /\ (forall i j c1 c2,
          i <> j -> cs !! i = Some c1 -> cs !! j = Some c2 -> c1 ## c2)
    /\ (forall c, c ∈ cs -> c <> ∅)
    /\ (forall i c,
          cs !! i = Some c ->
          exists s, s ∈ ids /\ s ∈ c
                    /\ forall v, v ∈ c <-> reaches gr (⋃ (take i cs)) s v)
    /\ ((forall u v, u ∈ ids -> heavy_edge gr u v -> v ∈ ids) ->
        forall v, v ∈ ⋃ cs <-> v ∈ ids).
Proof.
  intros Hfuel.
  destruct (communities_fold fuel ids ids ∅ [] Hfuel (charted_empty ids))
    as (V & cs & Hfold & Hch & _ & Hcov); [done|].
  exists cs. unfold communities_on. rewrite Hfold. simpl.
  pose proof Hch as (HV & Hpair & Hchar).
  split; [done|]. split; [|split; [done|split; [|split; [done|]]]].
  - intros n Hn. specialize (Hcov n Hn). rewrite HV in Hcov.
    apply elem_of_union_list in Hcov as (c & Hc & Hnc).
    apply list_elem_of_lookup in Hc as [i Hi].
    exists i, c. repeat split; [done|done|].
    intros j c' Hj Hnc'. destruct (decide (j = i)) as [|Hne]; [done|].
    exfalso. by apply (Hpair j i c' c Hne Hj Hi n).
  - intros c Hc. apply list_elem_of_lookup in Hc as [i Hi].
    destruct (Hchar i c Hi) as (s & _ & Hs & _). set_solver.
  - intros Hclosed v. split.
    + intros Hv. apply elem_of_union_list in Hv as (c & Hc & Hvc).
      apply list_elem_of_lookup in Hc as [i Hi].
      destruct (Hchar i c Hi) as (s & Hs & _ & Hreach).
      destruct (proj1 (Hreach v) Hvc) as [_ Hrtc].
      eapply (rtc_ind_r (fun v => v ∈ ids) s); [exact Hs| |exact Hrtc].
      intros y z _ [Hyz _] IH. by apply (Hclosed y z).
    + intros Hv. rewrite <- HV. by apply Hcov.
Qed.

End Communities.

(** C10: with fuel for two more turns than the graph has adjacency
    entries, [detectCommunities] returns communities such that every
    node of the snapshot lies in exactly one of them; they are pairwise
    disjoint and non-empty; each consists of what its start node reaches
    along edges of weight above 0.5 without entering an earlier
    community; and when heavy edges from nodes only lead to nodes, the
    communities cover the nodes and nothing else. *)
Theorem detectCommunities_partition (g : Graph.engine) (fuel : nat) :
  (Graph.edge_total (Graph.graph g) + 2 <= fuel)%nat ->
  exists cs,
    Graph.detectCommunities fuel g = Some cs
    /\ (forall n, n ∈ Graph.nodeIds g ->
          exists i c, cs !! i = Some c /\ n ∈ c
                      /\ forall j c', cs !! j = Some c' -> n ∈ c' -> j = i)
    /\ (forall i j c1 c2,
          i <> j -> cs !! i = Some c1 -> cs !! j = Some c2 -> c1 ## c2)
    /\ (forall c, c ∈ cs -> c <> ∅)
    /\ (forall i c,
          cs !! i = Some c ->
          exists s, s ∈ Graph.nodeIds g /\ s ∈ c
                    /\ forall v, v ∈ c
                                 <-> Graph.reaches (Graph.graph g) (⋃ (take i cs)) s v)
    /\ ((forall u v, u ∈ Graph.nodeIds g ->
                     Graph.heavy_edge (Graph.graph g) u v -> v ∈ Graph.nodeIds g) ->
        forall v, v ∈ ⋃ cs <-> v ∈ Graph.nodeIds g).
Proof. apply communities_partition. Qed.

Lemma detectCommunities_partition_witness :
  exists cs,
    Graph.detectCommunities 5 Samples.triangle = Some cs
    /\ (forall n, n ∈ Graph.nodeIds Samples.triangle ->
          exists i c, cs !! i = Some c /\ n ∈ c
                      /\ forall j c', cs !! j = Some c' -> n ∈ c' -> j = i)
    /\ (forall i j c1 c2,
          i <> j -> cs !! i = Some c1 -> cs !! j = Some c2 -> c1 ## c2)
    /\ (forall c, c ∈ cs -> c <> ∅)
    /\ (forall i c,
          cs !! i = Some c ->
          exists s, s ∈ Graph.nodeIds Samples.triangle /\ s ∈ c
                    /\ forall v,
                         v ∈ c
                         <-> Graph.reaches (Graph.graph Samples.triangle)
                               (⋃ (take i cs)) s v)
    /\ ((forall u v, u ∈ Graph.nodeIds Samples.triangle ->
                     Graph.heavy_edge (Graph.graph Samples.triangle) u v ->
                     v ∈ Graph.nodeIds Samples.triangle) ->
        forall v, v ∈ ⋃ cs <-> v ∈ Graph.nodeIds Samples.triangle).
Proof.
  apply (detectCommunities_partition Samples.triangle 5).
  vm_compute. lia.
Defined.

(** On the cycle a -> b -> c -> a the edge c -> a weighs 0.4: from a
    the traversal takes in b and c, and there is one community. *)
Example detectCommunities_triangle :
  Graph.detectCommunities 5 Samples.triangle = Some [{["a"; "b"; "c"]}].
Proof. vm_compute. reflexivity. Qed.

(** ** Feature extraction *)

Section FeatureExtraction.
Import Js Storage Features.
Local Open Scope R_scope.

Lemma sum_from (l : list R) (a : R) : fold_left Rplus l a = a + sum l.
Proof.
  unfold sum. revert a. induction l as [|x l IH]; intros a; simpl; [lra|].
  rewrite IH, (IH (0 + x)). lra.
Qed.

Lemma sum_repeat (c : R) (k : nat) : sum (repeat c k) = INR k * c.
Proof.
  induction k as [|k IH]; [unfold sum; simpl; lra|].
  unfold sum in *. cbn [repeat fold_left]. rewrite sum_from. unfold sum.
  rewrite IH, S_INR. lra.
Qed.

Lemma entropy_repeat (c total e : R) (k : nat) :
  0 < c / total ->
  fold_left
    (fun entropy count =>
       let p := count / total in
       if Rlt_dec 0 p then entropy - p * log2 p else entropy)
    (repeat c k) e
  = e - INR k * (c / total * log2 (c / total)).
Proof.
  intros Hp. revert e. induction k as [|k IH]; intros e.
  - simpl. lra.
  - cbn [repeat fold_left]. rewrite IH, S_INR.
    destruct (Rlt_dec 0 (c / total)); [lra|done].
Qed.

Lemma log2_inv (x : R) : 0 < x -> log2 (/ x) = - log2 x.
Proof. intros Hx. unfold log2. rewrite ln_Rinv by done. lra. Qed.

Lemma log2_1 : log2 1 = 0.
Proof. unfold log2. rewrite ln_1. lra. Qed.

Lemma calculateEntropy_single (c : R) : calculateEntropy [c] = 0.
Proof.
  unfold calculateEntropy, sum. simpl.
  destruct (Req_dec_T (0 + c) 0) as [|Hne]; [done|].
  assert (c / (0 + c) = 1) as -> by (field; lra).
  destruct (Rlt_dec 0 1); [|lra]. rewrite log2_1. lra.
Qed.

Lemma calculateEntropy_zeros (k : nat) : calculateEntropy (repeat 0 k) = 0.
Proof.
  unfold calculateEntropy. rewrite sum_repeat.
  destruct (Req_dec_T (INR k * 0) 0) as [|Hne]; [done|lra].
Qed.

(** C4: on [k] equal positive counts the entropy is [log2 k]; on a
    single count, on no count and on counts that are all zero it is 0. *)
Theorem calculateEntropy_uniform (k : nat) (c : R) :
  (0 < k)%nat -> 0 < c ->
  calculateEntropy (repeat c k) = log2 (INR k)
  /\ calculateEntropy [c] = 0
  /\ calculateEntropy [] = 0
  /\ calculateEntropy (repeat 0 k) = 0.
Proof.
  intros Hk Hc. split; [|split; [apply calculateEntropy_single|split;
    [|apply calculateEntropy_zeros]]].
  - assert (0 < INR k) as Hk' by (apply lt_0_INR; lia).
    unfold calculateEntropy. rewrite sum_repeat.
    destruct (Req_dec_T (INR k * c) 0) as [Hz|_]; [nra|].
    assert (c / (INR k * c) = / INR k) as Heq by (field; lra).
    rewrite entropy_repeat.
    + rewrite Heq, log2_inv by done. field. lra.
    + rewrite Heq. by apply Rinv_0_lt_compat.
  - unfold calculateEntropy, sum. simpl.
    destruct (Req_dec_T 0 0); [done|lra].
Qed.

Lemma entropy_from (total : R) (l : list R) (e : R) :
  fold_left
    (fun entropy count =>
       let p := count / total in
       if Rlt_dec 0 p then entropy - p * log2 p else entropy)
    l e
  = e + sum (map (term total) l).
Proof.
  revert e. induction l as [|c l IH]; intros e; simpl.
  - unfold sum. simpl. lra.
  - rewrite IH. unfold sum at 2. simpl. rewrite sum_from. unfold term at 2.
    destruct (Rlt_dec 0 (c / total)); lra.
Qed.

Lemma sum_cons (x : R) (l : list R) : sum (x :: l) = x + sum l.
Proof. unfold sum at 1. simpl. rewrite sum_from. lra. Qed.

Lemma sum_Permutation (l l' : list R) : Permutation l l' -> sum l = sum l'.
Proof.
  induction 1 as [|x l l' _ IH|x y l|l l' l'' _ IH1 _ IH2].
  - done.
  - rewrite !sum_cons. lra.
  - rewrite !sum_cons. lra.
  - congruence.
Qed.

(** The order in which [Object.values] lists the counts is immaterial. *)
Lemma calculateEntropy_Permutation (l l' : list R) :
  Permutation l l' -> calculateEntropy l = calculateEntropy l'.
Proof.
  intros Hp. unfold calculateEntropy.
  rewrite <- (sum_Permutation _ _ Hp).
  destruct (Req_dec_T (sum l) 0); [done|].
  rewrite !entropy_from. f_equal.
  apply sum_Permutation. by apply Permutation_map.
Qed.

(** Events of one single type have diversity 0. *)
Lemma tally_same {K} `{EqDecision K} (k : K) (l : list K) (c : nat) :
  Forall (fun x => x = k) l ->
  fold_left (fun counts x => bump x counts) l [(k, c)] = [(k, (length l + c)%nat)].
Proof.
  intros Hall. revert c. induction Hall as [|x l -> _ IH]; intros c; simpl; [done|].
  rewrite decide_True by done. rewrite IH. do 2 f_equal. lia.
Qed.

Lemma tally_single {K} `{EqDecision K} (k : K) (l : list K) :
  Forall (fun x => x = k) l -> l <> [] -> tally l = [(k, length l)].
Proof.
  intros Hall Hne. destruct l as [|x l]; [done|].
  apply Forall_cons in Hall as [-> Hall].
  unfold tally. cbn [fold_left bump]. rewrite tally_same by done.
  do 2 f_equal. simpl. lia.
Qed.

Lemma calculateEntropy_nil : calculateEntropy (@Object_values string []) = 0.
Proof.
  unfold Object_values, calculateEntropy, sum. cbn [map fold_right fold_left].
  by destruct (Req_dec_T 0 0).
Qed.

Lemma calculateEventTypeDiversity_single (evs : list event) (t : string) :
  Forall (fun e => event_type e = t) evs -> calculateEventTypeDiversity evs = 0.
Proof.
  intros Hall. unfold calculateEventTypeDiversity.
  destruct evs as [|e evs]; [done|]. cbn [length Nat.eqb]. cbv zeta.
  destruct (existsb _ _); [done|].
  assert (Forall (fun x => x = t) (filed_types (e :: evs))) as Hfiled.
  { unfold filed_types. apply Forall_forall. intros x Hx.
    apply list_elem_of_In, filter_In in Hx as [Hx _].
    apply list_elem_of_In, list_elem_of_fmap in Hx as (e' & -> & He').
    by apply (proj1 (Forall_forall _ _) Hall). }
  destruct (filed_types (e :: evs)) as [|x l] eqn:Hl.
  - apply calculateEntropy_nil.
  - rewrite (tally_single t); [apply calculateEntropy_single|done|done].
Qed.

Lemma calculateEventTypeDiversity_empty : calculateEventTypeDiversity [] = 0.
Proof. reflexivity. Qed.

(** An event type that names an inherited function takes the
    diversity to 0, whatever the other events are. *)
Example calculateEventTypeDiversity_inherited :
  calculateEventTypeDiversity
    [Samples.malware_event;
     Samples.sighting "i-1" "2024-01-01T00:00:00.000Z" 1704067200000;
     {| event_type := "toString"; timestamp_text := "2024-01-01T00:00:00.000Z";
        timestamp := 1704067200000; frequency := 1; port := None;
        geo_location := None; payload_size := None; indicator_id := "i-1" |}]
  = 0.
Proof. reflexivity. Qed.

(** A text of three code points, the second one in two bytes. *)
Example chars_of_code_points :
  let e_acute :=
    String (Ascii.ascii_of_nat 195) (String (Ascii.ascii_of_nat 169) EmptyString) in
  chars_of ("a" ++ e_acute ++ "b")%string = ["a"%string; e_acute; "b"%string].
Proof. reflexivity. Qed.

Lemma calculatePortEntropy_no_port (evs : list event) :
  ports_of evs = [] -> calculatePortEntropy evs = 0.
Proof. intros H. unfold calculatePortEntropy. by rewrite H. Qed.

(** *** Outcomes of [extractFeatures] *)

Lemma extractFeatures_no_events (d : db) (now : Z) (indicatorId : string)
    (i : indicator) :
  getIndicatorEvents d indicatorId = Resolved [] ->
  getIndicator d indicatorId = Resolved (Some i) ->
  extractFeatures d now indicatorId = Some (baseline i).
Proof.
  intros Hev Hind. unfold extractFeatures, extractFeatures_body.
  rewrite Hev. cbn. rewrite Hind. cbn. unfold baseline. do 2 f_equal.
  unfold calculateDNSEntropy. destruct (negb _); reflexivity.
Qed.

(** C3, as the code has it: for an indicator that exists and has no
    event, [extractFeatures] answers the ordinary record [baseline] (every
    count, rate and entropy 0, z-score -2.5), not a value of its own; a
    storage error is caught and answered by [null], as is an unknown
    indicator; and [null] is never mistaken for a record, since a record
    only comes from a storage that answered. *)
Theorem extractFeatures_outcomes (d : db) (now : Z) (indicatorId : string) :
  (forall i,
     getIndicatorEvents d indicatorId = Resolved [] ->
     getIndicator d indicatorId = Resolved (Some i) ->
     extractFeatures d now indicatorId = Some (baseline i))
  /\ (available d = false -> extractFeatures d now indicatorId = None)
  /\ (getIndicator d indicatorId = Resolved None ->
      extractFeatures d now indicatorId = None)
  /\ (forall f, extractFeatures d now indicatorId = Some f ->
                available d = true
                /\ exists i, getIndicator d indicatorId = Resolved (Some i)).
Proof.
  split; [intros i; apply extractFeatures_no_events|].
  unfold extractFeatures, extractFeatures_body, getIndicatorEvents, getIndicator.
  destruct (available d); cbn.
  - split; [done|]. split.
    + intros [= ->]. reflexivity.
    + intros f. destruct (List.find _ (indicators d)) as [i|]; cbn; [eauto|done].
  - split; [done|]. split; [done|]. done.
Qed.

End FeatureExtraction.

Lemma calculateEntropy_uniform_witness :
  (Features.calculateEntropy (repeat 3 4) = Features.log2 (INR 4)
   /\ Features.calculateEntropy [3] = 0
   /\ Features.calculateEntropy [] = 0
   /\ Features.calculateEntropy (repeat 0 4) = 0)%R.
Proof.
  apply (calculateEntropy_uniform 4 3); [lia|lra].
Defined.

(** C3, as stated, fails: the indicator ["i-1"] exists and has no
    event, and [extractFeatures] answers a feature record, the same kind
    of value as for an indicator with events, instead of a result that
    says there is no data. *)
Lemma extractFeatures_no_events_is_a_record :
  Features.getIndicatorEvents Samples.quiet_db "i-1" = Js.Resolved []
  /\ Features.extractFeatures Samples.quiet_db 0 "i-1" = Some Samples.quiet_features
  /\ Features.extractFeatures Samples.down_db 0 "i-1" = None
  /\ Features.extractFeatures Samples.quiet_db 0 "unknown" = None.
Proof.
  split; [reflexivity|]. split; [|split; reflexivity].
  rewrite (extractFeatures_no_events Samples.quiet_db 0 "i-1" Samples.lone_indicator);
    reflexivity.
Qed.

(** * Further properties *)

(** ** Rule engine: evaluation *)

Section RuleEvaluation.
Import Js Storage Features Rules.

Lemma awarded_points (rules : list rule) :
  awarded (map matched_of rules) = points rules.
Proof. induction rules as [|r rules IH]; simpl; [done|]. by rewrite IH. Qed.

Lemma fired_sublist rules f evs : sublist (fired rules f evs) rules.
Proof.
  unfold fired. induction rules as [|r rules IH]; simpl; [done|].
  destruct (fires r f evs); by constructor.
Qed.

Lemma evaluateRules_cases rules d now indicatorId :
  evaluateRules rules d now indicatorId = no_match
  \/ exists f evs, evaluateRules rules d now indicatorId = evaluate rules f evs.
Proof.
  unfold evaluateRules, getIndicatorEvents, Features.getIndicatorEvents.
  destruct (available d); cbn; [|by left].
  destruct (extractFeatures d now indicatorId) as [f|]; cbn; [right; eauto|by left].
Qed.

(** X1: for a registry without negative point values, [evaluateRules]
    answers a score between 0 and 100 that is the total of the points
    listed in [matchedRules], capped at 100; the matched rules are a
    sublist of the registry, in registration order, and every one of them
    has its line of explanation. *)
Theorem evaluateRules_score (rules : list rule) (d : db) (now : Z)
    (indicatorId : string) :
  Forall (fun r => 0 <= score r) rules ->
  let e := evaluateRules rules d now indicatorId in
  ev_score e = Z.min (awarded (matchedRules e)) 100
  /\ 0 <= ev_score e <= 100
  /\ sublist (matchedRules e) (map matched_of rules)
  /\ length (explanation e) = length (matchedRules e).
Proof.
  intros Hpos. cbv zeta.
  destruct (evaluateRules_cases rules d now indicatorId) as [->|(f & evs & ->)].
  - simpl. split; [done|]. split; [lia|]. split; [apply sublist_nil_l|done].
  - destruct (evaluate_spec rules f evs) as (Hs & -> & ->).
    split; [by rewrite awarded_points|]. split; [by apply evaluate_range|].
    split; [apply (fmap_sublist matched_of), fired_sublist|by rewrite !length_map].
Qed.

Lemma fired_skip rules1 r rules2 f evs :
  fires r f evs = false ->
  fired (rules1 ++ r :: rules2) f evs = fired (rules1 ++ rules2) f evs.
Proof.
  intros Hr. unfold fired. rewrite !List.filter_app. simpl. by rewrite Hr.
Qed.

Lemma evaluate_fired rules rules' f evs :
  fired rules f evs = fired rules' f evs ->
  evaluate rules f evs = evaluate rules' f evs.
Proof.
  intros Heq. unfold evaluate. rewrite !evaluation_loop, Heq. reflexivity.
Qed.

(** X2: a rule whose predicate throws (or is missing) is passed over:
    the evaluation is the one of the registry without that rule. *)
Theorem evaluate_skips_throwing_rule (rules1 rules2 : list rule) (r : rule)
    (f : features) (evs : list event) :
  throws r f evs ->
  evaluate (rules1 ++ r :: rules2) f evs = evaluate (rules1 ++ rules2) f evs.
Proof.
  intros Hthrows. apply evaluate_fired, fired_skip.
  unfold throws in Hthrows. unfold fires.
  destruct (condition r) as [c|]; [by rewrite Hthrows|done].
Qed.

Lemma points_fired_lower rules r f evs :
  Forall (fun r => 0 <= score r) rules ->
  r ∈ rules -> fires r f evs = true ->
  score r <= points (fired rules f evs).
Proof.
  intros Hpos Hin Hr. unfold fired.
  induction rules as [|a rules IH]; [by apply elem_of_nil in Hin|].
  apply Forall_cons in Hpos as [Ha Hpos].
  assert (0 <= points (List.filter (fun r => fires r f evs) rules)) as Hrest.
  { apply points_nonneg. rewrite Forall_forall in *. intros x Hx.
    apply Hpos. rewrite list_elem_of_In in *. apply filter_In in Hx. tauto. }
  apply elem_of_cons in Hin as [->|Hin]; simpl.
  - rewrite Hr. simpl. lia.
  - specialize (IH Hpos Hin). destruct (fires a f evs); simpl; lia.
Qed.

(** X3: in a registry without negative point values a rule that
    matches is listed among the matched rules and the score is at least
    its point value (or 100). *)
Theorem evaluate_matched_rule_counts (rules : list rule) (r : rule)
    (f : features) (evs : list event) :
  Forall (fun r => 0 <= score r) rules ->
  r ∈ rules -> fires r f evs = true ->
  matched_of r ∈ matchedRules (evaluate rules f evs)
  /\ Z.min (score r) 100 <= ev_score (evaluate rules f evs).
Proof.
  intros Hpos Hin Hr. destruct (evaluate_spec rules f evs) as (-> & -> & _).
  split.
  - apply list_elem_of_fmap. exists r. split; [done|].
    unfold fired. rewrite list_elem_of_In. apply filter_In.
    by rewrite <- list_elem_of_In.
  - pose proof (points_fired_lower rules r f evs Hpos Hin Hr). lia.
Qed.

End RuleEvaluation.

Lemma default_points_nonneg :
  Forall (fun r => 0 <= Rules.score r) Rules.initializeRules.
Proof. repeat constructor; discriminate. Qed.

Lemma evaluateRules_score_witness :
  let e := Rules.evaluateRules Rules.initializeRules Samples.quiet_db 0 "i-1" in
  Rules.ev_score e = Z.min (Rules.awarded (Rules.matchedRules e)) 100
  /\ 0 <= Rules.ev_score e <= 100
  /\ sublist (Rules.matchedRules e) (map Rules.matched_of Rules.initializeRules)
  /\ length (Rules.explanation e) = length (Rules.matchedRules e).
Proof.
  apply (evaluateRules_score Rules.initializeRules Samples.quiet_db 0 "i-1").
  repeat constructor; discriminate.
Defined.

Lemma evaluate_skips_throwing_rule_witness :
  Rules.evaluate (Rules.initializeRules ++ Samples.broken_rule :: [Samples.trusted_source])
    Samples.quiet_features []
  = Rules.evaluate (Rules.initializeRules ++ [Samples.trusted_source])
      Samples.quiet_features [].
Proof.
  apply (evaluate_skips_throwing_rule Rules.initializeRules [Samples.trusted_source]
           Samples.broken_rule Samples.quiet_features []).
  reflexivity.
Defined.

(** One [malware_detected] event: the last default rule matches and
    the score is at least 50, whatever the features. *)
Lemma evaluate_matched_rule_counts_witness :
  Rules.matched_of
    (Rules.mk "malware_detection" "Malware Detected" "critical" 50
       (fun f evs => existsb (Rules.has_type "malware_detected") evs))
  ∈ Rules.matchedRules
      (Rules.evaluate Rules.initializeRules Samples.quiet_features
         [Samples.malware_event])
  /\ Z.min 50 100
     <= Rules.ev_score
          (Rules.evaluate Rules.initializeRules Samples.quiet_features
             [Samples.malware_event]).
Proof.
  apply (evaluate_matched_rule_counts Rules.initializeRules
           (Rules.mk "malware_detection" "Malware Detected" "critical" 50
              (fun f evs => existsb (Rules.has_type "malware_detected") evs))
           Samples.quiet_features [Samples.malware_event]).
  - repeat constructor; discriminate.
  - unfold Rules.initializeRules. set_solver.
  - reflexivity.
Defined.

(** ** Rule engine: the registry *)

Section RegistryRoundTrip.
Import Js Storage Features Rules.

Lemma findIndex_app_last {A} (p : A -> bool) (l : list A) (x : A) :
  findIndex p (l ++ [x])
  = match findIndex p l with
    | Some n => Some n
    | None => if p x then Some (length l) else None
    end.
Proof.
  induction l as [|a l IH]; simpl.
  - by destruct (p x).
  - destruct (p a); [done|]. rewrite IH.
    destruct (findIndex p l); [done|]. by destruct (p x).
Qed.

Lemma findIndex_lt {A} (p : A -> bool) (l : list A) n :
  findIndex p l = Some n -> (n < length l)%nat.
Proof.
  intros H. apply findIndex_split in H as (l1 & x & l2 & -> & <- & _).
  rewrite length_app. simpl. lia.
Qed.

Lemma delete_app_last {A} (l : list A) (x : A) n :
  (n < length l)%nat -> delete n (l ++ [x]) = delete n l ++ [x].
Proof.
  revert n. induction l as [|a l IH]; intros n Hn; simpl in *; [lia|].
  destruct n; [done|]. simpl. f_equal. apply IH. lia.
Qed.

Lemma delete_last {A} (l : list A) (x : A) : delete (length l) (l ++ [x]) = l.
Proof. induction l as [|a l IH]; simpl; [done|]. by f_equal. Qed.

Lemma findIndex_find {A} (p : A -> bool) (l : list A) :
  findIndex p l = None <-> List.find p l = None.
Proof.
  induction l as [|a l IH]; simpl; [done|].
  destruct (p a); [done|]. destruct (findIndex p l); simpl; [|tauto].
  split; [done|]. intros H. apply IH in H. done.
Qed.

Lemma getRule_absent rules i :
  Some i ∉ map id rules -> getRule rules i = None.
Proof.
  intros Hnot. unfold getRule. apply findIndex_find, findIndex_none.
  apply Forall_forall. intros r Hr. apply bool_decide_eq_false.
  intros Hid. apply Hnot. rewrite <- Hid. apply list_elem_of_fmap. eauto.
Qed.

(** X4: a well-formed rule added under an unused identifier is found
    again by [getRule], and [removeRule] with that identifier gives back
    the registry as it was. *)
Theorem addRule_removeRule_round_trip (r : rule) (rules : list rule) (i : string) :
  id r = Some i -> well_formed r = true -> Some i ∉ map id rules ->
  exists registry,
    addRule r rules = Resolved (r, registry)
    /\ getRule registry i = Some r
    /\ removeRule i registry = (true, rules).
Proof.
  intros Hid Hwf Hfresh. exists (rules ++ [r]).
  rewrite addRule_well_formed, Hwf. split; [done|].
  pose proof (getRule_absent rules i Hfresh) as Hget. unfold getRule in *.
  split.
  - rewrite find_app_last, Hget. by rewrite bool_decide_eq_true_2.
  - unfold removeRule. rewrite findIndex_app_last.
    apply findIndex_find in Hget. rewrite Hget.
    rewrite bool_decide_eq_true_2 by done. by rewrite delete_last.
Qed.

(** X5: a rule added under an identifier that is registered already
    stays behind the older one: [getRule] still answers the older rule,
    and [removeRule] takes the older rule out and leaves the new one in. *)
Theorem addRule_duplicate_is_shadowed (r old : rule) (rules : list rule) (i : string) :
  id r = Some i -> well_formed r = true -> getRule rules i = Some old ->
  exists registry,
    addRule r rules = Resolved (r, registry)
    /\ getRule registry i = Some old
    /\ removeRule i registry = (true, snd (removeRule i rules) ++ [r])
    /\ fst (removeRule i rules) = true.
Proof.
  intros Hid Hwf Hget. exists (rules ++ [r]).
  rewrite addRule_well_formed, Hwf. split; [done|].
  unfold getRule in *. split; [by rewrite find_app_last, Hget|].
  unfold removeRule. rewrite findIndex_app_last.
  destruct (findIndex _ rules) as [n|] eqn:Hfi.
  - simpl. split; [|done]. f_equal. apply delete_app_last. by eapply findIndex_lt.
  - apply findIndex_find in Hfi. congruence.
Qed.

End RegistryRoundTrip.

Lemma addRule_removeRule_round_trip_witness :
  exists registry,
    Rules.addRule Samples.trusted_source Rules.initializeRules
    = Js.Resolved (Samples.trusted_source, registry)
    /\ Rules.getRule registry "trusted_source" = Some Samples.trusted_source
    /\ Rules.removeRule "trusted_source" registry = (true, Rules.initializeRules).
Proof.
  apply (addRule_removeRule_round_trip Samples.trusted_source Rules.initializeRules
           "trusted_source"); [reflexivity|reflexivity|].
  unfold Rules.initializeRules. simpl. set_solver.
Defined.

Lemma addRule_duplicate_is_shadowed_witness :
  exists registry,
    Rules.addRule Samples.second_brute_force Rules.initializeRules
    = Js.Resolved (Samples.second_brute_force, registry)
    /\ Rules.getRule registry "brute_force_ssh"
       = Some (hd Samples.trusted_source Rules.initializeRules)
    /\ Rules.removeRule "brute_force_ssh" registry
       = (true,
          snd (Rules.removeRule "brute_force_ssh" Rules.initializeRules)
          ++ [Samples.second_brute_force])
    /\ fst (Rules.removeRule "brute_force_ssh" Rules.initializeRules) = true.
Proof.
  apply (addRule_duplicate_is_shadowed Samples.second_brute_force
           (hd Samples.trusted_source Rules.initializeRules)
           Rules.initializeRules "brute_force_ssh"); reflexivity.
Defined.

(** ** Feature extraction: the event window *)

Section TextOrder.

Lemma ascii_compare_N (a b : ascii) :
  Ascii.compare a b = N.compare (N_of_ascii a) (N_of_ascii b).
Proof. reflexivity. Qed.

Lemma string_compare_Lt_trans (s1 s2 s3 : string) :
  String.compare s1 s2 = Lt -> String.compare s2 s3 = Lt ->
  String.compare s1 s3 = Lt.
Proof.
  revert s2 s3. induction s1 as [|a s1 IH]; intros [|b s2] [|c s3]; simpl;
    try done.
  rewrite !ascii_compare_N.
  destruct (N.compare_spec (N_of_ascii a) (N_of_ascii b)) as [Hab|Hab|Hab];
    destruct (N.compare_spec (N_of_ascii b) (N_of_ascii c)) as [Hbc|Hbc|Hbc];
    try done; intros H12 H23.
  - rewrite Hab, Hbc, N.compare_refl. by eapply IH.
  - rewrite Hab. by apply N.compare_lt_iff in Hbc as ->.
  - rewrite <- Hbc. by apply N.compare_lt_iff in Hab as ->.
  - assert (N_of_ascii a < N_of_ascii c)%N as Hac by lia.
    by apply N.compare_lt_iff in Hac as ->.
Qed.

Lemma string_leb_trans (s1 s2 s3 : string) :
  String.leb s1 s2 = true -> String.leb s2 s3 = true -> String.leb s1 s3 = true.
Proof.
  unfold String.leb.
  destruct (String.compare s1 s2) eqn:H12; [| |done].
  - apply String.compare_eq_iff in H12 as ->. done.
  - destruct (String.compare s2 s3) eqn:H23; [| |done].
    + apply String.compare_eq_iff in H23 as <-. by rewrite H12.
    + by rewrite (string_compare_Lt_trans _ _ _ H12 H23).
Qed.

Lemma string_leb_false (s1 s2 : string) :
  String.leb s1 s2 = false -> String.leb s2 s1 = true.
Proof.
  intros Hf. destruct (String.leb_total s1 s2) as [H|H]; [congruence|done].
Qed.

End TextOrder.

Section EventWindow.
Import Js Storage Features.

Lemma insert_desc_Permutation e l : insert_desc e l ≡ₚ e :: l.
Proof.
  induction l as [|a l IH]; simpl; [done|].
  destruct (negb _); [done|].
  rewrite IH. apply perm_swap.
Qed.

Lemma order_by_timestamp_desc_Permutation l : order_by_timestamp_desc l ≡ₚ l.
Proof.
  unfold order_by_timestamp_desc. induction l as [|a l IH]; simpl; [done|].
  by rewrite insert_desc_Permutation, IH.
Qed.

Lemma insert_desc_descending e l : descending l -> descending (insert_desc e l).
Proof.
  unfold descending. induction 1 as [|a l Hl IH Ha]; simpl.
  - repeat constructor.
  - destruct (String.leb (timestamp_text e) (timestamp_text a)) eqn:Hcmp; simpl.
    + constructor; [done|].
      rewrite (insert_desc_Permutation e l). by constructor.
    + apply string_leb_false in Hcmp. constructor; [by constructor|].
      constructor; [done|]. eapply Forall_impl; [exact Ha|].
      intros b Hb. unfold not_before in *. by eapply string_leb_trans.
Qed.

Lemma order_by_timestamp_desc_descending l : descending (order_by_timestamp_desc l).
Proof.
  unfold order_by_timestamp_desc. induction l as [|a l IH]; simpl.
  - constructor.
  - by apply insert_desc_descending.
Qed.

Lemma descending_app l1 l2 :
  descending (l1 ++ l2) ->
  descending l1 /\ forall a b, a ∈ l1 -> b ∈ l2 -> not_before a b.
Proof.
  unfold descending. induction l1 as [|x l1 IH]; simpl; intros H.
  - split; [constructor|]. intros a b Ha. by apply elem_of_nil in Ha.
  - apply StronglySorted_inv in H as [Hs Hx]. destruct (IH Hs) as [Hl1 Hcross].
    apply Forall_app in Hx as [Hx1 Hx2]. split; [by constructor|].
    intros a b Ha Hb. apply elem_of_cons in Ha as [->|Ha]; [|by apply Hcross].
    rewrite Forall_forall in Hx2. by apply Hx2.
Qed.

(** Whatever order the storage gives to rows with equal timestamp
    texts, the first 1000 rows of a descending listing are cut off from
    the rest in the same way. *)
Lemma window_of_any_listing (mine sorted : list event) :
  sorted ≡ₚ mine -> descending sorted ->
  (length (take 1000 sorted) <= 1000)%nat
  /\ descending (take 1000 sorted)
  /\ (forall e, e ∈ take 1000 sorted -> e ∈ mine)
  /\ exists rest,
       take 1000 sorted ++ rest ≡ₚ mine
       /\ (forall a b, a ∈ take 1000 sorted -> b ∈ rest -> not_before a b)
       /\ ((length mine <= 1000)%nat -> rest = []).
Proof.
  intros Hperm Hsorted.
  assert (descending (take 1000 sorted ++ drop 1000 sorted)) as Hdesc
    by (by rewrite take_drop).
  apply descending_app in Hdesc as [Htake Hcross].
  split; [rewrite length_take; lia|]. split; [done|]. split.
  - intros e He. apply elem_of_take in He as (k & He & _).
    apply list_elem_of_lookup_2 in He. by rewrite Hperm in He.
  - exists (drop 1000 sorted). split; [by rewrite take_drop|]. split; [done|].
    intros Hlen. apply drop_ge. by rewrite Hperm.
Qed.

Lemma getIndicatorEvents_length (d : db) (indicatorId : string) (evs : list event) :
  getIndicatorEvents d indicatorId = Resolved evs -> (length evs <= 1000)%nat.
Proof.
  unfold getIndicatorEvents. destruct (available d); [|done]. intros [= <-].
  rewrite length_take. lia.
Qed.

(** X6: the events handed to the engines for an indicator are events
    of that indicator only, at most 1000 of them, in descending order
    of their timestamp texts, which is how [ORDER BY] compares the TEXT
    column (for the ISO texts of the years 0000 to 9999 that is latest
    first; an event of the year 10000 comes last); no event that is
    left out has a greater text than an event that is kept, and nothing
    is left out when the indicator has at most 1000 events.  The order
    among events with equal texts plays no role in this. *)
Theorem getIndicatorEvents_window (d : db) (indicatorId : string) (evs : list event) :
  getIndicatorEvents d indicatorId = Resolved evs ->
  (length evs <= 1000)%nat
  /\ descending evs
  /\ (forall e, e ∈ evs -> e ∈ events d /\ indicator_id e = indicatorId)
  /\ exists rest,
       evs ++ rest ≡ₚ filter (fun e => indicator_id e = indicatorId) (events d)
       /\ (forall a b, a ∈ evs -> b ∈ rest ->
             String.leb (timestamp_text b) (timestamp_text a) = true)
       /\ ((length (filter (fun e => indicator_id e = indicatorId) (events d))
            <= 1000)%nat -> rest = []).
Proof.
  unfold getIndicatorEvents. destruct (available d); [|done]. intros [= <-].
  destruct (window_of_any_listing
              (filter (fun e => indicator_id e = indicatorId) (events d))
              (order_by_timestamp_desc
                 (filter (fun e => indicator_id e = indicatorId) (events d))))
    as (Hlen & Hdesc & Hin & rest & Hperm & Hcross & Hall).
  { apply order_by_timestamp_desc_Permutation. }
  { apply order_by_timestamp_desc_descending. }
  split; [done|]. split; [done|]. split.
  - intros e He. apply Hin in He. by apply list_elem_of_filter in He as [? ?].
  - exists rest. split; [done|]. split; [|done].
    intros a b Ha Hb. by apply Hcross.
Qed.

End EventWindow.

Lemma getIndicatorEvents_window_witness :
  let evs := [Samples.malware_event;
              Samples.sighting "i-1" "2024-01-01T00:00:00.000Z" 1704067200000;
              Samples.sighting "i-1" "+010000-01-01T00:00:00.000Z" 253402300800000] in
  (length evs <= 1000)%nat
  /\ Features.descending evs
  /\ (forall e, e ∈ evs ->
        e ∈ Storage.events Samples.archive_db /\ Storage.indicator_id e = "i-1")
  /\ exists rest,
       evs ++ rest
       ≡ₚ filter (fun e => Storage.indicator_id e = "i-1")
            (Storage.events Samples.archive_db)
       /\ (forall a b, a ∈ evs -> b ∈ rest ->
             String.leb (Storage.timestamp_text b) (Storage.timestamp_text a) = true)
       /\ ((length (filter (fun e => Storage.indicator_id e = "i-1")
                      (Storage.events Samples.archive_db)) <= 1000)%nat ->
           rest = []).
Proof.
  apply (getIndicatorEvents_window Samples.archive_db "i-1").
  vm_compute. reflexivity.
Defined.

(** ** Feature extraction: bounds on the entropy *)

Section EntropyBounds.
Import Js Storage Features.
Local Open Scope R_scope.

Lemma ln_le_minus_1 (y : R) : 0 < y -> ln y <= y - 1.
Proof.
  intros Hy. pose proof (exp_ineq1_le (ln y)) as H.
  rewrite exp_ln in H by done. lra.
Qed.

Lemma ln_2_pos : 0 < ln 2.
Proof. rewrite <- ln_1. apply ln_increasing; lra. Qed.

Lemma sum_nonneg (l : list R) : Forall (fun c => 0 <= c) l -> 0 <= sum l.
Proof.
  induction 1 as [|c l Hc _ IH]; [unfold sum; simpl; lra|].
  rewrite sum_cons. lra.
Qed.

Lemma sum_member_le (l : list R) (c : R) :
  Forall (fun c => 0 <= c) l -> c ∈ l -> c <= sum l.
Proof.
  intros Hpos Hin. induction Hpos as [|a l Ha Hl IH]; [by apply elem_of_nil in Hin|].
  rewrite sum_cons. pose proof (sum_nonneg l Hl).
  apply elem_of_cons in Hin as [->|Hin]; [lra|]. specialize (IH Hin). lra.
Qed.

Lemma sum_map_le {A} (f g : A -> R) (l : list A) :
  Forall (fun x => f x <= g x) l -> sum (map f l) <= sum (map g l).
Proof.
  induction 1 as [|x l Hx _ IH]; simpl; [lra|]. rewrite !sum_cons. lra.
Qed.

Lemma sum_map_affine (a b : R) (l : list R) :
  sum (map (fun c => a * c + b) l) = a * sum l + INR (length l) * b.
Proof.
  induction l as [|c l IH]; [unfold sum; simpl; lra|].
  cbn [map length]. rewrite !sum_cons, IH, S_INR. lra.
Qed.

Lemma term_nonneg (total c : R) : 0 < total -> 0 <= c <= total -> 0 <= term total c.
Proof.
  intros Ht Hc. unfold term. destruct (Rlt_dec 0 (c / total)) as [Hp|_]; [|lra].
  assert (c / total <= 1) as Hle.
  { apply Rmult_le_reg_r with total; [done|].
    unfold Rdiv. rewrite Rmult_assoc, Rinv_l by lra. lra. }
  pose proof (ln_le_minus_1 (c / total) Hp) as Hln. pose proof ln_2_pos as H2.
  unfold log2.
  assert (0 < / ln 2) as Hi2 by (by apply Rinv_0_lt_compat).
  unfold Rdiv in *. set (p := c * / total) in *.
  assert (ln p <= 0) as Hlnp by lra.
  assert (0 <= p * (- ln p)) as Hprod by nra.
  pose proof (Rmult_le_pos _ _ (Rlt_le _ _ Hi2) Hprod). nra.
Qed.

Lemma term_upper (total c n : R) :
  0 < total -> 0 <= c -> 0 < n ->
  term total c <= (log2 n - / ln 2) * (c / total) + / n / ln 2.
Proof.
  intros Ht Hc Hn. unfold term. pose proof ln_2_pos as H2.
  assert (0 < / ln 2) as Hi2 by (by apply Rinv_0_lt_compat).
  assert (0 < / n) as Hin by (by apply Rinv_0_lt_compat).
  destruct (Rlt_dec 0 (c / total)) as [Hp|Hp].
  - set (p := c / total) in *.
    assert (0 < / (n * p)) as Hy by (apply Rinv_0_lt_compat; nra).
    pose proof (ln_le_minus_1 (/ (n * p)) Hy) as Hln.
    rewrite ln_Rinv in Hln by nra. rewrite ln_mult in Hln by done.
    assert (p * (/ (n * p) - 1) = / n - p) as Heq by (field; lra).
    assert (p * (- (ln n + ln p)) <= / n - p) as Hmain by nra.
    unfold log2, Rdiv.
    pose proof (Rmult_le_compat_l (/ ln 2) _ _ (Rlt_le _ _ Hi2) Hmain) as Hscaled.
    nra.
  - assert (c / total = 0) as ->.
    { assert (0 <= c / total); [|lra].
      unfold Rdiv. apply Rmult_le_pos; [done|]. by apply Rlt_le, Rinv_0_lt_compat. }
    unfold Rdiv. nra.
Qed.

Lemma entropy_terms (l : list R) :
  sum l <> 0 -> calculateEntropy l = sum (map (term (sum l)) l).
Proof.
  intros Hne. unfold calculateEntropy.
  destruct (Req_dec_T (sum l) 0); [done|]. rewrite entropy_from. lra.
Qed.

Lemma log2_length_nonneg (values : list R) :
  values <> [] -> 0 <= log2 (INR (length values)).
Proof.
  intros Hne. unfold log2, Rdiv.
  apply Rmult_le_pos; [|apply Rlt_le, Rinv_0_lt_compat, ln_2_pos].
  rewrite <- ln_1. destruct (Req_dec (INR (length values)) 1) as [->|Hne1]; [lra|].
  apply Rlt_le, ln_increasing; [lra|].
  assert (1 <= INR (length values)); [|lra].
  replace 1 with (INR 1) by done. apply le_INR.
  destruct values; [done|simpl; lia].
Qed.

Lemma calculateEntropy_nonneg (values : list R) :
  Forall (fun c => 0 <= c) values -> 0 <= calculateEntropy values.
Proof.
  intros Hpos. pose proof (sum_nonneg values Hpos) as Htot.
  destruct (Req_dec (sum values) 0) as [Hz|Hnz].
  - unfold calculateEntropy. destruct (Req_dec_T (sum values) 0); [lra|done].
  - rewrite entropy_terms by done.
    replace 0 with (sum (map (fun _ => 0) values)).
    + apply sum_map_le. rewrite Forall_forall in *. intros c Hc.
      apply term_nonneg; [lra|]. split; [by apply Hpos|].
      apply sum_member_le; [by apply Forall_forall|done].
    + clear. induction values as [|c l IH]; [done|].
      cbn [map]. rewrite sum_cons, IH. lra.
Qed.

Lemma calculateEntropy_upper (values : list R) :
  Forall (fun c => 0 <= c) values -> values <> [] ->
  calculateEntropy values <= log2 (INR (length values)).
Proof.
  intros Hpos Hne.
  assert (0 < INR (length values)) as Hn.
  { apply lt_0_INR. destruct values; [done|simpl; lia]. }
  pose proof (log2_length_nonneg values Hne) as Hlog.
  pose proof (sum_nonneg values Hpos) as Htot.
  destruct (Req_dec (sum values) 0) as [Hz|Hnz].
  - unfold calculateEntropy. destruct (Req_dec_T (sum values) 0); [lra|done].
  - rewrite entropy_terms by done. etransitivity.
    + apply (sum_map_le _
               (fun c => (log2 (INR (length values)) - / ln 2) * / sum values * c
                         + / INR (length values) / ln 2)).
      rewrite Forall_forall in *. intros c Hc.
      pose proof (term_upper (sum values) c (INR (length values))
                    ltac:(lra) (Hpos c Hc) Hn) as Hu.
      unfold Rdiv in *. lra.
    + rewrite sum_map_affine. pose proof ln_2_pos.
      apply Req_le. field. split; lra.
Qed.

(** X7: on counts that are not negative the entropy lies between 0
    and the base-2 logarithm of the number of counts. *)
Theorem calculateEntropy_bounds (values : list R) :
  Forall (fun c => 0 <= c) values -> values <> [] ->
  0 <= calculateEntropy values <= log2 (INR (length values)).
Proof.
  intros Hpos Hne. split.
  - by apply calculateEntropy_nonneg.
  - by apply calculateEntropy_upper.
Qed.

End EntropyBounds.

Lemma calculateEntropy_bounds_witness :
  (0 <= Features.calculateEntropy [3; 1; 0]
   <= Features.log2 (INR (length [3; 1; 0 : R])))%R.
Proof.
  apply (calculateEntropy_bounds [3; 1; 0]%R).
  - repeat constructor; lra.
  - discriminate.
Defined.

(** ** Feature extraction: ranges of the features *)

Section FeatureRanges.
Import Js Storage Features.
Local Open Scope R_scope.

Lemma INR_length_filter {A} (p : A -> bool) (l : list A) :
  INR (length (List.filter p l)) <= INR (length l).
Proof. apply le_INR, List.filter_length_le. Qed.

Lemma remove_dups_length {A} `{EqDecision A} (xs : list A) :
  (length (remove_dups xs) <= length xs)%nat.
Proof.
  induction xs as [|x xs IH]; simpl; [done|].
  destruct (decide_rel _ x xs); simpl; lia.
Qed.

Lemma set_size_range {A} `{EqDecision A} (xs : list A) :
  0 <= set_size xs <= INR (length xs).
Proof.
  unfold set_size. split; [apply pos_INR|]. apply le_INR, remove_dups_length.
Qed.

Lemma length_omap_le {A B} (g : A -> option B) (l : list A) :
  (length (omap g l) <= length l)%nat.
Proof.
  induction l as [|a l IH]; csimpl; [done|]. destruct (g a); csimpl; lia.
Qed.

Lemma calculateGeoRiskScore_range (evs : list event) :
  0 <= calculateGeoRiskScore evs <= 100.
Proof.
  unfold calculateGeoRiskScore.
  destruct (geos_of evs) as [|g gs] eqn:Hg; simpl Nat.eqb; cbv iota; [lra|].
  set (n := INR (length (g :: gs))).
  assert (0 < n) as Hn by (apply lt_0_INR; simpl; lia).
  pose proof (INR_length_filter (fun g => bool_decide (g ∈ highRiskCountries)) (g :: gs)) as Hle.
  pose proof (pos_INR (length (List.filter (fun g => bool_decide (g ∈ highRiskCountries)) (g :: gs)))) as Hpos.
  fold n in Hle. set (k := INR (length (List.filter _ (g :: gs)))) in *.
  assert (0 <= k / n <= 1) as Hq.
  { split.
    - unfold Rdiv. apply Rmult_le_pos; [done|]. by apply Rlt_le, Rinv_0_lt_compat.
    - apply Rmult_le_reg_r with n; [done|].
      unfold Rdiv. rewrite Rmult_assoc, Rinv_l by lra. lra. }
  lra.
Qed.

Lemma sum_squares_nonneg (m : R) (l : list R) :
  0 <= sum (map (fun p => (p - m) ^ 2) l).
Proof.
  apply sum_nonneg. apply Forall_forall. intros x Hx.
  apply list_elem_of_fmap in Hx as (p & -> & _). apply pow2_ge_0.
Qed.

Lemma calculatePayloadVariance_nonneg (evs : list event) :
  0 <= calculatePayloadVariance evs.
Proof.
  unfold calculatePayloadVariance.
  destruct (length (payloads_of evs) <? 2)%nat eqn:Hlen; [lra|].
  apply Nat.ltb_ge in Hlen.
  unfold Rdiv. apply Rmult_le_pos; [apply sum_squares_nonneg|].
  apply Rlt_le, Rinv_0_lt_compat, lt_0_INR. lia.
Qed.

Lemma calculateEventRate_range (now : Z) (evs : list event) (windowSeconds : Z) :
  (0 < windowSeconds)%Z ->
  0 <= calculateEventRate now evs windowSeconds
  <= INR (length evs) * (60 / IZR windowSeconds).
Proof.
  intros Hw. unfold calculateEventRate.
  assert (0 < IZR windowSeconds) as Hw' by (by apply IZR_lt).
  assert (0 < 60 / IZR windowSeconds) as Hq.
  { unfold Rdiv. apply Rmult_lt_0_compat; [lra|]. by apply Rinv_0_lt_compat. }
  pose proof (pos_INR (length evs)) as Hn.
  destruct (length evs =? 0)%nat; [nra|].
  set (p := fun e => (now - timestamp e <? windowSeconds * 1000)%Z).
  pose proof (INR_length_filter p evs) as Hle.
  pose proof (pos_INR (length (List.filter p evs))) as Hpos.
  set (k := INR (length (List.filter p evs))) in *.
  replace (k / IZR windowSeconds * 60) with (k * (60 / IZR windowSeconds))
    by (field; lra).
  nra.
Qed.

Lemma Object_values_nonneg {K} (counts : list (K * nat)) :
  Forall (fun c => 0 <= c) (Object_values counts).
Proof.
  unfold Object_values. apply Forall_forall. intros x Hx.
  apply list_elem_of_fmap in Hx as (kc & -> & _). apply pos_INR.
Qed.

Lemma bump_length {K} `{EqDecision K} (k : K) (counts : list (K * nat)) :
  (1 <= length (bump k counts) <= S (length counts))%nat.
Proof.
  induction counts as [|[k' c] counts IH]; simpl; [lia|].
  destruct (decide (k = k')); simpl; lia.
Qed.

Lemma tally_length {K} `{EqDecision K} (keys : list K) :
  (length (tally keys) <= length keys)%nat
  /\ (keys <> [] -> (1 <= length (tally keys))%nat).
Proof.
  unfold tally.
  assert (forall acc,
            (length (fold_left (fun counts k => bump k counts) keys acc)
             <= length keys + length acc)%nat
            /\ (keys <> [] ->
                (1 <= length (fold_left (fun counts k => bump k counts) keys acc))%nat))
    as Hgen.
  { induction keys as [|k keys IH]; intros acc; simpl; [split; [lia|done]|].
    pose proof (bump_length k acc) as Hb. destruct (IH (bump k acc)) as [IH1 IH2].
    split; [lia|]. intros _. destruct keys as [|k' keys]; [simpl; lia|].
    by apply IH2. }
  destruct (Hgen []) as [H1 H2]. simpl in H1. split; [lia|done].
Qed.

Lemma log2_le (x y : R) : 1 <= x -> x <= y -> 0 <= log2 x <= log2 y.
Proof.
  intros Hx Hxy. unfold log2, Rdiv. pose proof ln_2_pos as H2.
  assert (0 < / ln 2) as Hi2 by (by apply Rinv_0_lt_compat).
  assert (0 <= ln x).
  { rewrite <- ln_1. destruct (Req_dec x 1) as [->|?]; [lra|].
    apply Rlt_le, ln_increasing; lra. }
  assert (ln x <= ln y).
  { destruct (Req_dec x y) as [->|?]; [lra|]. apply Rlt_le, ln_increasing; lra. }
  nra.
Qed.

(** The entropy of a tally of at most [n] keys. *)
Lemma tally_entropy_range {K} `{EqDecision K} (keys : list K) (n : nat) :
  (length keys <= n)%nat ->
  0 <= (if (length keys =? 0)%nat then 0
        else calculateEntropy (Object_values (tally keys)))
  <= log2 (INR (Nat.max 1 n)).
Proof.
  intros Hn.
  assert (0 <= log2 (INR (Nat.max 1 n))) as Hlog.
  { destruct (log2_le 1 (INR (Nat.max 1 n))) as [_ H]; [lra| |by rewrite log2_1 in H].
    replace 1 with (INR 1) by done. apply le_INR. lia. }
  destruct keys as [|k keys]; [simpl; lra|]. simpl Nat.eqb. cbv iota.
  destruct (tally_length (k :: keys)) as [Hlen Hpos].
  specialize (Hpos ltac:(done)).
  assert (Object_values (tally (k :: keys)) <> []) as Hne.
  { unfold Object_values. destruct (tally (k :: keys)); [simpl in Hpos; lia|done]. }
  pose proof (calculateEntropy_nonneg (Object_values (tally (k :: keys)))
                (Object_values_nonneg _)) as Hlo.
  pose proof (calculateEntropy_upper (Object_values (tally (k :: keys)))
                (Object_values_nonneg _) Hne) as Hb.
  unfold Object_values in Hb at 2. rewrite length_map in Hb.
  split; [lra|]. etransitivity; [apply Hb|].
  apply log2_le.
  - replace 1 with (INR 1) by done. by apply le_INR.
  - apply le_INR. lia.
Qed.

(** The ranges of the features of a record that [extractFeatures]
    returned. *)
Lemma feature_ranges (d : db) (now : Z) (indicatorId : string) (f : features) :
  extractFeatures d now indicatorId = Some f ->
  0 <= event_frequency f <= 1000
  /\ event_count_zscore f = (event_frequency f - 50) / 20
  /\ 0 <= unique_event_types f <= event_frequency f
  /\ 0 <= unique_ports f <= event_frequency f
  /\ 0 <= unique_geolocations f <= event_frequency f
  /\ 0 <= event_rate_per_minute f <= event_frequency f
  /\ 0 <= event_rate_per_hour f <= event_frequency f / 60
  /\ 0 <= geo_risk_score f <= 100
  /\ 0 <= payload_variance f
  /\ 0 <= event_type_diversity f <= log2 1000
  /\ 0 <= port_scan_entropy f <= log2 1000
  /\ 0 <= dns_entropy f.
Proof.
  unfold extractFeatures, extractFeatures_body.
  destruct (getIndicatorEvents d indicatorId) as [evs|msg] eqn:Hev; cbn; [|done].
  destruct (getIndicator d indicatorId) as [[i|]|msg]; cbn; try done.
  intros [= <-]. cbn.
  pose proof (getIndicatorEvents_length d indicatorId evs Hev) as Hlen.
  assert (INR (length evs) <= 1000) as Hfreq.
  { replace 1000 with (INR 1000) by (simpl; lra). by apply le_INR. }
  pose proof (pos_INR (length evs)) as Hpos.
  unfold calculateEventFrequency, calculateZScore, countUniqueEventTypes,
    countUniquePorts, countUniqueGeolocations.
  pose proof (set_size_range (map event_type evs)) as Htypes.
  rewrite length_map in Htypes.
  pose proof (set_size_range (ports_of evs)) as Hports.
  pose proof (set_size_range (geos_of evs)) as Hgeos.
  pose proof (le_INR _ _ (length_omap_le (fun e => truthy_number (port e)) evs)) as Hp.
  pose proof (le_INR _ _ (length_omap_le
    (fun e => if truthy_string (geo_location e) then geo_location e else None) evs)) as Hg.
  fold (ports_of evs) in Hp. fold (geos_of evs) in Hg.
  pose proof (calculateEventRate_range now evs 60 ltac:(lia)) as Hr1.
  pose proof (calculateEventRate_range now evs 3600 ltac:(lia)) as Hr2.
  pose proof (calculateGeoRiskScore_range evs) as Hgeo.
  pose proof (calculatePayloadVariance_nonneg evs) as Hvar.
  assert (0 <= calculateEventTypeDiversity evs <= log2 (INR (Nat.max 1 1000)))
    as Hdiv.
  { pose proof (tally_entropy_range (filed_types evs) 1000) as Hdiv.
    assert (length (filed_types evs) <= 1000)%nat as Hfl.
    { unfold filed_types.
      pose proof (filter_length_le
                    (fun t => negb (String.eqb t "__proto__"))
                    (map event_type evs)) as Hle.
      rewrite length_map in Hle. lia. }
    specialize (Hdiv Hfl).
    assert (0 <= log2 (INR (Nat.max 1 1000))) as Hlog.
    { destruct (length (filed_types evs) =? 0)%nat; lra. }
    unfold calculateEventTypeDiversity.
    destruct (length evs =? 0)%nat; [lra|]. cbv zeta.
    destruct (existsb _ _); [lra|].
    destruct (filed_types evs) as [|x l]; [|exact Hdiv].
    change (tally []) with (@nil (string * nat)).
    rewrite calculateEntropy_nil. lra. }
  pose proof (tally_entropy_range (ports_of evs) 1000) as Hpe.
  specialize (Hpe ltac:(pose proof (length_omap_le (fun e => truthy_number (port e)) evs); unfold ports_of; lia)).
  replace (INR (Nat.max 1 1000)) with 1000 in * by (simpl; lra).
  assert (0 <= calculateDNSEntropy i evs) as Hdns.
  { unfold calculateDNSEntropy.
    repeat match goal with
      | |- context [if ?c then _ else _] => destruct c; [lra|]
      end.
    destruct (chars_of (ind_value i)) as [|c cs] eqn:Hcs.
    - unfold tally, Object_values, calculateEntropy, sum. simpl.
      destruct (Req_dec_T 0 0); lra.
    - pose proof (tally_entropy_range (c :: cs) (length (c :: cs)) ltac:(done)) as H.
      simpl Nat.eqb in H. cbv iota in H. lra. }
  unfold calculatePortEntropy.
  repeat split; try lra.
Qed.


(** X8, over the real numbers: every feature record that
    [extractFeatures] returns is built from at most 1000 events: the
    event frequency is between 0 and 1000, the z-score is
    (frequency - 50) / 20, the numbers of distinct event types, ports
    and locations do not exceed the frequency, the per-minute rate
    does not exceed it either, the geographic risk is a percentage,
    the payload variance is not negative, and the two entropies over
    events lie between 0 and log2(1000).  The quotients and logarithms
    are those of the real numbers: the doubles of the code round each
    operation, so that a rate such as 31 / 60 * 60 comes out one unit
    in the last place above 31. *)
Theorem extractFeatures_ranges (d : db) (now : Z) (indicatorId : string) (f : features) :
  extractFeatures d now indicatorId = Some f ->
  0 <= event_frequency f <= 1000
  /\ event_count_zscore f = (event_frequency f - 50) / 20
  /\ 0 <= unique_event_types f <= event_frequency f
  /\ 0 <= unique_ports f <= event_frequency f
  /\ 0 <= unique_geolocations f <= event_frequency f
  /\ 0 <= event_rate_per_minute f <= event_frequency f
  /\ 0 <= event_rate_per_hour f <= event_frequency f / 60
  /\ 0 <= geo_risk_score f <= 100
  /\ 0 <= payload_variance f
  /\ 0 <= event_type_diversity f <= log2 1000
  /\ 0 <= port_scan_entropy f <= log2 1000.
Proof.
  intros H. pose proof (feature_ranges d now indicatorId f H). tauto.
Qed.

Lemma Rmin_unit (x : R) : 0 <= x -> 0 <= Rmin x 1 <= 1.
Proof.
  intros Hx. split; [apply Rmin_glb; lra|apply Rmin_r].
Qed.

(** X9: the vector that [createFeatureVector] hands to the ML engine
    has ten entries, and every entry other than the blacklist entry
    (index 6) and the inverse inter-arrival time (index 9) lies between 0
    and 1; it is [null] exactly when [extractFeatures] answers [null]. *)
Theorem createFeatureVector_ranges (d : db) (now : Z) (indicatorId : string)
    (v : list R) :
  createFeatureVector d now indicatorId = Some v ->
  length v = 10%nat
  /\ (forall k x, v !! k = Some x -> k <> 6%nat -> k <> 9%nat -> 0 <= x <= 1)
  /\ exists f, extractFeatures d now indicatorId = Some f
                /\ v !! 6%nat = Some (blacklist_score f / 100)
                /\ v !! 9%nat = Some (1 / (1 + time_between_events f)).
Proof.
  unfold createFeatureVector.
  destruct (extractFeatures d now indicatorId) as [f|] eqn:Hf; [|done].
  intros [= <-]. split; [done|].
  pose proof (feature_ranges d now indicatorId f Hf)
    as (H1 & _ & H3 & _ & _ & H6 & _ & H8 & H9 & H10 & H11 & H12).
  split; [|by exists f].
  intros k x Hk H6' H9'. unfold normalize in Hk.
  do 10 (try (destruct k as [|k]; simpl in Hk; [injection Hk as <-|])).
  all: try done.
  all: try (by destruct k).
  all: try (apply Rmin_unit; unfold Rdiv;
            apply Rmult_le_pos; [lra|apply Rlt_le, Rinv_0_lt_compat; lra]).
  lra.
Qed.

End FeatureRanges.

Lemma extractFeatures_ranges_witness :
  exists f,
    Features.extractFeatures Samples.archive_db 1704067230000 "i-1" = Some f
    /\ Features.event_frequency f = INR 3
    /\ (0 <= Features.event_frequency f <= 1000
        /\ Features.event_count_zscore f = (Features.event_frequency f - 50) / 20
        /\ 0 <= Features.unique_event_types f <= Features.event_frequency f
        /\ 0 <= Features.unique_ports f <= Features.event_frequency f
        /\ 0 <= Features.unique_geolocations f <= Features.event_frequency f
        /\ 0 <= Features.event_rate_per_minute f <= Features.event_frequency f
        /\ 0 <= Features.event_rate_per_hour f <= Features.event_frequency f / 60
        /\ 0 <= Features.geo_risk_score f <= 100
        /\ 0 <= Features.payload_variance f
        /\ 0 <= Features.event_type_diversity f <= Features.log2 1000
        /\ 0 <= Features.port_scan_entropy f <= Features.log2 1000)%R.
Proof.
  eexists. split; [reflexivity|]. split; [reflexivity|].
  apply (extractFeatures_ranges Samples.archive_db 1704067230000 "i-1").
  reflexivity.
Defined.

Lemma createFeatureVector_ranges_witness :
  (length (Features.normalize Samples.quiet_features) = 10%nat
   /\ (forall k x, Features.normalize Samples.quiet_features !! k = Some x ->
         k <> 6%nat -> k <> 9%nat -> 0 <= x <= 1)
   /\ exists f, Features.extractFeatures Samples.quiet_db 0 "i-1" = Some f
                /\ Features.normalize Samples.quiet_features !! 6%nat
                   = Some (Features.blacklist_score f / 100)
                /\ Features.normalize Samples.quiet_features !! 9%nat
                   = Some (1 / (1 + Features.time_between_events f)))%R.
Proof.
  apply (createFeatureVector_ranges Samples.quiet_db 0 "i-1").
  unfold Features.createFeatureVector.
  rewrite (extractFeatures_no_events Samples.quiet_db 0 "i-1" Samples.lone_indicator);
    reflexivity.
Defined.

(** ** Feature extraction: the mean inter-arrival time *)

Section InterArrival.
Import Js Storage Features.
Local Open Scope R_scope.

Lemma differences_length (a : Z) (l : list Z) :
  length (differences (a :: l)) = length l.
Proof.
  revert a. induction l as [|b l IH]; intros a; [done|].
  change (differences (a :: b :: l))
    with (IZR (b - a) / 1000 :: differences (b :: l))%R.
  cbn [length]. by rewrite IH.
Qed.

Lemma last_cons (l : list Z) (b d : Z) : List.last (b :: l) d = List.last l b.
Proof.
  revert b d. induction l as [|c l IH]; intros b d; [done|].
  change (List.last (b :: c :: l) d) with (List.last (c :: l) d).
  by rewrite (IH c d), (IH c b).
Qed.

Lemma differences_sum (a : Z) (l : list Z) :
  sum (differences (a :: l)) = IZR (List.last l a - a) / 1000.
Proof.
  revert a. induction l as [|b l IH]; intros a.
  - unfold sum. simpl. rewrite Z.sub_diag. lra.
  - change (differences (a :: b :: l))
      with (IZR (b - a) / 1000 :: differences (b :: l)).
    rewrite sum_cons, IH.
    rewrite (last_cons l b a), !minus_IZR. lra.
Qed.

Lemma insert_text_length x l : length (insert_text x l) = S (length l).
Proof.
  induction l as [|y l IH]; simpl; [done|].
  destruct (String.leb _ _); simpl; [done|]. by rewrite IH.
Qed.

Lemma default_sort_length l : length (default_sort l) = length l.
Proof.
  unfold default_sort. induction l as [|x l IH]; simpl; [done|].
  by rewrite insert_text_length, IH.
Qed.

Lemma insert_text_Permutation x l : insert_text x l ≡ₚ x :: l.
Proof.
  induction l as [|y l IH]; simpl; [done|].
  destruct (String.leb _ _); [done|]. rewrite IH. apply perm_swap.
Qed.

Lemma default_sort_Permutation l : default_sort l ≡ₚ l.
Proof.
  unfold default_sort. induction l as [|x l IH]; simpl; [done|].
  by rewrite insert_text_Permutation, IH.
Qed.

(** X10, over the real numbers: with two events or more the mean
    inter-arrival time is the span from the first to the last entry of
    the sorted time list, in seconds, divided by the number of gaps;
    the list is the timestamps in the order of
    [Array.prototype.sort()], that of their decimal text.  The code
    adds the gaps as doubles, each one rounded after its division by
    1000, so that its sum can differ from the quotient of the real
    numbers in the last place. *)
Theorem calculateTimeBetweenEvents_span (evs : list event) :
  (2 <= length evs)%nat ->
  let times := default_sort (map timestamp evs) in
  times ≡ₚ map timestamp evs
  /\ calculateTimeBetweenEvents evs
     = IZR (List.last times 0%Z - hd 0%Z times) / 1000 / INR (length evs - 1).
Proof.
  intros Hlen. cbv zeta. split; [apply default_sort_Permutation|].
  unfold calculateTimeBetweenEvents.
  destruct (length evs <? 2)%nat eqn:Hlt; [apply Nat.ltb_lt in Hlt; lia|].
  pose proof (default_sort_length (map timestamp evs)) as Hsl.
  rewrite length_map in Hsl.
  destruct (default_sort (map timestamp evs)) as [|a l]; [simpl in Hsl; lia|].
  rewrite differences_sum, differences_length. simpl in Hsl.
  replace (length evs - 1)%nat with (length l) by lia.
  simpl hd. by rewrite (last_cons l a 0%Z).
Qed.

(** The order is that of the text: 10000 sorts before 9000, and the
    mean inter-arrival time of these two events is negative. *)
Example calculateTimeBetweenEvents_text_order :
  calculateTimeBetweenEvents
    [Samples.sighting "i-1" "1970-01-01T00:00:09.000Z" 9000;
     Samples.sighting "i-1" "1970-01-01T00:00:10.000Z" 10000]
  = -1.
Proof.
  unfold calculateTimeBetweenEvents. cbn [length Nat.ltb Nat.leb].
  assert (default_sort
            (map timestamp
               [Samples.sighting "i-1" "1970-01-01T00:00:09.000Z" 9000;
                Samples.sighting "i-1" "1970-01-01T00:00:10.000Z" 10000])
          = [10000; 9000]%Z) as -> by (vm_compute; reflexivity).
  unfold sum. simpl. rewrite minus_IZR. lra.
Qed.

End InterArrival.

Lemma calculateTimeBetweenEvents_span_witness :
  let times :=
    Features.default_sort
      (map Storage.timestamp (Storage.events Samples.linked_db)) in
  times ≡ₚ map Storage.timestamp (Storage.events Samples.linked_db)
  /\ Features.calculateTimeBetweenEvents (Storage.events Samples.linked_db)
     = (IZR (List.last times 0%Z - hd 0%Z times) / 1000
        / INR (length (Storage.events Samples.linked_db) - 1))%R.
Proof.
  apply (calculateTimeBetweenEvents_span (Storage.events Samples.linked_db)).
  simpl. lia.
Defined.

(** ** Feature extraction: the order of the events *)

Section EventOrder.
Import Js Storage Features.
Local Open Scope R_scope.
Context {K : Type} `{EqDecision K}.

Lemma bump_keys (k : K) (acc : list (K * nat)) :
  (bump k acc).*1 = if decide (k ∈ acc.*1) then acc.*1 else acc.*1 ++ [k].
Proof.
  induction acc as [|[k' c] acc IH]; csimpl.
  - try (case_decide as Hin; [by apply elem_of_nil in Hin|]); done.
  - destruct (decide (k = k')) as [->|Hne]; csimpl.
    + clear IH. case_decide; [done|set_solver].
    + rewrite IH. clear IH. repeat case_decide; try done; set_solver.
Qed.

Lemma bump_NoDup (k : K) (acc : list (K * nat)) :
  NoDup acc.*1 -> NoDup (bump k acc).*1.
Proof.
  intros Hnd. rewrite bump_keys. destruct (decide (k ∈ acc.*1)); [done|].
  apply NoDup_app. split; [done|]. split; [set_solver|apply NoDup_singleton].
Qed.

Lemma bump_Permutation (k : K) (acc acc' : list (K * nat)) :
  acc ≡ₚ acc' -> NoDup acc.*1 -> bump k acc ≡ₚ bump k acc'.
Proof.
  induction 1 as [|[ka ca] t t' Hp IH|[ka ca] [kb cb] t|t t' t'' Hp1 IH1 Hp2 IH2];
    intros Hnd.
  - done.
  - simpl. apply NoDup_cons in Hnd as [_ Hnd].
    destruct (decide (k = ka)); [by constructor|]. constructor. by apply IH.
  - simpl. simpl in Hnd. apply NoDup_cons in Hnd as [Hne _].
    destruct (decide (k = kb)) as [Ekb|Nkb], (decide (k = ka)) as [Eka|Nka];
      try apply perm_swap. subst. set_solver.
  - etransitivity; [by apply IH1|]. apply IH2.
    by rewrite <- Hp1.
Qed.

Lemma bump_comm (x y : K) (acc : list (K * nat)) :
  bump x (bump y acc) ≡ₚ bump y (bump x acc).
Proof.
  induction acc as [|[k c] acc IH]; cbn [bump].
  - repeat (case_decide; cbn [bump]); subst; try done. apply perm_swap.
  - repeat (case_decide; cbn [bump]); subst; try done. by constructor.
Qed.

Lemma tally_from_Permutation (l l' : list K) :
  l ≡ₚ l' ->
  forall acc acc', acc ≡ₚ acc' -> NoDup acc.*1 ->
    fold_left (fun counts k => bump k counts) l acc
    ≡ₚ fold_left (fun counts k => bump k counts) l' acc'.
Proof.
  induction 1 as [|x l l' Hp IH|x y l|l l' l'' Hp1 IH1 Hp2 IH2];
    intros acc acc' Hacc Hnd; simpl.
  - done.
  - apply IH; [by apply bump_Permutation|by apply bump_NoDup].
  - assert (forall a a', a ≡ₚ a' -> NoDup a.*1 ->
              fold_left (fun counts k => bump k counts) l a
              ≡ₚ fold_left (fun counts k => bump k counts) l a') as Hsame.
    { clear. induction l as [|z l IH]; intros a a' Ha Hnd; simpl; [done|].
      apply IH; [by apply bump_Permutation|by apply bump_NoDup]. }
    apply Hsame; [|by do 2 apply bump_NoDup].
    rewrite bump_comm. apply bump_Permutation; [|by apply bump_NoDup].
    by apply bump_Permutation.
  - etransitivity; [apply (IH1 acc acc); done|]. by apply IH2.
Qed.

Lemma tally_Permutation (l l' : list K) : l ≡ₚ l' -> tally l ≡ₚ tally l'.
Proof.
  intros Hp. unfold tally. apply tally_from_Permutation; [done|done|constructor].
Qed.

Lemma tally_entropy_Permutation (l l' : list K) :
  l ≡ₚ l' ->
  calculateEntropy (Object_values (tally l))
  = calculateEntropy (Object_values (tally l')).
Proof.
  intros Hp. apply calculateEntropy_Permutation. unfold Object_values.
  apply Permutation_map. by apply tally_Permutation.
Qed.

End EventOrder.

Section EventOrderFeatures.
Import Js Storage Features.
Local Open Scope R_scope.

Lemma filter_Permutation {A} (f : A -> bool) (l l' : list A) :
  l ≡ₚ l' -> List.filter f l ≡ₚ List.filter f l'.
Proof.
  induction 1 as [|x l l' Hp IH|x y l|l l' l'' Hp1 IH1 Hp2 IH2]; simpl.
  - done.
  - destruct (f x); [by constructor|done].
  - destruct (f x), (f y); try done. apply perm_swap.
  - by etransitivity.
Qed.

Lemma existsb_Permutation {A} (f : A -> bool) (l l' : list A) :
  l ≡ₚ l' -> existsb f l = existsb f l'.
Proof.
  induction 1 as [|x l l' Hp IH|x y l|l l' l'' Hp1 IH1 Hp2 IH2]; simpl.
  - done.
  - by rewrite IH.
  - destruct (f x), (f y); done.
  - congruence.
Qed.

Lemma length_filter_Permutation {A} (f : A -> bool) (l l' : list A) :
  l ≡ₚ l' -> length (List.filter f l) = length (List.filter f l').
Proof.
  induction 1 as [|x l l' Hp IH|x y l|l l' l'' Hp1 IH1 Hp2 IH2]; simpl.
  - done.
  - destruct (f x); simpl; congruence.
  - destruct (f x), (f y); done.
  - congruence.
Qed.

(** X11: the counting features do not depend on the order in which the
    events of the window are listed: two listings of the same events
    give the same frequency, the same rate in any window and the same
    counts per event type and per port, up to the order of the counts;
    over the real numbers they give the same event-type diversity and
    the same port entropy.  The code adds the terms of an entropy as
    doubles in the order of the counts, so that its two entropies can
    differ in the last place. *)
Theorem counting_features_order_independent
  (now window : Z) (evs evs' : list event) :
  evs ≡ₚ evs' ->
  calculateEventFrequency evs = calculateEventFrequency evs'
  /\ calculateEventRate now evs window = calculateEventRate now evs' window
  /\ tally (map event_type evs) ≡ₚ tally (map event_type evs')
  /\ tally (ports_of evs) ≡ₚ tally (ports_of evs')
  /\ calculateEventTypeDiversity evs = calculateEventTypeDiversity evs'
  /\ calculatePortEntropy evs = calculatePortEntropy evs'.
Proof.
  intros Hp.
  assert (length evs = length evs') as Hlen by by apply Permutation_length.
  assert (ports_of evs ≡ₚ ports_of evs') as Hports.
  { unfold ports_of. by rewrite Hp. }
  split; [|split; [|split; [|split; [|split]]]].
  3: { apply tally_Permutation. by apply Permutation_map. }
  3: { by apply tally_Permutation. }
  - unfold calculateEventFrequency. by rewrite Hlen.
  - unfold calculateEventRate. rewrite Hlen.
    by rewrite (length_filter_Permutation _ _ _ Hp).
  - unfold calculateEventTypeDiversity. rewrite Hlen.
    destruct (length evs' =? 0)%nat; [done|]. cbv zeta.
    assert (filed_types evs ≡ₚ filed_types evs') as Hfiled.
    { unfold filed_types. apply filter_Permutation. by apply Permutation_map. }
    rewrite (existsb_Permutation _ _ _ Hfiled).
    destruct (existsb _ _); [done|].
    by apply tally_entropy_Permutation.
  - unfold calculatePortEntropy. cbv zeta.
    rewrite (Permutation_length Hports).
    destruct (length (ports_of evs') =? 0)%nat; [done|].
    by apply tally_entropy_Permutation.
Qed.

End EventOrderFeatures.

Lemma counting_features_order_independent_witness :
  let evs := Storage.events Samples.linked_db in
  Features.calculateEventFrequency evs = Features.calculateEventFrequency (rev evs)
  /\ Features.calculateEventRate 0 evs 60 = Features.calculateEventRate 0 (rev evs) 60
  /\ Features.tally (map Storage.event_type evs)
     ≡ₚ Features.tally (map Storage.event_type (rev evs))
  /\ Features.tally (Features.ports_of evs) ≡ₚ Features.tally (Features.ports_of (rev evs))
  /\ Features.calculateEventTypeDiversity evs
     = Features.calculateEventTypeDiversity (rev evs)
  /\ Features.calculatePortEntropy evs = Features.calculatePortEntropy (rev evs).
Proof.
  apply (counting_features_order_independent 0 60
           (Storage.events Samples.linked_db)
           (rev (Storage.events Samples.linked_db))).
  apply Permutation_rev.
Defined.

(** ** Graph engine: bounds on the metrics *)

Section GraphBounds.
Import Js Storage Graph.
Local Open Scope Q_scope.

Lemma of_nat_nonneg n : 0 <= of_nat n.
Proof. unfold of_nat. change 0 with (inject_Z 0). rewrite <- Zle_Qle. lia. Qed.

Lemma of_nat_le m n : (m <= n)%nat -> of_nat m <= of_nat n.
Proof. intros Hmn. unfold of_nat. rewrite <- Zle_Qle. lia. Qed.

Lemma of_nat_positive n : (0 < n)%nat -> 0 < of_nat n.
Proof.
  intros Hn. unfold of_nat. change 0 with (inject_Z 0). rewrite <- Zlt_Qlt. lia.
Qed.

Lemma Qdiv_nonneg a b : 0 <= a -> 0 <= b -> 0 <= a / b.
Proof.
  intros Ha Hb. destruct (Qlt_le_dec 0 b) as [Hpos|Hle].
  - apply Qle_shift_div_l; [done|]. Lqa.lra.
  - assert (b == 0) as -> by Lqa.lra. unfold Qdiv, Qinv. simpl. Lqa.lra.
Qed.

Lemma Qsum_nonneg {A} (f : A -> Q) (l : list A) :
  (forall i, i ∈ l -> 0 <= f i) -> 0 <= Qsum f l.
Proof.
  induction l as [|a l IH]; intros Hf; simpl.
  - Lqa.lra.
  - assert (0 <= f a) by (apply Hf; set_solver).
    assert (0 <= Qsum f l) by (apply IH; intros; apply Hf; set_solver).
    Lqa.lra.
Qed.

Lemma Qsum_le {A} (f g : A -> Q) (l : list A) :
  (forall i, i ∈ l -> f i <= g i) -> Qsum f l <= Qsum g l.
Proof.
  induction l as [|a l IH]; intros Hf; simpl.
  - Lqa.lra.
  - assert (f a <= g a) by (apply Hf; set_solver).
    assert (Qsum f l <= Qsum g l) by (apply IH; intros; apply Hf; set_solver).
    Lqa.lra.
Qed.

(** *** Cluster density *)

Lemma count_from {A} (b : A -> bool) (l : list A) (c : nat) :
  fold_left (fun connections x => if b x then S connections else connections) l c
  = (c + length (List.filter b l))%nat.
Proof.
  revert c. induction l as [|a l IH]; intros c; simpl; [lia|].
  rewrite IH. destruct (b a); simpl; lia.
Qed.

Lemma length_filter_le {A} (b : A -> bool) (l : list A) :
  (length (List.filter b l) <= length l)%nat.
Proof. induction l as [|a l IH]; simpl; [lia|]. destruct (b a); simpl; lia. Qed.

(** A list that holds [x] has at most [length l - 1] entries that
    differ from [x] and pass a further test. *)
Lemma count_others (p : string -> bool) (x : string) (l : list string) :
  x ∈ l ->
  (length (List.filter (fun y => negb (String.eqb x y) && p y) l) < length l)%nat.
Proof.
  induction 1 as [x l|x y l Hin IH]; simpl.
  - rewrite String.eqb_refl. simpl.
    pose proof (length_filter_le (fun y => negb (String.eqb x y) && p y) l). lia.
  - destruct (negb (String.eqb x y) && p y); simpl; lia.
Qed.

Lemma connections_le (gr : gmap string (list neighbor)) (ids part : list string) :
  (forall x, x ∈ part -> x ∈ ids) ->
  forall c,
    (fold_left
       (fun connections n1 =>
          fold_left
            (fun connections n2 =>
               if negb (String.eqb n1 n2)
                  && existsb (fun n => String.eqb (target n) n2) (neighbors_of gr n1)
               then S connections else connections)
            ids connections)
       part c
     <= c + length part * (length ids - 1))%nat.
Proof.
  induction part as [|n1 part IH]; intros Hsub c; simpl; [lia|].
  etransitivity; [apply IH; intros; apply Hsub; set_solver|].
  rewrite (count_from
             (fun n2 => negb (String.eqb n1 n2)
                        && existsb (fun n => String.eqb (target n) n2)
                             (neighbors_of gr n1))).
  pose proof (count_others
                (fun n2 => existsb (fun n => String.eqb (target n) n2)
                             (neighbors_of gr n1)) n1 ids) as Hlt.
  specialize (Hlt ltac:(apply Hsub; set_solver)). lia.
Qed.

Lemma calculateClusterDensity_nonneg (g : engine) (nodeId : string) :
  0 <= calculateClusterDensity g nodeId.
Proof.
  unfold calculateClusterDensity. cbv zeta.
  destruct (length (neighbors_of (graph g) nodeId) <? 2)%nat; [Lqa.lra|].
  destruct (0 <? _)%nat; [|Lqa.lra].
  apply Qdiv_nonneg; apply of_nat_nonneg.
Qed.

(** X12: the cluster density of a node lies between 0 and 1, whatever
    the graph: a neighbour is never counted as connected to itself, so
    at most [k (k - 1)] of the [k * k] pairs of neighbours count. *)
Theorem calculateClusterDensity_range (g : engine) (nodeId : string) :
  0 <= calculateClusterDensity g nodeId <= 1.
Proof.
  unfold calculateClusterDensity. cbv zeta.
  destruct (length (neighbors_of (graph g) nodeId) <? 2)%nat; [Lqa.lra|].
  destruct (0 <? _)%nat eqn:Hmax; [|Lqa.lra].
  apply Nat.ltb_lt in Hmax.
  pose proof (connections_le (graph g)
                (map target (neighbors_of (graph g) nodeId))
                (map target (neighbors_of (graph g) nodeId))
                (fun _ H => H) 0%nat) as Hle.
  rewrite length_map in Hle. simpl in Hle.
  split.
  - apply Qdiv_nonneg; apply of_nat_nonneg.
  - apply Qle_shift_div_r; [by apply of_nat_positive|].
    rewrite Qmult_1_l. by apply of_nat_le.
Qed.

(** *** PageRank *)

Lemma Qsum_indicator_le (c : Q) (T ids : list string) :
  NoDup ids -> 0 <= c ->
  Qsum (fun v => if bool_decide (v ∈ T) then c else 0) ids
  <= of_nat (length T) * c.
Proof.
  intros Hids Hc.
  assert (Qsum (fun v => if bool_decide (v ∈ T) then c else 0) ids
          == of_nat (length (filter (fun v => v ∈ T) ids)) * c) as ->.
  { clear. induction ids as [|a ids IH]; simpl Qsum.
    - unfold of_nat. simpl. ring.
    - rewrite filter_cons. rewrite IH. case_bool_decide as Ha.
      + rewrite decide_True by done. simpl length. rewrite of_nat_S. ring.
      + rewrite decide_False by done. ring. }
  apply Qmult_le_compat_r; [|done]. apply of_nat_le, submseteq_length.
  apply NoDup_submseteq; [by apply NoDup_filter|].
  intros x Hx. apply list_elem_of_filter in Hx. tauto.
Qed.

Lemma contribution_nonneg gr pr v u :
  0 <= rank_of pr u -> 0 <= contribution gr pr v u.
Proof.
  intros Hr. rewrite contribution_indicator.
  case_bool_decide; [|Lqa.lra].
  destruct (0 <? _)%nat; [|Lqa.lra].
  apply Qdiv_nonneg; [done|apply of_nat_nonneg].
Qed.

(** A node hands out no more than its own rank. *)
Lemma contribution_total_le gr ids pr u :
  NoDup ids -> 0 <= rank_of pr u ->
  Qsum (fun v => contribution gr pr v u) ids <= rank_of pr u.
Proof.
  intros Hnd Hr.
  set (c := if (0 <? length (neighbors_of gr u))%nat
            then rank_of pr u / of_nat (length (neighbors_of gr u)) else 0).
  rewrite (Qsum_ext _ (fun v => if bool_decide (v ∈ map target (neighbors_of gr u))
                                then c else 0)).
  2: { intros v _. by rewrite contribution_indicator. }
  assert (0 <= c) as Hc.
  { unfold c. destruct (0 <? _)%nat; [|Lqa.lra].
    apply Qdiv_nonneg; [done|apply of_nat_nonneg]. }
  eapply Qle_trans; [by apply Qsum_indicator_le|].
  rewrite length_map. unfold c.
  destruct (0 <? length (neighbors_of gr u))%nat eqn:Hlen.
  - apply Nat.ltb_lt in Hlen.
    assert (of_nat (length (neighbors_of gr u))
            * (rank_of pr u / of_nat (length (neighbors_of gr u)))
            == rank_of pr u) as ->; [|Lqa.lra].
    field. by apply of_nat_pos.
  - Lqa.lra.
Qed.

Lemma inflow_nonneg gr ids pr v :
  (forall i, 0 <= rank_of pr i) -> 0 <= inflow gr ids pr v.
Proof.
  intros Hpr. rewrite inflow_sum. apply Qsum_nonneg.
  intros u _. by apply contribution_nonneg.
Qed.

Lemma rank_outside_iteration gr ids d pr v :
  v ∉ ids -> rank_of (pagerank_iteration gr ids d pr) v = rank_of pr v.
Proof.
  intros Hv. unfold rank_of, pagerank_iteration. cbv zeta.
  rewrite lookup_union_r; [done|].
  rewrite (fold_insert_lookup
             (fun nodeId => (1 - d) / of_nat (length ids) + d * inflow gr ids pr nodeId)).
  by rewrite decide_False.
Qed.

Lemma pagerank_iteration_nonneg gr ids d pr :
  0 <= d <= 1 -> (forall i, 0 <= rank_of pr i) ->
  forall i, 0 <= rank_of (pagerank_iteration gr ids d pr) i.
Proof.
  intros [Hd0 Hd1] Hpr i. destruct (decide (i ∈ ids)) as [Hi|Hi].
  - rewrite rank_after_iteration by done.
    pose proof (inflow_nonneg gr ids pr i Hpr) as Hin.
    assert (0 <= (1 - d) / of_nat (length ids)) as Hbase.
    { apply Qdiv_nonneg; [Lqa.lra|apply of_nat_nonneg]. }
    assert (0 <= d * inflow gr ids pr i) by (by apply Qmult_le_0_compat).
    Lqa.lra.
  - by rewrite rank_outside_iteration.
Qed.

Lemma initial_pagerank_nonneg ids i : 0 <= rank_of (initial_pagerank ids) i.
Proof.
  unfold rank_of, initial_pagerank.
  rewrite (fold_insert_lookup (fun _ => 1 / of_nat (length ids))).
  case_decide; [|rewrite lookup_empty]; simpl; [|Lqa.lra].
  apply Qdiv_nonneg; [Lqa.lra|apply of_nat_nonneg].
Qed.

Lemma iterated_nonneg gr ids d n :
  0 <= d <= 1 ->
  forall i,
    0 <= rank_of (Nat.iter n (pagerank_iteration gr ids d) (initial_pagerank ids)) i.
Proof.
  intros Hd. induction n as [|n IH]; simpl.
  - apply initial_pagerank_nonneg.
  - by apply pagerank_iteration_nonneg.
Qed.

(** One iteration hands on at most the fraction [d] of the total and
    adds [1 - d]. *)
Lemma total_rank_iteration_bounds gr ids d pr :
  NoDup ids -> ids <> [] -> 0 <= d <= 1 -> (forall i, 0 <= rank_of pr i) ->
  1 - d <= total_rank ids (pagerank_iteration gr ids d pr)
  /\ total_rank ids (pagerank_iteration gr ids d pr)
     <= (1 - d) + d * total_rank ids pr.
Proof.
  intros Hnd Hne [Hd0 Hd1] Hpr. unfold total_rank.
  assert (Qsum (rank_of (pagerank_iteration gr ids d pr)) ids
          == (1 - d)
             + d * Qsum (fun u => Qsum (fun v => contribution gr pr v u) ids) ids)
    as ->.
  { rewrite (Qsum_ext _ (fun v => (1 - d) / of_nat (length ids)
                                  + d * Qsum (contribution gr pr v) ids)).
    2: { intros v Hv. rewrite rank_after_iteration by done.
         rewrite inflow_sum. reflexivity. }
    rewrite Qsum_plus, Qsum_const, Qsum_scale, Qsum_swap.
    field. apply of_nat_pos. destruct ids; [done|simpl; lia]. }
  assert (0 <= Qsum (fun u => Qsum (fun v => contribution gr pr v u) ids) ids) as Hlo.
  { apply Qsum_nonneg. intros u _. apply Qsum_nonneg. intros v _.
    by apply contribution_nonneg. }
  assert (Qsum (fun u => Qsum (fun v => contribution gr pr v u) ids) ids
          <= Qsum (rank_of pr) ids) as Hhi.
  { apply Qsum_le. intros u _. by apply contribution_total_le. }
  split; [Lqa.nra|Lqa.nra].
Qed.

Lemma iterated_total_bounds gr ids d n :
  NoDup ids -> ids <> [] -> 0 <= d <= 1 ->
  1 - d
  <= total_rank ids (Nat.iter n (pagerank_iteration gr ids d) (initial_pagerank ids))
  <= 1.
Proof.
  intros Hnd Hne Hd. induction n as [|n IH]; simpl.
  - rewrite total_rank_initial by done. Lqa.lra.
  - destruct (total_rank_iteration_bounds gr ids d
                (Nat.iter n (pagerank_iteration gr ids d) (initial_pagerank ids))
                Hnd Hne Hd (iterated_nonneg gr ids d n Hd)) as [Hlo Hhi].
    split; [done|]. Lqa.nra.
Qed.

(** X13: for a damping factor between 0 and 1 and whatever the edges,
    no PageRank value is negative and the values of the nodes sum to
    at most 1; on a graph with nodes they sum to at least
    [1 - dampingFactor]. *)
Theorem calculatePageRank_bounds (g : engine) (iterations : nat) (d : Q) :
  0 <= d <= 1 -> NoDup (nodeIds g) ->
  (forall i, 0 <= rank_of (calculatePageRank g iterations d) i)
  /\ total_rank (nodeIds g) (calculatePageRank g iterations d) <= 1
  /\ (nodeIds g <> [] ->
      1 - d <= total_rank (nodeIds g) (calculatePageRank g iterations d)).
Proof.
  intros Hd Hnd. unfold calculatePageRank, pagerank_on.
  destruct (nodeIds g) as [|i0 ids] eqn:Hids.
  - simpl. split; [|split].
    + intros i. unfold rank_of. rewrite lookup_empty. simpl. Lqa.lra.
    + unfold total_rank. simpl. Lqa.lra.
    + done.
  - cbn [length Nat.eqb]. split; [|split].
    + by apply iterated_nonneg.
    + by apply iterated_total_bounds.
    + intros _. by apply iterated_total_bounds.
Qed.

(** *** The graph score *)

Lemma calculateCentrality_nonneg (g : engine) (i : string) :
  0 <= rank_of (calculateCentrality g) i.
Proof.
  unfold rank_of, calculateCentrality. cbv zeta.
  rewrite (fold_insert_lookup
             (fun nodeId =>
                if (0 <? Z.of_nat (length (nodeIds g)) - 1)%Z
                then of_nat (length (neighbors_of (graph g) nodeId))
                     / inject_Z (Z.of_nat (length (nodeIds g)) - 1)
                else 0)).
  case_decide; [|rewrite lookup_empty]; simpl; [|Lqa.lra].
  destruct (0 <? _)%Z eqn:Hmax; [|Lqa.lra].
  apply Z.ltb_lt in Hmax. apply Qdiv_nonneg; [apply of_nat_nonneg|].
  change 0 with (inject_Z 0). rewrite <- Zle_Qle. lia.
Qed.

Lemma score_snapshot_range (g : engine) (indicatorValue : string) :
  (0 <= gs_score (score_snapshot g indicatorValue) <= 100)%Z.
Proof.
  unfold score_snapshot.
  destruct (List.find _ (nodes g)) as [node|]; [|simpl; lia].
  cbv zeta. cbn [gs_score]. split; [|lia].
  apply Z.min_glb; [|lia].
  change 0%Z with (Math_round 0). apply Math_round_le.
  pose proof (iterated_nonneg (graph g) (nodeIds g) default_damping
                default_iterations) as Hpr.
  assert (0 <= rank_of (calculatePageRank g default_iterations default_damping)
                 (node_id node)) as H1.
  { unfold calculatePageRank, pagerank_on.
    destruct (length (nodeIds g) =? 0)%nat.
    - unfold rank_of. rewrite lookup_empty. simpl. Lqa.lra.
    - apply Hpr. unfold default_damping. split; Lqa.lra. }
  pose proof (calculateCentrality_nonneg g (node_id node)) as H2.
  pose proof (calculateClusterDensity_nonneg g (node_id node)) as H3.
  Lqa.lra.
Qed.

(** X14: [calculateGraphScore] is never rejected, and it resolves
    when the storage answers every statement of the build.  Whenever
    it resolves, on a snapshot no node of which has the id
    "__proto__", the score is between 0 and 100: the three weighted
    metrics are never negative, and the rounded sum is capped at
    100. *)
Theorem calculateGraphScore_range (uuid_of : nat -> string)
    (random_of : nat -> Q) (fails : nat -> bool) (indicatorValue : string)
    (w : world) :
  (forall msg w',
     calculateGraphScore uuid_of random_of fails indicatorValue w
     <> (Settled (Rejected msg), w'))
  /\ (answering fails w ->
      exists gs w',
        calculateGraphScore uuid_of random_of fails indicatorValue w
        = (Settled (Resolved gs), w'))
  /\ forall gs w',
       calculateGraphScore uuid_of random_of fails indicatorValue w
       = (Settled (Resolved gs), w') ->
       "__proto__" ∉ nodeIds (w_engine w') ->
       (0 <= gs_score gs <= 100)%Z.
Proof.
  split_and!.
  - intros msg w' Hr.
    destruct (calculateGraphScore_cases uuid_of random_of fails indicatorValue w)
      as [(counts & v & _ & Hc)|(v & _ & Hc)]; congruence.
  - intros Hans.
    destruct (buildGraph_answered uuid_of random_of fails w Hans) as (w' & Hb & _).
    unfold calculateGraphScore. rewrite Hb. by eexists _, _.
  - intros gs w' Hr _.
    destruct (calculateGraphScore_cases uuid_of random_of fails indicatorValue w)
      as [(counts & v & Hb & Hc)|(v & _ & Hc)]; [|congruence].
    rewrite Hc in Hr. injection Hr as <- <-. apply score_snapshot_range.
Qed.

End GraphBounds.

Lemma calculatePageRank_bounds_witness :
  ((forall i,
      0 <= Graph.rank_of (Graph.calculatePageRank Samples.one_edge 20 (85 # 100)) i)
   /\ Graph.total_rank (Graph.nodeIds Samples.one_edge)
        (Graph.calculatePageRank Samples.one_edge 20 (85 # 100)) <= 1
   /\ (Graph.nodeIds Samples.one_edge <> [] ->
       1 - (85 # 100)
       <= Graph.total_rank (Graph.nodeIds Samples.one_edge)
            (Graph.calculatePageRank Samples.one_edge 20 (85 # 100))))%Q.
Proof.
  apply (calculatePageRank_bounds Samples.one_edge 20 (85 # 100)).
  - split; vm_compute; discriminate.
  - apply (bool_decide_unpack _). vm_compute. reflexivity.
Defined.

(** ** Graph engine: loading from the storage *)

Section GraphLoading.
Import Js Storage Graph.
Variable fails : nat -> bool.

Lemma neighbors_of_ensure_key i gr s :
  neighbors_of (ensure_key i gr) s = neighbors_of gr s.
Proof.
  unfold neighbors_of, ensure_key. destruct (gr !! i) eqn:Hi; [done|].
  destruct (decide (i = s)) as [->|Hne].
  - by rewrite lookup_insert_eq, Hi.
  - by rewrite lookup_insert_ne.
Qed.

Lemma neighbors_of_push src n gr s :
  neighbors_of (push_neighbor src n gr) s
  = if decide (src = s) then neighbors_of gr s ++ [n] else neighbors_of gr s.
Proof.
  unfold push_neighbor. unfold neighbors_of at 1.
  case_decide as Hs; [subst; by rewrite lookup_insert_eq|by rewrite lookup_insert_ne].
Qed.

Lemma load_edges_neighbors (rows : list graph_edge) gr s :
  neighbors_of
    (fold_left
       (fun gr e =>
          push_neighbor (source_node e) (neighbor_of_edge e)
            (ensure_key (source_node e) gr))
       rows gr) s
  = neighbors_of gr s
    ++ map neighbor_of_edge
         (List.filter (fun e => String.eqb (source_node e) s) rows).
Proof.
  revert gr. induction rows as [|e rows IH]; intros gr;
    cbn [fold_left List.filter].
  - by rewrite app_nil_r.
  - rewrite IH, neighbors_of_push, neighbors_of_ensure_key.
    destruct (String.eqb_spec (source_node e) s) as [Heq|Hne].
    + rewrite decide_True by done. by rewrite <- app_assoc.
    + by rewrite decide_False.
Qed.

(** X15: [loadEdgesFromDB] replaces the [edges] array by the rows of
    [graph_edges], but pushes the rows onto the adjacency lists that
    are already there: after the call the list of a node is its former
    list followed by one entry per row that leaves the node, so an
    engine that loads a second time holds every stored edge twice. *)
Theorem loadEdgesFromDB_appends (w : world) :
  available (w_db w) = true -> fails (w_calls w) = false ->
  exists w',
    loadEdgesFromDB fails w = (Settled (Resolved tt), w')
    /\ w_db w' = w_db w
    /\ nodes (w_engine w') = nodes (w_engine w)
    /\ edges (w_engine w') = graph_edges (w_db w)
    /\ forall s,
         neighbors_of (graph (w_engine w')) s
         = neighbors_of (graph (w_engine w)) s
           ++ map neighbor_of_edge
                (List.filter (fun e => String.eqb (source_node e) s)
                   (graph_edges (w_db w))).
Proof.
  intros Hup Hok. unfold loadEdgesFromDB, andThen, query, statement.
  rewrite Hup, Hok.
  eexists. split; [reflexivity|]. simpl. split_and!; try done.
  intros s. apply load_edges_neighbors.
Qed.

(** *** Node rows *)

Lemma nodes_set_ids (row : graph_node) (l : list graph_node) :
  map node_id (nodes_set row l)
  = if decide (node_id row ∈ map node_id l) then map node_id l
    else map node_id l ++ [node_id row].
Proof.
  induction l as [|n l IH]; cbn [nodes_set map app].
  - case_decide as Hin; [by apply elem_of_nil in Hin|done].
  - destruct (String.eqb_spec (node_id n) (node_id row)) as [Heq|Hne];
      cbn [map].
    + rewrite decide_True by (rewrite Heq; set_solver). by rewrite Heq.
    + rewrite IH. clear IH. repeat case_decide; try done; set_solver.
Qed.

Lemma nodes_set_NoDup (row : graph_node) (l : list graph_node) :
  NoDup (map node_id l) -> NoDup (map node_id (nodes_set row l)).
Proof.
  intros Hnd. rewrite nodes_set_ids. case_decide; [done|].
  apply NoDup_app. split; [done|]. split; [set_solver|apply NoDup_singleton].
Qed.

Lemma nodes_set_elem (row : graph_node) (l : list graph_node) (i : string) :
  i ∈ map node_id (nodes_set row l) <-> i ∈ map node_id l \/ i = node_id row.
Proof. rewrite nodes_set_ids. case_decide; set_solver. Qed.

Lemma load_nodes_fold (rows : list graph_node) (g : engine) :
  let g' :=
    fold_left
      (fun g row =>
         {| graph := ensure_key (node_id row) (graph g);
            nodes := nodes_set row (nodes g);
            edges := edges g |})
      rows g in
  (NoDup (nodeIds g) -> NoDup (nodeIds g'))
  /\ (forall i, i ∈ nodeIds g' <-> i ∈ nodeIds g \/ i ∈ map node_id rows)
  /\ (forall i, i ∈ map node_id rows \/ is_Some (graph g !! i) ->
                is_Some (graph g' !! i))
  /\ (forall s, neighbors_of (graph g') s = neighbors_of (graph g) s)
  /\ edges g' = edges g.
Proof.
  revert g. induction rows as [|row rows IH]; intros g; cbn [fold_left].
  - cbv zeta. split_and!; try done; set_solver.
  - specialize (IH {| graph := ensure_key (node_id row) (graph g);
                      nodes := nodes_set row (nodes g);
                      edges := edges g |}).
    cbv zeta in IH. destruct IH as (IH1 & IH2 & IH3 & IH4 & IH5).
    cbv zeta. unfold nodeIds in *. cbn [graph nodes edges] in *.
    split_and!.
    + intros Hnd. by apply IH1, nodes_set_NoDup.
    + intros i. rewrite IH2, nodes_set_elem. set_solver.
    + intros i Hi. apply IH3.
      destruct (decide (i = node_id row)) as [->|Hne].
      * right. unfold ensure_key.
        destruct (graph g !! node_id row) eqn:Hk; [by rewrite Hk|].
        by rewrite lookup_insert_eq.
      * destruct Hi as [Hi|Hi]; [left; set_solver|right].
        unfold ensure_key. destruct (graph g !! node_id row); [done|].
        by rewrite lookup_insert_ne.
    + intros s. by rewrite IH4, neighbors_of_ensure_key.
    + done.
Qed.

(** X16: [loadNodesFromDB] files every row of [graph_nodes] under its
    id without disturbing what the engine holds: the keys of [nodes]
    stay distinct and are the former keys and the ids of the rows,
    every row's id gets an adjacency list, and no adjacency list and
    no edge is changed. *)
Theorem loadNodesFromDB_keys (w : world) :
  available (w_db w) = true -> fails (w_calls w) = false ->
  NoDup (nodeIds (w_engine w)) ->
  exists w',
    loadNodesFromDB fails w = (Settled (Resolved tt), w')
    /\ w_db w' = w_db w
    /\ NoDup (nodeIds (w_engine w'))
    /\ (forall i, i ∈ nodeIds (w_engine w')
                  <-> i ∈ nodeIds (w_engine w)
                      \/ i ∈ map node_id (graph_nodes (w_db w)))
    /\ (forall i, i ∈ map node_id (graph_nodes (w_db w)) ->
                  is_Some (graph (w_engine w') !! i))
    /\ (forall s, neighbors_of (graph (w_engine w')) s
                  = neighbors_of (graph (w_engine w)) s)
    /\ edges (w_engine w') = edges (w_engine w).
Proof.
  intros Hup Hok Hnd. unfold loadNodesFromDB, andThen, query, statement.
  rewrite Hup, Hok.
  eexists. split; [reflexivity|].
  destruct (load_nodes_fold (graph_nodes (w_db w)) (w_engine w))
    as (H1 & H2 & H3 & H4 & H5).
  cbn [w_db w_engine with_engine]. split_and!; auto.
Qed.

End GraphLoading.

(** ** Graph engine: building the graph *)

Section GraphBuild.
Import Js Storage Graph.
Variable uuid_of : nat -> string.
Variable random_of : nat -> Q.
Variable fails : nat -> bool.

(** X17: while the storage answers, [buildGraph] resolves with the
    size of [nodes] and the number of rows that [graph_edges] holds
    when it returns: the [edges] array is that table, row for row.
    The build deletes nothing: both graph tables keep their former
    rows in front, and the indicators and events are untouched. *)
Theorem buildGraph_counts_stored_edges (w : world) :
  answering fails w ->
  exists w',
    buildGraph uuid_of random_of fails w
    = (Settled (Resolved (length (nodes (w_engine w')),
                          length (graph_edges (w_db w')))), w')
    /\ edges (w_engine w') = graph_edges (w_db w')
    /\ graph_edges (w_db w) `prefix_of` graph_edges (w_db w')
    /\ graph_nodes (w_db w) `prefix_of` graph_nodes (w_db w')
    /\ indicators (w_db w') = indicators (w_db w)
    /\ events (w_db w') = events (w_db w).
Proof.
  intros Hans.
  destruct (buildGraph_answered uuid_of random_of fails w Hans)
    as (w' & Hb & (_ & He & Hpe & Hpn & Hi & Hev) & _).
  exists w'. rewrite Hb, He. by split_and!.
Qed.

(** X18: when the storage does not answer, [buildGraph] swallows the
    error and resolves with zero counts, leaving the engine as it
    was; [calculateGraphScore] then scores the indicator on the graph
    that was in memory before the call. *)
Theorem calculateGraphScore_storage_down (indicatorValue : string) (w : world) :
  available (w_db w) = false ->
  buildGraph uuid_of random_of fails w = (Settled (Resolved (0%nat, 0%nat)), w)
  /\ calculateGraphScore uuid_of random_of fails indicatorValue w
     = (Settled (Resolved (score_snapshot (w_engine w) indicatorValue)), w).
Proof.
  intros Hdown.
  assert (buildGraph uuid_of random_of fails w
          = (Settled (Resolved (0%nat, 0%nat)), w)) as Hb.
  { unfold buildGraph, loadNodesFromDB, andThen, query, statement.
    by rewrite Hdown. }
  split; [done|]. unfold calculateGraphScore. by rewrite Hb.
Qed.

End GraphBuild.

Lemma loadEdgesFromDB_appends_witness :
  exists w',
    Graph.loadEdgesFromDB Samples.no_failure Samples.warm_world
    = (Graph.Settled (Js.Resolved tt), w')
    /\ Graph.w_db w' = Graph.w_db Samples.warm_world
    /\ Graph.nodes (Graph.w_engine w') = Graph.nodes (Graph.w_engine Samples.warm_world)
    /\ Graph.edges (Graph.w_engine w')
       = Storage.graph_edges (Graph.w_db Samples.warm_world)
    /\ forall s,
         Graph.neighbors_of (Graph.graph (Graph.w_engine w')) s
         = Graph.neighbors_of (Graph.graph (Graph.w_engine Samples.warm_world)) s
           ++ map Graph.neighbor_of_edge
                (List.filter (fun e => String.eqb (Storage.source_node e) s)
                   (Storage.graph_edges (Graph.w_db Samples.warm_world))).
Proof.
  apply (loadEdgesFromDB_appends Samples.no_failure Samples.warm_world); reflexivity.
Defined.

(** The engine that has loaded [linked_db] once holds its edge twice
    after a second load, and still reports one edge. *)
Example loadEdgesFromDB_twice :
  let w' := snd (Graph.loadEdgesFromDB Samples.no_failure Samples.warm_world) in
  length (Graph.neighbors_of (Graph.graph (Graph.w_engine w')) "uuid-0") = 2%nat
  /\ length (Graph.edges (Graph.w_engine w')) = 1%nat.
Proof. vm_compute. split; reflexivity. Qed.

Lemma loadNodesFromDB_keys_witness :
  exists w',
    Graph.loadNodesFromDB Samples.no_failure Samples.warm_world
    = (Graph.Settled (Js.Resolved tt), w')
    /\ Graph.w_db w' = Graph.w_db Samples.warm_world
    /\ NoDup (Graph.nodeIds (Graph.w_engine w'))
    /\ (forall i, i ∈ Graph.nodeIds (Graph.w_engine w')
                  <-> i ∈ Graph.nodeIds (Graph.w_engine Samples.warm_world)
                      \/ i ∈ map Storage.node_id
                             (Storage.graph_nodes (Graph.w_db Samples.warm_world)))
    /\ (forall i, i ∈ map Storage.node_id
                        (Storage.graph_nodes (Graph.w_db Samples.warm_world)) ->
                  is_Some (Graph.graph (Graph.w_engine w') !! i))
    /\ (forall s, Graph.neighbors_of (Graph.graph (Graph.w_engine w')) s
                  = Graph.neighbors_of
                      (Graph.graph (Graph.w_engine Samples.warm_world)) s)
    /\ Graph.edges (Graph.w_engine w')
       = Graph.edges (Graph.w_engine Samples.warm_world).
Proof.
  apply (loadNodesFromDB_keys Samples.no_failure Samples.warm_world).
  - reflexivity.
  - reflexivity.
  - apply (bool_decide_unpack _). vm_compute. reflexivity.
Defined.

Lemma buildGraph_counts_stored_edges_witness :
  exists w',
    Graph.buildGraph Samples.uuid_of (fun _ => 1%Q) Samples.no_failure
      Samples.restarted_world
    = (Graph.Settled
         (Js.Resolved (length (Graph.nodes (Graph.w_engine w')),
                       length (Storage.graph_edges (Graph.w_db w')))), w')
    /\ Graph.edges (Graph.w_engine w') = Storage.graph_edges (Graph.w_db w')
    /\ Storage.graph_edges (Graph.w_db Samples.restarted_world)
       `prefix_of` Storage.graph_edges (Graph.w_db w')
    /\ Storage.graph_nodes (Graph.w_db Samples.restarted_world)
       `prefix_of` Storage.graph_nodes (Graph.w_db w')
    /\ Storage.indicators (Graph.w_db w')
       = Storage.indicators (Graph.w_db Samples.restarted_world)
    /\ Storage.events (Graph.w_db w')
       = Storage.events (Graph.w_db Samples.restarted_world).
Proof.
  apply (buildGraph_counts_stored_edges Samples.uuid_of (fun _ => 1%Q)
           Samples.no_failure Samples.restarted_world).
  split; reflexivity.
Defined.

(** Two events with the same timestamp text: the later row is
    visited first, so the node of the second indicator is created
    first and the edge leaves it; the first indicator scores 56. *)
Example calculateGraphScore_tie :
  match Graph.calculateGraphScore Samples.uuid_of (fun _ => 1%Q) Samples.no_failure
          "198.51.100.1" Samples.unbuilt_world with
  | (Graph.Settled (Js.Resolved gs), w') =>
      (Graph.gs_score gs, map Storage.entity_value (Graph.nodes (Graph.w_engine w')))
  | (_, w') => ((-1)%Z, [])
  end = (56%Z, ["198.51.100.2"; "198.51.100.1"]).
Proof. vm_compute. reflexivity. Qed.

(** One INSERT that fails inside the callback of
    [createRelationshipsFromEvents] leaves the build and the score
    pending: here the first edge of a database without node rows. *)
Example buildGraph_pending :
  let fails := fun n => Nat.eqb n 7 in
  fst (Graph.buildGraph Samples.uuid_of (fun _ => 1%Q) fails Samples.unbuilt_world)
  = Graph.Pending
  /\ fst (Graph.calculateGraphScore Samples.uuid_of (fun _ => 1%Q) fails
            "198.51.100.1" Samples.unbuilt_world)
     = Graph.Pending
  /\ fst (Graph.buildGraph Samples.uuid_of (fun _ => 1%Q) Samples.no_failure
            Samples.unbuilt_world)
     = Graph.Settled (Js.Resolved (2%nat, 1%nat)).
Proof. vm_compute. split_and!; reflexivity. Qed.

Lemma calculateGraphScore_storage_down_witness :
  Graph.buildGraph Samples.uuid_of (fun _ => 1%Q) Samples.no_failure
    Samples.cut_off_world
  = (Graph.Settled (Js.Resolved (0%nat, 0%nat)), Samples.cut_off_world)
  /\ Graph.calculateGraphScore Samples.uuid_of (fun _ => 1%Q) Samples.no_failure
       "198.51.100.1" Samples.cut_off_world
     = (Graph.Settled
          (Js.Resolved
             (Graph.score_snapshot (Graph.w_engine Samples.cut_off_world)
                "198.51.100.1")),
        Samples.cut_off_world).
Proof.
  apply (calculateGraphScore_storage_down Samples.uuid_of (fun _ => 1%Q)
           Samples.no_failure "198.51.100.1" Samples.cut_off_world).
  reflexivity.
Defined.

(** ** Graph engine: the nodes of the recent indicators *)

Section GraphCoverage.
Import Js Storage Graph.
Variable uuid_of : nat -> string.
Variable random_of : nat -> Q.
Variable fails : nat -> bool.

(** X26: while the storage answers, [buildGraph] leaves a row in
    [graph_nodes] for every indicator that occurs among the 1000 latest
    indicator/event rows: a row with the indicator's value as
    [entity_value] and its type as [entity_type]. *)
Theorem buildGraph_files_recent_indicators (w : world) :
  answering fails w ->
  exists counts w',
    buildGraph uuid_of random_of fails w = (Settled (Resolved counts), w')
    /\ forall row, row ∈ recent_rows (w_db w) ->
         exists n, n ∈ graph_nodes (w_db w')
                   /\ entity_value n = row.1.1.1 /\ entity_type n = row.1.1.2.
Proof.
  intros Hans.
  destruct (buildGraph_answered uuid_of random_of fails w Hans)
    as (w' & Hb & _ & Hcover).
  eexists _, w'. split; [exact Hb|].
  intros row Hrow. destruct (Hcover row Hrow) as (n & Hn & Hsame).
  exists n. split; [done|]. unfold same_entity in Hsame.
  apply andb_prop in Hsame as [Hv Ht].
  by apply String.eqb_eq in Hv, Ht.
Qed.

End GraphCoverage.

Lemma buildGraph_files_recent_indicators_witness :
  exists counts w',
    Graph.buildGraph Samples.uuid_of (fun _ => 1%Q) Samples.no_failure
      Samples.restarted_world
    = (Graph.Settled (Js.Resolved counts), w')
    /\ forall row, row ∈ Graph.recent_rows (Graph.w_db Samples.restarted_world) ->
         exists n, n ∈ Storage.graph_nodes (Graph.w_db w')
                   /\ Storage.entity_value n = row.1.1.1
                   /\ Storage.entity_type n = row.1.1.2.
Proof.
  apply (buildGraph_files_recent_indicators Samples.uuid_of (fun _ => 1%Q)
           Samples.no_failure Samples.restarted_world).
  split; reflexivity.
Defined.

(** ** ML scorer: ranges *)

Section MLRange.
Import ML.
Local Open Scope float_scope.
#[local] Set Warnings "-inexact-float".

Lemma both_spec (F : bool -> bool) : both F = true -> forall b, F b = true.
Proof. unfold both. intros HF b. apply andb_prop in HF. destruct b; tauto. Qed.

Lemma all9_spec F :
  all9 F = true -> forall b1 b2 b3 b4 b5 b6 b7 b8 b9, F b1 b2 b3 b4 b5 b6 b7 b8 b9 = true.
Proof.
  intros H0 b1 b2 b3 b4 b5 b6 b7 b8 b9. unfold all9 in H0.
  pose proof (both_spec _ H0 b1) as H1. cbv beta in H1.
  pose proof (both_spec _ H1 b2) as H2. cbv beta in H2.
  pose proof (both_spec _ H2 b3) as H3. cbv beta in H3.
  pose proof (both_spec _ H3 b4) as H4. cbv beta in H4.
  pose proof (both_spec _ H4 b5) as H5. cbv beta in H5.
  pose proof (both_spec _ H5 b6) as H6. cbv beta in H6.
  pose proof (both_spec _ H6 b7) as H7. cbv beta in H7.
  pose proof (both_spec _ H7 b8) as H8. cbv beta in H8.
  exact (both_spec _ H8 b9).
Qed.

Lemma integer_in_spec lo hi v :
  integer_in lo hi v = true ->
  exists n : Z, (lo <= n <= hi)%Z /\ v = PrimFloat.of_uint63 (Uint63.of_Z n).
Proof.
  unfold integer_in. cbv zeta. intros Hv.
  apply andb_prop in Hv as [Hv Heq]. apply andb_prop in Hv as [Hlo Hhi].
  exists (integer_of v). split; [lia|].
  by apply FloatAxioms.Leibniz.eqb_spec.
Qed.

(** X19: the classifier's probability lies between 0 and 1 whatever
    the feature vector; the label is "malicious" exactly when the
    probability exceeds one half; and the confidence, when there is
    one, lies between 0 and 1. *)
Theorem classifyThreat_range (featureVector : option (list float)) :
  let c := classifyThreat featureVector in
  PrimFloat.leb 0 (malicious_probability c) = true
  /\ PrimFloat.leb (malicious_probability c) 1 = true
  /\ (label c = "malicious" <-> PrimFloat.ltb 0.5 (malicious_probability c) = true)
  /\ match c_confidence c with
     | Some k => PrimFloat.leb 0 k = true /\ PrimFloat.leb k 1 = true
     | None => featureVector = None
     end.
Proof.
  destruct featureVector as [features|].
  - unfold classifyThreat, predictProba. cbv zeta.
    destruct (gt features 6 0.4), (gt features 0 0.5 && gt features 1 0.5),
      (gt features 5 0.6 && ge features 2 0.3),
      (gt features 4 0.5 || gt features 7 0.6),
      (gt features 3 0.4 && gt features 1 0.4), (gt features 9 0.7),
      (gt features 8 0.5), (gt features 6 0.3 && gt features 5 0.5),
      (gt features 0 0.6 && (gt features 3 0.5 || gt features 4 0.5));
      vm_compute;
      (split; [reflexivity|split; [reflexivity|split; [|split; reflexivity]]]);
      (split; intros Hl; first [reflexivity|discriminate Hl]).
  - vm_compute. split; [reflexivity|split; [reflexivity|split; [|reflexivity]]].
    split; intros Hl; discriminate Hl.
Qed.

(** X20: the combined score is one of the integers from 0 to 100,
    whatever the two feature vectors (and when one or both are
    missing). *)
Theorem calculateMLScore_range (forAnomaly forClassification : option (list float)) :
  exists n : Z,
    (0 <= n <= 100)%Z
    /\ ml_value (calculateMLScore forAnomaly forClassification)
       = PrimFloat.of_uint63 (Uint63.of_Z n).
Proof.
  apply integer_in_spec.
  unfold calculateMLScore, detectAnomaly, classifyThreat, predict, anomalyScore,
    predictProba.
  destruct forClassification as [fc|], forAnomaly as [fa|];
    cbn [ml_value a_score malicious_probability]; cbv zeta.
  - generalize (gt fc 6 0.4), (gt fc 0 0.5 && gt fc 1 0.5),
      (gt fc 5 0.6 && ge fc 2 0.3), (gt fc 4 0.5 || gt fc 7 0.6),
      (gt fc 3 0.4 && gt fc 1 0.4), (gt fc 9 0.7), (gt fc 8 0.5),
      (gt fc 6 0.3 && gt fc 5 0.5),
      (gt fc 0 0.6 && (gt fc 3 0.5 || gt fc 4 0.5)).
    destruct (gt fa 0 0.7), (gt fa 1 0.6), (gt fa 2 0.5),
      (gt fa 3 0.6 || gt fa 4 0.6), (gt fa 5 0.7), (gt fa 6 0.5),
      (gt fa 7 0.7), (gt fa 8 0.6), (gt fa 9 0.8);
      apply all9_spec; vm_compute; reflexivity.
  - generalize (gt fc 6 0.4), (gt fc 0 0.5 && gt fc 1 0.5),
      (gt fc 5 0.6 && ge fc 2 0.3), (gt fc 4 0.5 || gt fc 7 0.6),
      (gt fc 3 0.4 && gt fc 1 0.4), (gt fc 9 0.7), (gt fc 8 0.5),
      (gt fc 6 0.3 && gt fc 5 0.5),
      (gt fc 0 0.6 && (gt fc 3 0.5 || gt fc 4 0.5)).
    apply all9_spec; vm_compute; reflexivity.
  - generalize (gt fa 0 0.7), (gt fa 1 0.6), (gt fa 2 0.5),
      (gt fa 3 0.6 || gt fa 4 0.6), (gt fa 5 0.7), (gt fa 6 0.5),
      (gt fa 7 0.7), (gt fa 8 0.6), (gt fa 9 0.8).
    apply all9_spec; vm_compute; reflexivity.
  - vm_compute. reflexivity.
Qed.

End MLRange.

(** ** Indicator ingestion: the stored row *)

Section IndicatorUpsert.
Import Js Storage Ingestion.








Lemma find_none_keys ev (l : list indicator) :
  List.find (same_indicator ev) l = None ->
  (ne_indicator_value ev, ne_indicator_type ev)
  ∉ map (fun i => (ind_value i, ind_type i)) l.
Proof.
  induction l as [|a l IH]; simpl; [intros _; apply not_elem_of_nil|].
  destruct (same_indicator ev a) eqn:Ha; [done|]. intros Hl.
  apply not_elem_of_cons. split; [|by apply IH].
  intros [= Hv Ht]. unfold same_indicator in Ha.
  rewrite <- Hv, <- Ht, !String.eqb_refl in Ha. done.
Qed.

Lemma existsb_false_ids (x : string) (l : list indicator) :
  existsb (fun i => String.eqb (ind_id i) x) l = false -> x ∉ map ind_id l.
Proof.
  induction l as [|a l IH]; simpl; [intros _; apply not_elem_of_nil|].
  intros Hl. apply orb_false_elim in Hl as [Ha Hl].
  apply not_elem_of_cons. split; [|by apply IH].
  intros ->. by rewrite String.eqb_refl in Ha.
Qed.

(** X22: a call of [storeIndicator] that runs on its own never gives
    the table a second row for a (value, type) pair, nor a second row
    with an id already there, though the schema declares only the id
    unique. *)
Theorem storeIndicator_keeps_rows_distinct (indicatorId now : string)
    (ev : normalizedEvent) (d : db) :
  NoDup (map (fun i => (ind_value i, ind_type i)) (indicators d)) ->
  NoDup (map ind_id (indicators d)) ->
  let d' := snd (storeIndicator indicatorId now ev d) in
  NoDup (map (fun i => (ind_value i, ind_type i)) (indicators d'))
  /\ NoDup (map ind_id (indicators d')).
Proof.
  intros Hkeys Hids. unfold storeIndicator.
  destruct (available d); simpl; [|done].
  destruct (List.find (same_indicator ev) (indicators d)) as [row|] eqn:Hfind;
    simpl.
  - rewrite !map_map.
    rewrite (map_ext (fun i => (ind_value (update_row (ind_id row) now ev i),
                                ind_type (update_row (ind_id row) now ev i)))
               (fun i => (ind_value i, ind_type i))).
    2: { intros i. by destruct (update_row_keeps (ind_id row) now ev i)
           as (_ & -> & ->). }
    rewrite (map_ext (fun i => ind_id (update_row (ind_id row) now ev i)) ind_id).
    2: { intros i. by destruct (update_row_keeps (ind_id row) now ev i) as (-> & _). }
    done.
  - destruct (existsb _ _) eqn:Hid; simpl; [done|].
    rewrite !map_app. simpl. split.
    + apply NoDup_app. split; [done|]. split; [|apply NoDup_singleton].
      intros k Hk Hk'. apply list_elem_of_singleton in Hk'. subst k.
      by apply (find_none_keys ev (indicators d)).
    + apply NoDup_app. split; [done|]. split; [|apply NoDup_singleton].
      intros k Hk Hk'. apply list_elem_of_singleton in Hk'. subst k.
      by apply (existsb_false_ids indicatorId (indicators d)).
Qed.

End IndicatorUpsert.


Lemma storeIndicator_keeps_rows_distinct_witness :
  let d' :=
    snd (Ingestion.storeIndicator "uuid-9" "2024-01-02T00:00:01.000Z"
           Samples.second_sighting Samples.linked_db) in
  NoDup (map (fun i => (Storage.ind_value i, Storage.ind_type i))
           (Storage.indicators d'))
  /\ NoDup (map Storage.ind_id (Storage.indicators d')).
Proof.
  apply (storeIndicator_keeps_rows_distinct "uuid-9" "2024-01-02T00:00:01.000Z"
           Samples.second_sighting Samples.linked_db).
  - apply (bool_decide_unpack _). vm_compute. reflexivity.
  - apply (bool_decide_unpack _). vm_compute. reflexivity.
Defined.

(** ** Normalizer: the tests on values *)

Section RegularExpressions.
Import Normalizer.

Lemma nullable_matches r : nullable r = true <-> matches r [].
Proof.
  split.
  - induction r as [| |p|r IHr s IHs|r IHr s IHs|r IHr]; simpl; intros Hn;
      try done.
    + constructor.
    + apply andb_prop in Hn as [H1 H2].
      change (@nil ascii) with (@nil ascii ++ []). constructor; auto.
    + apply orb_prop in Hn as [H1|H2];
        [apply matches_alt_l|apply matches_alt_r]; auto.
    + constructor.
  - intros Hm. remember [] as l eqn:Hl.
    induction Hm as [|p c Hp|r s x y H1 IH1 H2 IH2|r s x H1 IH1|r s x H1 IH1
                     |r|r x y H1 IH1 H2 IH2]; simpl; try done.
    + destruct x; [|done]. simpl in Hl. subst y. by rewrite IH1, IH2.
    + by rewrite IH1.
    + rewrite IH1 by done. apply orb_true_r.
Qed.

Lemma derive_matches c r l : matches (derive c r) l <-> matches r (c :: l).
Proof.
  split.
  - revert l.
    induction r as [| |p|r IHr s IHs|r IHr s IHs|r IHr]; simpl; intros l Hm.
    + inversion Hm.
    + inversion Hm.
    + destruct (p c) eqn:Hp; inversion Hm; subst. by constructor.
    + destruct (nullable r) eqn:Hn.
      * inversion Hm as [| | |? ? ? Hl|? ? ? Hr| |]; subst.
        -- inversion Hl as [| |? ? x y Hx Hy| | | |]; subst.
           change (c :: x ++ y) with ((c :: x) ++ y). constructor; auto.
        -- change (c :: l) with ([] ++ c :: l). constructor; auto.
           by apply nullable_matches.
      * inversion Hm as [| |? ? x y Hx Hy| | | |]; subst.
        change (c :: x ++ y) with ((c :: x) ++ y). constructor; auto.
    + inversion Hm; subst; [apply matches_alt_l|apply matches_alt_r]; auto.
    + inversion Hm as [| |? ? x y Hx Hy| | | |]; subst.
      change (c :: x ++ y) with ((c :: x) ++ y). constructor; auto.
  - intros Hm. remember (c :: l) as cl eqn:Hcl. revert c l Hcl.
    induction Hm as [|p a Hp|r s x y H1 IH1 H2 IH2|r s x H1 IH1|r s x H1 IH1
                     |r|r x y H1 IH1 H2 IH2]; intros c l Hcl; simpl.
    + done.
    + injection Hcl as -> <-. rewrite Hp. constructor.
    + destruct x as [|a x]; simpl in Hcl.
      * subst y. rewrite (proj2 (nullable_matches r) H1).
        apply matches_alt_r. by apply IH2.
      * injection Hcl as -> <-.
        destruct (nullable r); [apply matches_alt_l|]; constructor; auto.
    + apply matches_alt_l. by apply IH1.
    + apply matches_alt_r. by apply IH1.
    + done.
    + destruct x as [|a x]; simpl in Hcl.
      * subst y. by apply IH2.
      * injection Hcl as -> <-. constructor; auto.
Qed.

(** The matcher decides membership in the language. *)
Lemma accepts_matches r l : accepts r l = true <-> matches r l.
Proof.
  revert r. induction l as [|c l IH]; intros r; simpl.
  - apply nullable_matches.
  - rewrite IH. apply derive_matches.
Qed.

Lemma all_chars_complete c : In c all_chars.
Proof.
  unfold all_chars. rewrite <- (ascii_nat_embedding c).
  apply in_map, in_seq. pose proof (nat_ascii_bounded c). lia.
Qed.

Lemma never_in_spec p q c : never_in p q = true -> p c = true -> q c = false.
Proof.
  unfold never_in. rewrite forallb_forall. intros Hall Hp.
  specialize (Hall c (all_chars_complete c)). rewrite Hp in Hall.
  by destruct (q c).
Qed.

Lemma always_in_spec p q c : always_in p q = true -> p c = true -> q c = true.
Proof.
  unfold always_in. rewrite forallb_forall. intros Hall Hp.
  specialize (Hall c (all_chars_complete c)). by rewrite Hp in Hall.
Qed.

Lemma occurrences_app q x y :
  occurrences q (x ++ y) = (occurrences q x + occurrences q y)%nat.
Proof. unfold occurrences. by rewrite List.filter_app, length_app. Qed.

(** The bounds hold for every string of the language. *)
Lemma occurrences_bounds q r l :
  matches r l ->
  (least q r <= occurrences q l)%nat
  /\ forall h, most q r = Some h -> (occurrences q l <= h)%nat.
Proof.
  induction 1 as [|p c Hp|r s x y H1 [L1 M1] H2 [L2 M2]|r s x H1 [L1 M1]
                  |r s x H1 [L1 M1]|r|r x y H1 [L1 M1] H2 [L2 M2]]; simpl.
  - split; [done|]. intros h [= <-]. done.
  - unfold occurrences. simpl. split.
    + destruct (always_in p q) eqn:Ha; [|lia].
      by rewrite (always_in_spec p q c Ha Hp).
    + intros h. destruct (never_in p q) eqn:Hn; intros [= <-].
      * by rewrite (never_in_spec p q c Hn Hp).
      * destruct (q c); simpl; lia.
  - rewrite occurrences_app. split; [lia|].
    intros h. destruct (most q r) as [a|]; [|done].
    destruct (most q s) as [b|]; [|done]. intros [= <-].
    specialize (M1 a eq_refl). specialize (M2 b eq_refl). lia.
  - split; [lia|].
    intros h. destruct (most q r) as [a|]; [|done].
    destruct (most q s) as [b|]; [|done]. intros [= <-].
    specialize (M1 a eq_refl). lia.
  - split; [lia|].
    intros h. destruct (most q r) as [a|]; [|done].
    destruct (most q s) as [b|]; [|done]. intros [= <-].
    specialize (M1 b eq_refl). lia.
  - split; [lia|]. intros h _. unfold occurrences. simpl. lia.
  - rewrite occurrences_app. split; [lia|].
    intros h Hh. simpl in M2. specialize (M2 h Hh).
    destruct (most q r) as [[|a]|]; [|done|done]. injection Hh as <-.
    specialize (M1 0%nat eq_refl). lia.
Qed.

Lemma occurrences_exact q r l n :
  least q r = n -> most q r = Some n -> matches r l -> occurrences q l = n.
Proof.
  intros Hl Hm Hr. destruct (occurrences_bounds q r l Hr) as [Hlo Hhi].
  specialize (Hhi n Hm). lia.
Qed.

Lemma occurrences_all l : occurrences (fun _ => true) l = length l.
Proof.
  unfold occurrences. induction l as [|c l IH]; simpl; [done|]. by rewrite IH.
Qed.

Lemma both_kinds_false (a b : bool) :
  (a = true -> b = true -> False) -> a && b = false.
Proof. destruct a, b; intros Hab; try done. by destruct Hab. Qed.

Lemma ipv4Regex_shape l : matches ipv4Regex l -> dots l = 3%nat /\ colons l = 0%nat.
Proof.
  intros Hm. split.
  - apply (occurrences_exact _ ipv4Regex); [vm_compute; reflexivity..|done].
  - apply (occurrences_exact _ ipv4Regex); [vm_compute; reflexivity..|done].
Qed.

Lemma ipv6Regex_shape l : matches ipv6Regex l -> dots l = 0%nat /\ colons l = 7%nat.
Proof.
  intros Hm. split.
  - apply (occurrences_exact _ ipv6Regex); [vm_compute; reflexivity..|done].
  - apply (occurrences_exact _ ipv6Regex); [vm_compute; reflexivity..|done].
Qed.

Lemma domainRegex_shape l :
  matches domainRegex l -> dots l = 1%nat /\ colons l = 0%nat.
Proof.
  intros Hm. split.
  - apply (occurrences_exact _ domainRegex); [vm_compute; reflexivity..|done].
  - apply (occurrences_exact _ domainRegex); [vm_compute; reflexivity..|done].
Qed.

Lemma hashRegex_shape l :
  matches hashRegex l ->
  dots l = 0%nat /\ colons l = 0%nat
  /\ (length l = 32%nat \/ length l = 40%nat \/ length l = 64%nat).
Proof.
  intros Hm. split; [|split].
  - apply (occurrences_exact _ hashRegex); [vm_compute; reflexivity..|done].
  - apply (occurrences_exact _ hashRegex); [vm_compute; reflexivity..|done].
  - rewrite <- occurrences_all. unfold hashRegex in Hm.
    inversion Hm as [| | |? ? ? H32|? ? ? Hrest| |]; subst.
    + left. apply (occurrences_exact _ (times 32 (Class hex)));
        [vm_compute; reflexivity..|done].
    + inversion Hrest as [| | |? ? ? H40|? ? ? H64| |]; subst.
      * right. left. apply (occurrences_exact _ (times 40 (Class hex)));
          [vm_compute; reflexivity..|done].
      * right. right. apply (occurrences_exact _ (times 64 (Class hex)));
          [vm_compute; reflexivity..|done].
Qed.

Lemma isIPAddress_shape value :
  isIPAddress (Some value) = true ->
  let chars := String.list_ascii_of_string value in
  (dots chars = 3%nat /\ colons chars = 0%nat)
  \/ (dots chars = 0%nat /\ colons chars = 7%nat).
Proof.
  unfold isIPAddress, test. simpl. intros Hip.
  apply orb_prop in Hip as [H4|H6].
  - left. by apply ipv4Regex_shape, accepts_matches.
  - right. by apply ipv6Regex_shape, accepts_matches.
Qed.

Lemma isDomain_shape value :
  isDomain (Some value) = true ->
  let chars := String.list_ascii_of_string value in
  dots chars = 1%nat /\ colons chars = 0%nat.
Proof.
  unfold isDomain, test. simpl. intros Hd.
  by apply domainRegex_shape, accepts_matches.
Qed.

Lemma isHash_shape value :
  isHash (Some value) = true ->
  let chars := String.list_ascii_of_string value in
  dots chars = 0%nat /\ colons chars = 0%nat
  /\ (length chars = 32%nat \/ length chars = 40%nat \/ length chars = 64%nat).
Proof.
  unfold isHash, test. simpl. intros Hh.
  by apply hashRegex_shape, accepts_matches.
Qed.

(** X23: the three tests on [event.value] tell values apart by their
    dots and colons.  A value that [isIPAddress] accepts has three
    dots and no colon, or seven colons and no dot; one that [isDomain]
    accepts has exactly one dot, so a host name with a subdomain is not
    a domain for the normalizer; one that [isHash] accepts has neither
    and is 32, 40 or 64 characters long.  No value passes two of the
    tests, and an absent value passes none. *)
Theorem value_tests_disjoint (value : string) :
  let chars := String.list_ascii_of_string value in
  (isIPAddress (Some value) = true ->
     (dots chars = 3%nat /\ colons chars = 0%nat)
     \/ (dots chars = 0%nat /\ colons chars = 7%nat))
  /\ (isDomain (Some value) = true -> dots chars = 1%nat /\ colons chars = 0%nat)
  /\ (isHash (Some value) = true ->
        dots chars = 0%nat /\ colons chars = 0%nat
        /\ (length chars = 32%nat \/ length chars = 40%nat
            \/ length chars = 64%nat))
  /\ isIPAddress (Some value) && isDomain (Some value) = false
  /\ isIPAddress (Some value) && isHash (Some value) = false
  /\ isDomain (Some value) && isHash (Some value) = false
  /\ isIPAddress None || isDomain None || isHash None = false.
Proof.
  cbv zeta. split_and!.
  - apply isIPAddress_shape.
  - apply isDomain_shape.
  - apply isHash_shape.
  - apply both_kinds_false. intros Hip Hd.
    apply isIPAddress_shape in Hip. apply isDomain_shape in Hd.
    cbv zeta in Hip, Hd. lia.
  - apply both_kinds_false. intros Hip Hh.
    apply isIPAddress_shape in Hip. apply isHash_shape in Hh.
    cbv zeta in Hip, Hh. lia.
  - apply both_kinds_false. intros Hd Hh.
    apply isDomain_shape in Hd. apply isHash_shape in Hh.
    cbv zeta in Hd, Hh. lia.
  - vm_compute. reflexivity.
Qed.

(** The addresses and the domain of [simulateThreatFeed] pass their
    tests; so does an address with octets above 255; a host name with
    a subdomain passes none. *)
Example value_tests_samples :
  map (fun v => (isIPAddress (Some v), isDomain (Some v), isHash (Some v)))
    ["192.168.1.100"; "999.999.999.999"; "malicious-c2.com"; "www.malicious-c2.com";
     "d41d8cd98f00b204e9800998ecf8427e"]
  = [(true, false, false); (true, false, false); (false, true, false);
     (false, false, false); (false, false, true)].
Proof. vm_compute. reflexivity. Qed.

End RegularExpressions.

(** ** Normalizer: indicators and event types *)

Section RawEvents.
Import Js Normalizer.

Lemma tests_on_nothing (value : option string) :
  truthy_string value = false ->
  isIPAddress value = false /\ isDomain value = false /\ isHash value = false.
Proof.
  destruct value as [v|]; simpl.
  - destruct (String.eqb_spec v "") as [->|Hne]; [|done]. intros _.
    vm_compute. by split_and!.
  - intros _. vm_compute. by split_and!.
Qed.

Lemma truthy_string_Some (x : option string) :
  truthy_string x = true -> x = Some (default "" x).
Proof. by destruct x. Qed.

(** X24: for an event that carries neither [indicator_type] nor
    [indicator_value] nor [value], the type that [detectIndicatorType]
    names and the value that [extractIndicatorValue] returns come from
    the same property: an "IP" has the value of [ip], a "domain" that
    of [domain], a "hash" that of [hash], a "user" that of [user] or
    [username], a "file" that of [file], and the type is "unknown"
    only together with the value "unknown". *)
Theorem indicator_type_names_its_value (event : rawEvent) :
  truthy_string (raw_indicator_type event) = false ->
  truthy_string (raw_indicator_value event) = false ->
  truthy_string (raw_value event) = false ->
  let t := detectIndicatorType event in
  let v := extractIndicatorValue event in
  (t = "IP" /\ raw_ip event = Some v)
  \/ (t = "domain" /\ raw_domain event = Some v)
  \/ (t = "hash" /\ raw_hash event = Some v)
  \/ (t = "user" /\ (raw_user event = Some v \/ raw_username event = Some v))
  \/ (t = "file" /\ raw_file event = Some v)
  \/ (t = "unknown" /\ v = "unknown").
Proof.
  intros Ht Hiv Hv. cbv zeta.
  destruct (tests_on_nothing (raw_value event) Hv) as (Hip & Hd & Hh).
  unfold detectIndicatorType, extractIndicatorValue, or_else.
  rewrite Ht, Hiv, Hv, Hip, Hd, Hh, !orb_false_r.
  destruct (truthy_string (raw_ip event)) eqn:H1;
    [left; split; [done|by apply truthy_string_Some]|right].
  destruct (truthy_string (raw_domain event)) eqn:H2;
    [left; split; [done|by apply truthy_string_Some]|right].
  destruct (truthy_string (raw_hash event)) eqn:H3;
    [left; split; [done|by apply truthy_string_Some]|right].
  destruct (truthy_string (raw_user event)) eqn:H4; simpl.
  { left. split; [done|]. left. by apply truthy_string_Some. }
  destruct (truthy_string (raw_username event)) eqn:H5.
  { left. split; [done|]. right. by apply truthy_string_Some. }
  right.
  destruct (truthy_string (raw_file event)) eqn:H6;
    [left; split; [done|by apply truthy_string_Some]|right].
  done.
Qed.

(** When [value] is present it is the value returned, whatever the
    type says: an event with an address in [ip] and a domain in
    [value] is an "IP" whose value is the domain. *)
Example indicator_type_beside_value :
  let event :=
    {| raw_indicator_type := None; raw_indicator_value := None;
       raw_value := Some "malicious-c2.com"; raw_ip := Some "10.0.0.50";
       raw_domain := None; raw_hash := None; raw_user := None;
       raw_username := None; raw_file := None |} in
  detectIndicatorType event = "IP"
  /\ extractIndicatorValue event = "malicious-c2.com".
Proof. vm_compute. split; reflexivity. Qed.

Lemma own_In key entries v : own key entries = Some v -> In v (map snd entries).
Proof.
  induction entries as [|[k v'] entries IH]; simpl; [done|].
  destruct (String.eqb k key); [intros [= ->]; by left|]. intros Hv. right. auto.
Qed.

Lemma canonical_names_fixed :
  Forall
    (fun v => truthy_string (Some v) = true
              /\ normalizeEventType (Some v) = Text v
              /\ own v eventTypeMap = Some v)
    (map snd eventTypeMap).
Proof. repeat constructor. Qed.

(** X25: [normalizeEventType] never answers the empty text, and
    normalizing a text it has answered gives that text again.  When
    the type in lower case is a key of the map, the answer is the
    canonical name stored under the key, whatever the case of the
    letters, and the canonical names are keys that stand for
    themselves. *)
Theorem normalizeEventType_canonical (type : option string) :
  let r := normalizeEventType type in
  r <> Text ""
  /\ (forall s, r = Text s -> normalizeEventType (Some s) = Text s)
  /\ (forall t v,
        type = Some t -> own (toLowerCase t) eventTypeMap = Some v ->
        r = Text v /\ own v eventTypeMap = Some v).
Proof.
  pose proof canonical_names_fixed as Hfix. rewrite Forall_forall in Hfix.
  destruct type as [t|]; cbv zeta.
  2: { split; [done|]. split; [|done]. by intros s [= <-]. }
  destruct (own (toLowerCase t) eventTypeMap) as [v|] eqn:Hown.
  - destruct (Hfix v) as (Hv & Hn & Ho);
      [by apply list_elem_of_In, (own_In _ _ _ Hown)|].
    assert (normalizeEventType (Some t) = Text v) as ->.
    { unfold normalizeEventType, get_property. by rewrite Hown, Hv. }
    split; [|split].
    + intros [= ->]. done.
    + by intros s [= <-].
    + intros t' v' [= <-] Hown'. rewrite Hown in Hown'. by injection Hown' as <-.
  - assert (forall r t' v',
              Some t = Some t' -> own (toLowerCase t') eventTypeMap = Some v' ->
              r = Text v' /\ own v' eventTypeMap = Some v') as Hno.
    { intros r t' v' [= <-] Hown'. by rewrite Hown in Hown'. }
    destruct (String.eqb (toLowerCase t) "constructor") eqn:Hc.
    { assert (normalizeEventType (Some t) = ObjectConstructor) as ->.
      { unfold normalizeEventType, get_property. by rewrite Hown, Hc. }
      split; [done|]. split; [done|apply Hno]. }
    destruct (String.eqb (toLowerCase t) "__proto__") eqn:Hp.
    { assert (normalizeEventType (Some t) = ObjectPrototype) as ->.
      { unfold normalizeEventType, get_property. by rewrite Hown, Hc, Hp. }
      split; [done|]. split; [done|apply Hno]. }
    destruct (truthy_string (Some t)) eqn:Ht.
    + assert (normalizeEventType (Some t) = Text t) as E.
      { unfold normalizeEventType, get_property. by rewrite Hown, Hc, Hp, Ht. }
      rewrite E. split; [|split; [|apply Hno]].
      * intros [= ->]. done.
      * by intros s [= <-].
    + assert (normalizeEventType (Some t) = Text "unknown") as ->.
      { unfold normalizeEventType, get_property. by rewrite Hown, Hc, Hp, Ht. }
      split; [done|]. split; [|apply Hno]. by intros s [= <-].
Qed.

(** An event type that spells "constructor" or "__proto__" is a key
    that the map inherits: the answer is not a text. *)
Example normalizeEventType_inherited :
  map normalizeEventType [Some "Constructor"; Some "__PROTO__"; Some "SCAN"; Some ""; None]
  = [ObjectConstructor; ObjectPrototype; Text "port_scan"; Text "unknown";
     Text "unknown"].
Proof. vm_compute. reflexivity. Qed.

End RawEvents.

Lemma indicator_type_names_its_value_witness :
  let t := Normalizer.detectIndicatorType Samples.failed_login_event in
  let v := Normalizer.extractIndicatorValue Samples.failed_login_event in
  (t = "IP" /\ Normalizer.raw_ip Samples.failed_login_event = Some v)
  \/ (t = "domain" /\ Normalizer.raw_domain Samples.failed_login_event = Some v)
  \/ (t = "hash" /\ Normalizer.raw_hash Samples.failed_login_event = Some v)
  \/ (t = "user"
      /\ (Normalizer.raw_user Samples.failed_login_event = Some v
          \/ Normalizer.raw_username Samples.failed_login_event = Some v))
  \/ (t = "file" /\ Normalizer.raw_file Samples.failed_login_event = Some v)
  \/ (t = "unknown" /\ v = "unknown").
Proof.
  apply (indicator_type_names_its_value Samples.failed_login_event);
    reflexivity.
Defined.
